(** * IPL playoff predictor: rating model, Monte Carlo simulator, analyzer

    A shallow embedding of [elo_calculator.py], [simulator.py] and
    [analyzer.py], and the properties of the specification proved (or
    refuted) on it.

    Numbers.  Python integers are [Z].  The values read from the input
    records and the values the simulator sorts on (net run rate, random
    draws) are exact rationals [Q], so that the simulator computes; the
    rating model, whose win probability needs [10 ** x], is over the real
    numbers [R].  Python's binary floating point is idealised by these exact
    numbers: no rounding and no NaN is modelled.  The one error that the
    floating-point arithmetic of the code can raise, the [OverflowError] of
    [10 ** x], is modelled by the range of the numbers; the theorems that a
    rounding of the code would break are stated with the bounds, or on the
    integer counts, for which they hold for the code. *)

From Stdlib Require Import ZArith QArith Qround Reals Lra Lia.
From Stdlib Require Import Sorting.Permutation Sorting.Sorted.
From stdpp Require Import base option list gmap strings.

Local Open Scope Z_scope.

(** ** Data model *)

(** One entry of [current_standings.json]. *)
Record TeamStanding := mkStanding {
  team : string;
  played : Z;
  wins : Z;
  losses : Z;
  points : Z;
  nrr : Q
}.

(** One entry of [schedule.json]. *)
Record Fixture := mkFixture {
  homeTeam : string;
  awayTeam : string
}.

(** One entry of [form_factor.json]; a result is the string "W", "L" or "N". *)
Record FormRecord := mkForm {
  form_teamId : string;
  recentForm : list string
}.

(** One entry of [home_away_stats.json]. *)
Record HomeAwaySplit := mkSplit {
  split_teamId : string;
  homeWinRate : Q;
  awayWinRate : Q
}.

#[global] Instance Fixture_eq_dec : EqDecision Fixture.
Proof. solve_decision. Defined.

(** ** elo_calculator.py *)

(** [weights] of [_calculate_form_bonus]: the most recent match first. *)
Definition weights : list R := [1; 0.8; 0.6; 0.4; 0.2]%R.

(** The search loop of [_calculate_form_bonus]: the first record of the
    team, [None] when there is none. *)
Fixpoint find_form (form_factor : list FormRecord) (team_id : string)
  : option (list string) :=
  match form_factor with
  | [] => None
  | f :: rest =>
      if String.eqb (form_teamId f) team_id then Some (recentForm f)
      else find_form rest team_id
  end.

(** The accumulation loop [for i, result in enumerate(form)], which stops
    when [i >= len(weights)].  [ws] is [weights[i:]]. *)
Fixpoint form_bonus_loop (form : list string) (ws : list R) (form_bonus : R) : R :=
  match form, ws with
  | result :: form', w :: ws' =>
      form_bonus_loop form' ws'
        (if String.eqb result "W" then form_bonus + 10 * w
         else if String.eqb result "L" then form_bonus - 5 * w
         else form_bonus)%R
  | _, _ => form_bonus
  end.

Definition _calculate_form_bonus (form_factor : list FormRecord) (team_id : string) : R :=
  match find_form form_factor team_id with
  | None => 0%R
  | Some [] => 0%R
  | Some form => form_bonus_loop form weights 0%R
  end.

(** [ratings[k] += v]: a [KeyError] ([None]) when [k] is not a key. *)
Definition dict_iadd (ratings : gmap string R) (k : string) (v : R)
  : option (gmap string R) :=
  match ratings !! k with
  | Some r => Some (<[k := (r + v)%R]> ratings)
  | None => None
  end.

(** The body of the second loop of [_initialize_elo_ratings]. *)
Definition adjust_rating (form_factor : list FormRecord) (t : TeamStanding)
    (ratings : gmap string R) : option (gmap string R) :=
  ratings ← dict_iadd ratings (team t) (IZR (points t) * 15)%R;
  ratings ← dict_iadd ratings (team t) (Q2R (nrr t) * 50)%R;
  ratings ← dict_iadd ratings (team t) (_calculate_form_bonus form_factor (team t));
  if 0 <? played t
  then dict_iadd ratings (team t) ((IZR (wins t) / IZR (played t) - 0.5) * 100)%R
  else Some ratings.

Fixpoint adjust_ratings (form_factor : list FormRecord) (standings : list TeamStanding)
    (ratings : gmap string R) : option (gmap string R) :=
  match standings with
  | [] => Some ratings
  | t :: rest =>
      ratings ← adjust_rating form_factor t ratings;
      adjust_ratings form_factor rest ratings
  end.

(** [team_ids] is the set of the identifiers of the standings; every one of
    them starts at 1500. *)
Definition _initialize_elo_ratings (standings : list TeamStanding)
    (form_factor : list FormRecord) : option (gmap string R) :=
  let team_ids : gset string := list_to_set (map team standings) in
  let ratings : gmap string R := gset_to_gmap 1500%R team_ids in
  adjust_ratings form_factor standings ratings.

Definition get_team_rating (ratings : gmap string R) (team_id : string) : R :=
  default 1500%R (ratings !! team_id).

(** The loop of [calculate_win_probability] over [home_away_stats]:
    [home_advantage] stays [0] when the home team has no record. *)
Fixpoint find_home_advantage (home_away_stats : list HomeAwaySplit)
    (home_team : string) : R :=
  match home_away_stats with
  | [] => 0%R
  | s :: rest =>
      if String.eqb (split_teamId s) home_team
      then ((Q2R (homeWinRate s) - 0.5) * 100)%R
      else find_home_advantage rest home_team
  end.

(** The value that [calculate_win_probability] returns, with exact
    numbers.  The call itself, which raises when [10 ** x] overflows, is
    [calculate_win_probability_call] below. *)
Definition calculate_win_probability (ratings : gmap string R)
    (home_away_stats : list HomeAwaySplit) (home_team away_team : string) : R :=
  let home_rating := get_team_rating ratings home_team in
  let away_rating := get_team_rating ratings away_team in
  let home_advantage := find_home_advantage home_away_stats home_team in
  let adjusted_home_rating := (home_rating + Rmax 30 home_advantage)%R in
  (1 / (1 + Rpower 10 ((away_rating - adjusted_home_rating) / 400)))%R.

(** The two ratings [update_ratings] computes when its call of
    [calculate_win_probability] returns: [new_home_rating] and
    [new_away_rating], with exact numbers. *)
Definition new_ratings (ratings : gmap string R)
    (home_away_stats : list HomeAwaySplit) (home_team away_team : string)
    (home_team_won : bool) (k_factor : R) : R * R :=
  let home_rating := get_team_rating ratings home_team in
  let away_rating := get_team_rating ratings away_team in
  let expected_home :=
    calculate_win_probability ratings home_away_stats home_team away_team in
  let expected_away := (1 - expected_home)%R in
  let actual_home := (if home_team_won then 1 else 0)%R in
  let actual_away := (1 - actual_home)%R in
  let new_home_rating := (home_rating + k_factor * (actual_home - expected_home))%R in
  let new_away_rating := (away_rating + k_factor * (actual_away - expected_away))%R in
  (new_home_rating, new_away_rating).

(** [update_ratings] writes the home team's entry of the rating mapping,
    then the away team's, and returns the dictionary of the two new ratings
    together with the mapping as it leaves it. *)
Definition update_ratings (ratings : gmap string R)
    (home_away_stats : list HomeAwaySplit) (home_team away_team : string)
    (home_team_won : bool) (k_factor : R) : gmap string R * gmap string R :=
  let '(new_home_rating, new_away_rating) :=
    new_ratings ratings home_away_stats home_team away_team home_team_won k_factor in
  (<[away_team := new_away_rating]> (<[home_team := new_home_rating]> ∅),
   <[away_team := new_away_rating]> (<[home_team := new_home_rating]> ratings)).

(** ** The tie-break sort *)

(** [key_lt a b] is Python's [(a.points, a.nrr) < (b.points, b.nrr)]: the
    first component that differs decides. *)
Definition key_lt (a b : TeamStanding) : bool :=
  if points a =? points b
  then match Qcompare (nrr a) (nrr b) with Lt => true | _ => false end
  else points a <? points b.

(** [sorted(standings, key=lambda x: (x["points"], x["nrr"]), reverse=True)].
    Python's sort is stable, also with [reverse=True]: entries with equal
    keys keep the order they have in the input.  [insert_ranked t l] puts
    [t], which precedes every entry of [l] in the input, in front of the
    first entry whose key is not greater. *)
Fixpoint insert_ranked (t : TeamStanding) (l : list TeamStanding) : list TeamStanding :=
  match l with
  | [] => [t]
  | u :: l' => if key_lt t u then u :: insert_ranked t l' else t :: u :: l'
  end.

Fixpoint sorted_by_points_nrr (standings : list TeamStanding) : list TeamStanding :=
  match standings with
  | [] => []
  | t :: rest => insert_ranked t (sorted_by_points_nrr rest)
  end.

(** ** Exceptions *)

Inductive Exn :=
| IndexError
| KeyError
| ZeroDivisionError
| OverflowError
| InvalidReference.
(** [InvalidReference] is not a Python exception: it is the model's answer
    to a reference that was never allocated, which Python cannot build. *)

Inductive Outcome (A : Type) :=
| Ok (a : A)
| Raise (e : Exn).
Arguments Ok {A} a.
Arguments Raise {A} e.

Definition outcome_bind {A B} (o : Outcome A) (f : A -> Outcome B) : Outcome B :=
  match o with
  | Ok a => f a
  | Raise e => Raise e
  end.

(** ** The range of the floating-point numbers *)

(** The least power that is beyond the floating-point numbers. *)
Definition float_range : R := IZR (2 ^ 1024).

(** [10 ** x] of the integer 10 and a float raises [OverflowError] when the
    power is out of the range. *)
Definition pow_overflows (x : R) : Prop := (float_range <= Rpower 10 x)%R.

(** The exponent [(away_rating - adjusted_home_rating) / 400] of
    [calculate_win_probability]. *)
Definition win_probability_exponent (ratings : gmap string R)
    (home_away_stats : list HomeAwaySplit) (home_team away_team : string) : R :=
  let home_rating := get_team_rating ratings home_team in
  let away_rating := get_team_rating ratings away_team in
  let home_advantage := find_home_advantage home_away_stats home_team in
  let adjusted_home_rating := (home_rating + Rmax 30 home_advantage)%R in
  ((away_rating - adjusted_home_rating) / 400)%R.

(** The call [calculate_win_probability(home_team, away_team)]: it raises
    when [10 ** x] does, and returns the value [calculate_win_probability]
    otherwise. *)
Definition calculate_win_probability_call (ratings : gmap string R)
    (home_away_stats : list HomeAwaySplit) (home_team away_team : string)
  : Outcome R :=
  if Rle_dec float_range
       (Rpower 10 (win_probability_exponent ratings home_away_stats home_team away_team))
  then Raise OverflowError
  else Ok (calculate_win_probability ratings home_away_stats home_team away_team).

(** ** analyzer.py *)

Record SimulationResult := mkResult {
  qualification_probability : gmap string Q;
  position_probability : gmap string (list Q)
}.

(** [find_current_playoff_cutoff]: [Ok None] is Python's [None]. *)
Definition find_current_playoff_cutoff (standings : list TeamStanding)
  : Outcome (option Z) :=
  let sorted_standings := sorted_by_points_nrr standings in
  if (4 <=? length sorted_standings)%nat
  then match sorted_standings !! 3%nat with
       | Some t => Ok (Some (points t))
       | None => Raise IndexError
       end
  else Ok None.

(** [next((t for t in standings if t["team"] == team_id), None)]. *)
Fixpoint find_standing (standings : list TeamStanding) (team_id : string)
  : option TeamStanding :=
  match standings with
  | [] => None
  | t :: rest =>
      if String.eqb (team t) team_id then Some t else find_standing rest team_id
  end.

(** [fourth_place_probs[team] = positions[3]] for every item of the
    position probabilities. *)
Fixpoint fourth_place (items : list (string * list Q)) : Outcome (list (string * Q)) :=
  match items with
  | [] => Ok []
  | (t, positions) :: rest =>
      match positions !! 3%nat with
      | Some p => outcome_bind (fourth_place rest) (fun r => Ok ((t, p) :: r))
      | None => Raise IndexError
      end
  end.

Definition sum_probs (probs : list (string * Q)) : Q :=
  foldl (fun acc tp => acc + snd tp)%Q 0%Q probs.

(** The loop that accumulates [weighted_points]. *)
Fixpoint weighted_loop (standings : list TeamStanding) (total_prob : Q)
    (probs : list (string * Q)) (weighted_points : Q) : Q :=
  match probs with
  | [] => weighted_points
  | (t, prob) :: rest =>
      weighted_loop standings total_prob rest
        match find_standing standings t with
        | Some team_standing =>
            let current_points := points team_standing in
            let remaining_matches := 14 - played team_standing in
            let estimated_additional_points := remaining_matches * 1 in
            (weighted_points
             + inject_Z (current_points + estimated_additional_points) * prob / total_prob)%Q
        | None => weighted_points
        end
  end.

(** [int(x)] of a number: truncation towards zero. *)
Definition int_of (x : Q) : Z := Z.quot (Qnum x) (Zpos (Qden x)).

(** [calculate_expected_cutoff].  The dictionary of position probabilities
    is traversed through [map_to_list]; with exact numbers the order of the
    traversal does not change the sums. *)
Definition calculate_expected_cutoff (results : SimulationResult)
    (standings : list TeamStanding) : Outcome Z :=
  let sorted_standings := sorted_by_points_nrr standings in
  let current_cutoff :=
    if (4 <=? length sorted_standings)%nat
    then match sorted_standings !! 3%nat with Some t => points t | None => 0 end
    else 0 in
  if (length standings =? 0)%nat then Raise ZeroDivisionError
  else
    let with_matches := length (filter (fun t => played t ≠ 0) standings) in
    let remaining_matches_per_team :=
      (14 - (Z.of_nat with_matches # Pos.of_nat (length standings)))%Q in
    let avg_points_per_team := (remaining_matches_per_team * 2 * (1 # 2))%Q in
    outcome_bind (fourth_place (map_to_list (position_probability results)))
      (fun fourth_place_probs =>
         let total_prob := sum_probs fourth_place_probs in
         if Qeq_bool total_prob 0 then Ok (Z.max 14 (current_cutoff + 4))
         else
           let weighted_points :=
             weighted_loop standings total_prob fourth_place_probs 0%Q in
           Ok (Z.max (int_of weighted_points) (current_cutoff + 2))).

(** ** simulator.py: the store, the random source and the monad *)

(** The standings are a list of dictionaries that [_update_standings]
    changes in place: a dictionary is a cell of the [heap], a standings list
    is a list of references.  A new dictionary is allocated at the end of
    the heap. *)
Abbreviation loc := nat.

(** The module [random]: [rng_random] is [random.random()] and
    [rng_randbelow n] the draw below [n] that [random.shuffle] makes.
    Nothing is assumed about the values drawn. *)
Class RandomSource (G : Type) := {
  rng_random : G -> Q * G;
  rng_randbelow : nat -> G -> nat * G
}.

(** What a call can change: the dictionaries, the state of the random
    source, and the [ratings] dictionary of the rating model. *)
Record World (G : Type) := mkWorld {
  heap : list TeamStanding;
  rng : G;
  ratings : gmap string R
}.
Arguments mkWorld {G} heap rng ratings.
Arguments heap {G} w.
Arguments rng {G} w.
Arguments ratings {G} w.

Definition M (G A : Type) : Type := World G -> Outcome A * World G.

#[global] Instance M_ret G : MRet (M G) := fun A a w => (Ok a, w).
#[global] Instance M_bind G : MBind (M G) := fun A B f m w =>
  match m w with
  | (Ok a, w') => f a w'
  | (Raise e, w') => (Raise e, w')
  end.

Definition lift {G A} (o : Outcome A) : M G A := fun w => (o, w).

Definition alloc {G} (t : TeamStanding) : M G loc := fun w =>
  (Ok (length (heap w)), mkWorld (heap w ++ [t]) (rng w) (ratings w)).

Definition load {G} (l : loc) : M G TeamStanding := fun w =>
  match heap w !! l with
  | Some t => (Ok t, w)
  | None => (Raise InvalidReference, w)
  end.

Definition store {G} (l : loc) (t : TeamStanding) : M G unit := fun w =>
  match heap w !! l with
  | Some _ => (Ok (), mkWorld (<[l := t]> (heap w)) (rng w) (ratings w))
  | None => (Raise InvalidReference, w)
  end.

Definition get_ratings {G} : M G (gmap string R) := fun w => (Ok (ratings w), w).

Definition set_ratings {G} (r : gmap string R) : M G () := fun w =>
  (Ok (), mkWorld (heap w) (rng w) r).

Definition random_random {G} `{!RandomSource G} : M G Q := fun w =>
  let '(u, g) := rng_random (rng w) in (Ok u, mkWorld (heap w) g (ratings w)).

Definition randbelow {G} `{!RandomSource G} (n : nat) : M G nat := fun w =>
  let '(j, g) := rng_randbelow n (rng w) in (Ok j, mkWorld (heap w) g (ratings w)).

(** [random.uniform(a, b)] is [a + (b - a) * random()]. *)
Definition random_uniform {G} `{!RandomSource G} (a b : Q) : M G Q :=
  u ← random_random; mret (a + (b - a) * u)%Q.

(** [round(x)] to the nearest integer, ties to the even one, and
    [round(x, 3)]. *)
Definition round_half_even (x : Q) : Z :=
  let f := Qfloor x in
  match Qcompare (x - inject_Z f) (1 # 2) with
  | Lt => f
  | Gt => f + 1
  | Eq => if Z.even f then f else f + 1
  end.

Definition round3 (x : Q) : Q := round_half_even (x * 1000) # 1000.

(** The records behind a list of references, in order. *)
Fixpoint load_all {G} (standings : list loc) : M G (list TeamStanding) :=
  match standings with
  | [] => mret []
  | l :: rest => t ← load l; ts ← load_all rest; mret (t :: ts)
  end.

(** [json.load] of the standings file: one new dictionary per entry. *)
Fixpoint load_standings {G} (data : list TeamStanding) : M G (list loc) :=
  match data with
  | [] => mret []
  | t :: rest => l ← alloc t; ls ← load_standings rest; mret (l :: ls)
  end.

(** ** simulator.py: the objects *)

(** The rating model as the simulator holds it; its [ratings] dictionary is
    in the [World]. *)
Record EloCalculator := mkElo {
  elo_form_factor : list FormRecord;
  elo_home_away_stats : list HomeAwaySplit
}.

Record MonteCarloSimulator := mkSim {
  self_standings : list loc;
  self_schedule : list Fixture;
  self_elo : EloCalculator;
  self_teams : list string
}.

(** [EloCalculator.__init__]: the ratings are computed here, once. *)
Definition EloCalculator_init {G} (standings : list loc)
    (form_factor : list FormRecord) (home_away_stats : list HomeAwaySplit)
  : M G EloCalculator :=
  data ← load_all standings;
  match _initialize_elo_ratings data form_factor with
  | Some r => set_ratings r;; mret (mkElo form_factor home_away_stats)
  | None => lift (Raise KeyError)
  end.

Definition _extract_teams {G} (standings : list loc) : M G (list string) :=
  data ← load_all standings; mret (map team data).

(** [MonteCarloSimulator.__init__]. *)
Definition MonteCarloSimulator_init {G} (standings : list loc)
    (schedule : list Fixture) (elo_calculator : EloCalculator)
  : M G MonteCarloSimulator :=
  teams ← _extract_teams standings;
  mret (mkSim standings schedule elo_calculator teams).

(** [copy.deepcopy] of a list of dictionaries whose values are numbers and
    strings: a new dictionary per dictionary met for the first time; the
    [memo] maps the dictionaries already copied to their copies. *)
Fixpoint memo_lookup (memo : list (loc * loc)) (l : loc) : option loc :=
  match memo with
  | [] => None
  | (k, v) :: rest => if (k =? l)%nat then Some v else memo_lookup rest l
  end.

Fixpoint deepcopy {G} (memo : list (loc * loc)) (standings : list loc)
  : M G (list loc) :=
  match standings with
  | [] => mret []
  | l :: rest =>
      match memo_lookup memo l with
      | Some l' => rest' ← deepcopy memo rest; mret (l' :: rest')
      | None =>
          t ← load l;
          l' ← alloc t;
          rest' ← deepcopy ((l, l') :: memo) rest;
          mret (l' :: rest')
      end
  end.

Definition _clone_standings {G} (self : MonteCarloSimulator) : M G (list loc) :=
  deepcopy [] (self_standings self).

Definition winner_update (t : TeamStanding) (u : Q) : TeamStanding :=
  mkStanding (team t) (played t + 1) (wins t + 1) (losses t) (points t + 2)
    (round3 (nrr t + u)).

Definition loser_update (t : TeamStanding) (u : Q) : TeamStanding :=
  mkStanding (team t) (played t + 1) (wins t) (losses t + 1) (points t)
    (round3 (nrr t - u)).

(** The loop of [_update_standings] over the dictionaries of [standings]. *)
Fixpoint update_loop {G} `{!RandomSource G} (standings : list loc)
    (winner_id loser_id : string) : M G () :=
  match standings with
  | [] => mret ()
  | l :: rest =>
      t ← load l;
      (if String.eqb (team t) winner_id
       then u ← random_uniform (5 # 100) (15 # 100); store l (winner_update t u)
       else if String.eqb (team t) loser_id
       then u ← random_uniform (5 # 100) (15 # 100); store l (loser_update t u)
       else mret ());;
      update_loop rest winner_id loser_id
  end.

Definition _update_standings {G} `{!RandomSource G} (standings : list loc)
    (winner_id loser_id : string) : M G (list loc) :=
  update_loop standings winner_id loser_id;; mret standings.

Definition _get_playoff_teams {G} (standings : list loc) : M G (list string) :=
  data ← load_all standings;
  let sorted_teams := sorted_by_points_nrr data in
  mret (map team (take 4 sorted_teams)).

Definition simulate_match {G} `{!RandomSource G} (self : MonteCarloSimulator)
    (m : Fixture) (use_elo : bool) : M G string :=
  let home_team := homeTeam m in
  let away_team := awayTeam m in
  home_win_prob ←
    (if use_elo
     then r ← get_ratings;
          lift (calculate_win_probability_call r
                  (elo_home_away_stats (self_elo self)) home_team away_team)
     else mret 0.5%R);
  u ← random_random;
  mret (if Rlt_dec (Q2R u) home_win_prob then home_team else away_team).

(** ** simulator.py: [run_simulation] *)

(** [{team: 0 for team in self.teams}] and
    [{team: [0, 0, 0, 0, 0, 0, 0, 0, 0, 0] for team in self.teams}]. *)
Definition init_qualification_count (teams : list string) : gmap string Z :=
  foldl (fun d t => <[t := 0]> d) ∅ teams.

Definition init_position_counts (teams : list string) : gmap string (list Z) :=
  foldl (fun d t => <[t := [0; 0; 0; 0; 0; 0; 0; 0; 0; 0]]> d) ∅ teams.

(** The loop over [self.schedule] of one trial. *)
Fixpoint play_matches {G} `{!RandomSource G} (self : MonteCarloSimulator)
    (matches : list Fixture) (use_elo : bool) (sim_standings : list loc)
  : M G (list loc) :=
  match matches with
  | [] => mret sim_standings
  | m :: rest =>
      winner ← simulate_match self m use_elo;
      let loser := if String.eqb winner (homeTeam m) then awayTeam m else homeTeam m in
      sim_standings ← _update_standings sim_standings winner loser;
      play_matches self rest use_elo sim_standings
  end.

(** [for pos, team in enumerate(sorted_standings)], from position [pos] on.
    [position_counts[team_id][pos] += 1] raises [KeyError] for an unknown
    team and [IndexError] for a position the list does not have. *)
Fixpoint record_positions (pos : nat) (sorted_standings : list TeamStanding)
    (qualification_count : gmap string Z) (position_counts : gmap string (list Z))
  : Outcome (gmap string Z * gmap string (list Z)) :=
  match sorted_standings with
  | [] => Ok (qualification_count, position_counts)
  | t :: rest =>
      let team_id := team t in
      match position_counts !! team_id with
      | None => Raise KeyError
      | Some counts =>
          match counts !! pos with
          | None => Raise IndexError
          | Some c =>
              let position_counts :=
                <[team_id := <[pos := c + 1]> counts]> position_counts in
              if (pos <? 4)%nat
              then match qualification_count !! team_id with
                   | None => Raise KeyError
                   | Some q =>
                       record_positions (S pos) rest
                         (<[team_id := q + 1]> qualification_count) position_counts
                   end
              else record_positions (S pos) rest qualification_count position_counts
          end
      end
  end.

(** [n] trials: the body of [for i in range(iterations)]. *)
Fixpoint simulation_loop {G} `{!RandomSource G} (self : MonteCarloSimulator)
    (n : nat) (use_elo : bool)
    (qualification_count : gmap string Z) (position_counts : gmap string (list Z))
  : M G (gmap string Z * gmap string (list Z)) :=
  match n with
  | O => mret (qualification_count, position_counts)
  | S n' =>
      sim_standings ← _clone_standings self;
      sim_standings ← play_matches self (self_schedule self) use_elo sim_standings;
      (* sorted() reorders the references; nothing is written between the
         sort and the loop that reads the entries, so the records are read
         here *)
      data ← load_all sim_standings;
      let sorted_standings := sorted_by_points_nrr data in
      counts ← lift (record_positions 0 sorted_standings
                       qualification_count position_counts);
      simulation_loop self n' use_elo counts.1 counts.2
  end.

(** [x / iterations] of two integers. *)
Definition true_div (x iterations : Z) : Outcome Q :=
  if iterations =? 0 then Raise ZeroDivisionError
  else Ok (inject_Z x / inject_Z iterations)%Q.

Fixpoint div_all (counts : list Z) (iterations : Z) : Outcome (list Q) :=
  match counts with
  | [] => Ok []
  | c :: rest =>
      outcome_bind (true_div c iterations) (fun q =>
      outcome_bind (div_all rest iterations) (fun qs => Ok (q :: qs)))
  end.

(** The loop [for team in self.teams] that fills the two result
    dictionaries. *)
Fixpoint probabilities (teams : list string) (iterations : Z)
    (qualification_count : gmap string Z) (position_counts : gmap string (list Z))
    (result : SimulationResult) : Outcome SimulationResult :=
  match teams with
  | [] => Ok result
  | t :: rest =>
      match qualification_count !! t with
      | None => Raise KeyError
      | Some c =>
          outcome_bind (true_div c iterations) (fun q =>
          match position_counts !! t with
          | None => Raise KeyError
          | Some counts =>
              outcome_bind (div_all counts iterations) (fun qs =>
              probabilities rest iterations qualification_count position_counts
                (mkResult (<[t := q]> (qualification_probability result))
                          (<[t := qs]> (position_probability result))))
          end)
      end
  end.

Definition run_simulation {G} `{!RandomSource G} (self : MonteCarloSimulator)
    (iterations : Z) (use_elo : bool) : M G SimulationResult :=
  let qualification_count := init_qualification_count (self_teams self) in
  let position_counts := init_position_counts (self_teams self) in
  counts ← simulation_loop self (Z.to_nat iterations) use_elo
             qualification_count position_counts;
  lift (probabilities (self_teams self) iterations counts.1 counts.2
          (mkResult ∅ ∅)).

(** ** simulator.py: [calculate_path_to_playoffs] *)

(** [x[i], x[j] = x[j], x[i]]. *)
Definition swap {A} (x : list A) (i j : nat) : list A :=
  match x !! i, x !! j with
  | Some a, Some b => <[j := a]> (<[i := b]> x)
  | _, _ => x
  end.

(** [random.shuffle]: [for i in reversed(range(1, len(x)))], with
    [j = randbelow(i + 1)]. *)
Fixpoint shuffle_loop {G} `{!RandomSource G} {A} (i : nat) (x : list A)
  : M G (list A) :=
  match i with
  | O => mret x
  | S i' => j ← randbelow (S i); shuffle_loop i' (swap x i j)
  end.

Definition random_shuffle {G} `{!RandomSource G} {A} (x : list A) : M G (list A) :=
  shuffle_loop (length x - 1) x.

(** The matches the team is made to win. *)
Fixpoint forced_wins {G} `{!RandomSource G} (team_id : string)
    (matches : list Fixture) (sim_standings : list loc) : M G (list loc) :=
  match matches with
  | [] => mret sim_standings
  | m :: rest =>
      let winner := team_id in
      let loser := if String.eqb winner (homeTeam m) then awayTeam m else homeTeam m in
      sim_standings ← _update_standings sim_standings winner loser;
      forced_wins team_id rest sim_standings
  end.

(** The matches the team is made to lose. *)
Fixpoint forced_losses {G} `{!RandomSource G} (team_id : string)
    (matches : list Fixture) (sim_standings : list loc) : M G (list loc) :=
  match matches with
  | [] => mret sim_standings
  | m :: rest =>
      let loser := team_id in
      let winner := if String.eqb loser (homeTeam m) then awayTeam m else homeTeam m in
      sim_standings ← _update_standings sim_standings winner loser;
      forced_losses team_id rest sim_standings
  end.

(** [n] trials of [_simulate_with_fixed_wins]. *)
Fixpoint fixed_wins_loop {G} `{!RandomSource G} (self : MonteCarloSimulator)
    (team_id : string) (wins : nat) (remaining_matches : list Fixture)
    (n : nat) (qualification_count : Z) : M G Z :=
  match n with
  | O => mret qualification_count
  | S n' =>
      sim_standings ← _clone_standings self;
      remaining_matches_copy ← random_shuffle remaining_matches;
      sim_standings ← forced_wins team_id (take wins remaining_matches_copy) sim_standings;
      sim_standings ← forced_losses team_id (drop wins remaining_matches_copy) sim_standings;
      let other_matches :=
        filter (fun m => m ∉ remaining_matches) (self_schedule self) in
      sim_standings ← play_matches self other_matches true sim_standings;
      playoff_teams ← _get_playoff_teams sim_standings;
      fixed_wins_loop self team_id wins remaining_matches n'
        (if bool_decide (team_id ∈ playoff_teams)
         then qualification_count + 1 else qualification_count)
  end.

Definition _simulate_with_fixed_wins {G} `{!RandomSource G}
    (self : MonteCarloSimulator) (team_id : string) (wins : nat)
    (remaining_matches : list Fixture) (iterations : Z) : M G Q :=
  qualification_count ←
    fixed_wins_loop self team_id wins remaining_matches (Z.to_nat iterations) 0;
  lift (true_div qualification_count iterations).

(** The value of a win count in the result of [calculate_path_to_playoffs]. *)
Record PathEntry := mkEntry {
  potential_points : Z;
  entry_qualification_probability : Q
}.

(** The result of [calculate_path_to_playoffs]: the entries keyed by win
    count, and the two keys ["min_wins_needed"] and ["min_points_needed"],
    absent until the threshold is met. *)
Record PathResults := mkPath {
  path_entries : gmap Z PathEntry;
  min_wins_needed : option Z;
  min_points_needed : option Z
}.

(** [for wins in range(remaining_count + 1)], from [wins] on, with [todo]
    win counts left; the loop is left at the first probability of at
    least 0.9. *)
Fixpoint path_loop {G} `{!RandomSource G} (self : MonteCarloSimulator)
    (team_id : string) (remaining_matches : list Fixture) (current_points : Z)
    (iterations : Z) (todo wins : nat) (results : PathResults) : M G PathResults :=
  match todo with
  | O => mret results
  | S todo' =>
      let potential_points := current_points + Z.of_nat wins * 2 in
      qualification_prob ←
        _simulate_with_fixed_wins self team_id wins remaining_matches iterations;
      let results :=
        mkPath (<[Z.of_nat wins := mkEntry potential_points qualification_prob]>
                  (path_entries results))
               (min_wins_needed results) (min_points_needed results) in
      if Qle_bool (9 # 10) qualification_prob
      then mret (mkPath (path_entries results)
                   (Some (Z.of_nat wins)) (Some potential_points))
      else path_loop self team_id remaining_matches current_points iterations
             todo' (S wins) results
  end.

Definition calculate_path_to_playoffs {G} `{!RandomSource G}
    (self : MonteCarloSimulator) (team_id : string) (iterations : Z)
  : M G PathResults :=
  data ← load_all (self_standings self);
  match find_standing data team_id with
  | None => mret (mkPath {[ 0 := mkEntry 0 0 ]} None None)
  | Some team_standing =>
      let remaining_matches :=
        filter (fun m => homeTeam m = team_id ∨ awayTeam m = team_id)
          (self_schedule self) in
      let remaining_count := length remaining_matches in
      let current_points := points team_standing in
      path_loop self team_id remaining_matches current_points iterations
        (remaining_count + 1) 0 (mkPath ∅ None None)
  end.

(** ** The formulas of the specification *)

(** The contribution of one recent result, before its weight. *)
Definition result_value (result : string) : R :=
  if String.eqb result "W" then 10%R
  else if String.eqb result "L" then (-5)%R
  else 0%R.

(** The form bonus as the specification words it: the sum, over the
    results paired with the weights as far as both go, of the value of the
    result times its weight. *)
Definition form_bonus_spec (form : list string) : R :=
  foldr Rplus 0%R (zip_with (fun result w => result_value result * w)%R form weights).

(** The recent-form sequence of a team: that of its first record, empty
    when it has none. *)
Definition form_of (form_factor : list FormRecord) (team_id : string) : list string :=
  default [] (find_form form_factor team_id).

(** The initial rating as the specification words it, with a win percentage
    of 0 for a team that has played no match. *)
Definition claimed_initial_rating (form_factor : list FormRecord) (t : TeamStanding) : R :=
  let win_pct := if played t =? 0 then 0%R else (IZR (wins t) / IZR (played t))%R in
  (1500 + IZR (points t) * 15 + Q2R (nrr t) * 50
   + form_bonus_spec (form_of form_factor (team t)) + (win_pct - 0.5) * 100)%R.

(** The initial rating the code computes: the win-percentage term is left
    out for a team that has played no match. *)
Definition initial_rating (form_factor : list FormRecord) (t : TeamStanding) : R :=
  let win_term :=
    if 0 <? played t then ((IZR (wins t) / IZR (played t) - 0.5) * 100)%R else 0%R in
  (1500 + IZR (points t) * 15 + Q2R (nrr t) * 50
   + form_bonus_spec (form_of form_factor (team t)) + win_term)%R.

(** The home win rate of a team: that of its first record, 0.5 when it has
    none. *)
Fixpoint home_win_rate (home_away_stats : list HomeAwaySplit) (team_id : string) : R :=
  match home_away_stats with
  | [] => 0.5%R
  | s :: rest =>
      if String.eqb (split_teamId s) team_id then Q2R (homeWinRate s)
      else home_win_rate rest team_id
  end.

(** The rating of a team: 1500 when the mapping does not have it. *)
Definition rating_or_default (ratings : gmap string R) (team_id : string) : R :=
  match ratings !! team_id with
  | Some r => r
  | None => 1500%R
  end.

(** The win probability as the specification words it. *)
Definition logistic_win_probability (ratings : gmap string R)
    (home_away_stats : list HomeAwaySplit) (home_team away_team : string) : R :=
  let adjusted_home :=
    (rating_or_default ratings home_team
     + Rmax 30 ((home_win_rate home_away_stats home_team - 0.5) * 100))%R in
  (1 / (1 + Rpower 10 ((rating_or_default ratings away_team - adjusted_home) / 400)))%R.

(** The ranking relation of the tie-break sort: [a] may stand before [b]. *)
Definition ranks_before (a b : TeamStanding) : Prop := key_lt a b = false.

(** The number of entries of [l] that satisfy [f]. *)
Fixpoint count_where {A} (f : A -> bool) (l : list A) : nat :=
  match l with
  | [] => 0%nat
  | x :: l' => ((if f x then 1 else 0) + count_where f l')%nat
  end.

(** ** The simulator on values

    What the loops of the simulator compute, on the records themselves and
    with the state of the random source passed along; the lemmas below show
    that the code, run on dictionaries of the store, computes these. *)

Definition uniform_draw {G} `{!RandomSource G} (g : G) : Q * G :=
  let '(u, g') := rng_random g in
  (((5 # 100) + ((15 # 100) - (5 # 100)) * u)%Q, g').

Fixpoint update_vals {G} `{!RandomSource G} (cur : list TeamStanding)
    (winner_id loser_id : string) (g : G) : list TeamStanding * G :=
  match cur with
  | [] => ([], g)
  | t :: rest =>
      if String.eqb (team t) winner_id
      then let '(u, g1) := uniform_draw g in
           let '(rest', g2) := update_vals rest winner_id loser_id g1 in
           (winner_update t u :: rest', g2)
      else if String.eqb (team t) loser_id
      then let '(u, g1) := uniform_draw g in
           let '(rest', g2) := update_vals rest winner_id loser_id g1 in
           (loser_update t u :: rest', g2)
      else let '(rest', g2) := update_vals rest winner_id loser_id g in
           (t :: rest', g2)
  end.

Definition match_winner {G} `{!RandomSource G} (ratings : gmap string R)
    (home_away_stats : list HomeAwaySplit) (m : Fixture) (use_elo : bool) (g : G)
  : string * G :=
  let home_win_prob :=
    if use_elo
    then calculate_win_probability ratings home_away_stats (homeTeam m) (awayTeam m)
    else 0.5%R in
  let '(u, g') := rng_random g in
  (if Rlt_dec (Q2R u) home_win_prob then homeTeam m else awayTeam m, g').

Fixpoint play_vals {G} `{!RandomSource G} (ratings : gmap string R)
    (home_away_stats : list HomeAwaySplit) (matches : list Fixture) (use_elo : bool)
    (cur : list TeamStanding) (g : G) : list TeamStanding * G :=
  match matches with
  | [] => (cur, g)
  | m :: rest =>
      let '(winner, g1) := match_winner ratings home_away_stats m use_elo g in
      let loser := if String.eqb winner (homeTeam m) then awayTeam m else homeTeam m in
      let '(cur', g2) := update_vals cur winner loser g1 in
      play_vals ratings home_away_stats rest use_elo cur' g2
  end.

(** The ratings with which the matches can be simulated by the rating model
    without an [OverflowError]: with [use_elo], no away team of the matches
    is rated more than 120000 points above its home team.  The bound is
    well inside the range, so that no rounding of the code matters. *)
Definition rating_gaps_bounded (ratings : gmap string R) (use_elo : bool)
    (matches : list Fixture) : Prop :=
  use_elo = true ->
  Forall (fun m => (get_team_rating ratings (awayTeam m)
                    - get_team_rating ratings (homeTeam m) <= 120000)%R) matches.

(** A record of season data in the ordinary range: the wins are among the
    matches played, the points are between 0 and 1000, and the net run rate
    is between -100 and 100.  The ratings computed from such records are
    between -3565 and 21580. *)
Definition ordinary_standing (t : TeamStanding) : Prop :=
  0 <= wins t <= played t
  /\ 0 <= points t <= 1000
  /\ (-100 <= nrr t <= 100)%Q.

(** [self] is a simulator built on standings that hold the records [data]
    in the world [w]: its references are distinct dictionaries, as
    [json.load] makes them. *)
Definition simulator_of {G} (w : World G) (self : MonteCarloSimulator)
    (data : list TeamStanding) : Prop :=
  NoDup (self_standings self)
  /\ Forall2 (fun l t => heap w !! l = Some t) (self_standings self) data
  /\ self_teams self = map team data.

(** The count that a dictionary of position counts holds for a team at a
    position, 0 where it holds none. *)
Definition cell (position_counts : gmap string (list Z)) (team_id : string)
    (pos : nat) : Z :=
  match position_counts !! team_id with
  | Some counts => default 0 (counts !! pos)
  | None => 0
  end.

Definition sum_Z (l : list Z) : Z := foldr Z.add 0 l.

Definition sum_Q (l : list Q) : Q := foldr Qplus 0%Q l.

(** The total, over the teams [ids], of the counts at one position. *)
Definition position_total (position_counts : gmap string (list Z))
    (ids : list string) (pos : nat) : Z :=
  sum_Z (map (fun team_id => cell position_counts team_id pos) ids).

(** The current top four: the identifiers of the first four entries of the
    standings sorted by points, then net run rate. *)
Definition current_top4 (data : list TeamStanding) : list string :=
  map team (take 4 (sorted_by_points_nrr data)).

(** The count that a dictionary of qualification counts holds for a team,
    0 where it holds none. *)
Definition qcell (qualification_count : gmap string Z) (team_id : string) : Z :=
  default 0 (qualification_count !! team_id).

(** The total of the counts of one team over the ten positions. *)
Definition team_total (position_counts : gmap string (list Z)) (team_id : string) : Z :=
  sum_Z (map (cell position_counts team_id) (seq 0 10)).

(** The two dictionaries of counts have an entry for every team of [ids],
    and every list of position counts has its ten entries. *)
Definition counts_ok (ids : list string) (qualification_count : gmap string Z)
    (position_counts : gmap string (list Z)) : Prop :=
  forall team_id, team_id ∈ ids ->
    is_Some (qualification_count !! team_id)
    /\ exists counts, position_counts !! team_id = Some counts /\ length counts = 10%nat.

(** 1 when the entry of [ids] at position [pos - pos0] is [team_id], else 0. *)
Definition placed (ids : list string) (pos0 pos : nat) (team_id : string) : Z :=
  if bool_decide ((pos0 <= pos)%nat /\ ids !! (pos - pos0)%nat = Some team_id)
  then 1 else 0.

(** The number of occurrences of [team_id] in [ids]. *)
Definition occurrences (team_id : string) (ids : list string) : Z :=
  Z.of_nat (count_where (fun x => bool_decide (x = team_id)) ids).

(** The current cutoff of [calculate_expected_cutoff]: the points of the
    fourth entry of the sorted standings, 0 with fewer than four teams. *)
Definition current_cutoff_of (standings : list TeamStanding) : Z :=
  match sorted_by_points_nrr standings !! 3%nat with
  | Some t => points t
  | None => 0
  end.

(** The probability that [run_simulation] derives from a count. *)
Definition probability_of (count iterations : Z) : Q :=
  (inject_Z count / inject_Z iterations)%Q.

(** The counts after [k] trials over standings with the distinct teams
    [ids]: every position that a team takes has been counted [k] times over
    the teams, the positions beyond the league not at all, every team has
    been counted [k] times over the positions, and at most [k] times as
    qualified. *)
Definition tallied (ids : list string) (k : nat)
    (qualification_count : gmap string Z) (position_counts : gmap string (list Z))
  : Prop :=
  counts_ok ids qualification_count position_counts
  /\ (forall pos, (pos < length ids)%nat ->
        position_total position_counts ids pos = Z.of_nat k)
  /\ (forall pos, (length ids <= pos)%nat ->
        position_total position_counts ids pos = 0)
  /\ (forall team_id, team_id ∈ ids ->
        team_total position_counts team_id = Z.of_nat k)
  /\ (forall team_id, team_id ∈ ids ->
        0 <= qcell qualification_count team_id <= Z.of_nat k).

(** The counts after [k] trials in which the ranking was that of the
    current standings each time. *)
Definition tallied_current (data : list TeamStanding) (k : nat)
    (qualification_count : gmap string Z) (position_counts : gmap string (list Z))
  : Prop :=
  counts_ok (map team data) qualification_count position_counts
  /\ forall team_id,
       qcell qualification_count team_id
       = Z.of_nat k * occurrences team_id (current_top4 data).

(** ** Concrete inputs *)

(** A random source that draws 0 every time. *)
#[global] Instance zero_source : RandomSource () := {
  rng_random _ := (0%Q, ());
  rng_randbelow _ _ := (0%nat, ())
}.

Definition five_teams : list TeamStanding :=
  [mkStanding "MI" 10 7 3 14 (1 # 10); mkStanding "GT" 10 6 4 12 (4 # 10);
   mkStanding "CSK" 10 6 4 12 (3 # 10); mkStanding "RCB" 10 5 5 10 0;
   mkStanding "KKR" 10 4 6 9 (1 # 5)].

(** The world after the five records have been loaded, and a simulator on
    them with no match left to play. *)
Definition five_team_world : World () := mkWorld five_teams () ∅.

Definition five_team_simulator : MonteCarloSimulator :=
  mkSim [0; 1; 2; 3; 4]%nat [] (mkElo [] []) (map team five_teams).

Definition eleven_teams : list TeamStanding :=
  map (fun name => mkStanding name 0 0 0 0 0)
    ["T01"; "T02"; "T03"; "T04"; "T05"; "T06"; "T07"; "T08"; "T09"; "T10"; "T11"]%string.

Definition eleven_team_world : World () := mkWorld eleven_teams () ∅.

Definition eleven_team_simulator : MonteCarloSimulator :=
  mkSim (seq 0 11) [] (mkElo [] []) (map team eleven_teams).

(** ** What a call leaves untouched *)

(** From [w] to [w'] the dictionaries at the references below [base] and
    the rating mapping are unchanged, and no dictionary has disappeared. *)
Definition untouched {G} (base : nat) (w w' : World G) : Prop :=
  (forall l, (l < base)%nat -> heap w' !! l = heap w !! l)
  /\ (length (heap w) <= length (heap w'))%nat
  /\ ratings w' = ratings w.

(** The computation [m], run in a world that has the references below
    [base], leaves them and the rating mapping untouched, and a value it
    returns satisfies [P]. *)
Definition keeps {G A} (base : nat) (P : A -> Prop) (m : M G A) : Prop :=
  forall w, (base <= length (heap w))%nat ->
    untouched base w (m w).2 /\ forall a, (m w).1 = Ok a -> P a.

(** A simulator on the five teams with one match left, in which the team
    ranked fourth does not play. *)
Definition one_match_simulator : MonteCarloSimulator :=
  mkSim [0; 1; 2; 3; 4]%nat [mkFixture "KKR" "MI"] (mkElo [] []) (map team five_teams).

(** ** More of the rating model *)

(** What the second loop of [_initialize_elo_ratings] adds to the rating
    of a team for one entry of the standings. *)
Definition rating_adjustment (form_factor : list FormRecord) (t : TeamStanding) : R :=
  (initial_rating form_factor t - 1500)%R.

(** The adjustments of all the entries of the standings that carry the
    identifier [team_id]. *)
Fixpoint total_adjustment (form_factor : list FormRecord)
    (standings : list TeamStanding) (team_id : string) : R :=
  match standings with
  | [] => 0%R
  | t :: rest =>
      if String.eqb (team t) team_id
      then (rating_adjustment form_factor t
            + total_adjustment form_factor rest team_id)%R
      else total_adjustment form_factor rest team_id
  end.

Definition sum_R (l : list R) : R := foldr Rplus 0%R l.

(** ** More of the simulator *)

(** The references [refs] hold the records [data] in the world [w]. *)
Definition points_to {G} (w : World G) (refs : list loc) (data : list TeamStanding)
  : Prop :=
  Forall2 (fun l t => heap w !! l = Some t) refs data.

(** What [_update_standings] does to one entry: [t'] is the entry [t]
    after a match won by [winner_id] and lost by [loser_id]; the net run
    rate is left open. *)
Definition updated_entry (winner_id loser_id : string) (t t' : TeamStanding) : Prop :=
  team t' = team t
  /\ (team t = winner_id ->
      played t' = played t + 1 /\ wins t' = wins t + 1
      /\ losses t' = losses t /\ points t' = points t + 2)
  /\ (team t <> winner_id -> team t = loser_id ->
      played t' = played t + 1 /\ wins t' = wins t
      /\ losses t' = losses t + 1 /\ points t' = points t)
  /\ (team t <> winner_id -> team t <> loser_id -> t' = t).

(** The number of fixtures of the schedule in which a team plays. *)
Definition involved (schedule : list Fixture) (team_id : string) : Z :=
  Z.of_nat
    (count_where
       (fun m => bool_decide (homeTeam m = team_id \/ awayTeam m = team_id)) schedule).

(** How the entry [t'] at the end of a trial relates to the entry [t] it
    started from, after the fixtures [schedule]. *)
Definition trial_entry (schedule : list Fixture) (t t' : TeamStanding) : Prop :=
  team t' = team t
  /\ played t' = played t + involved schedule (team t)
  /\ (wins t' - wins t) + (losses t' - losses t) = involved schedule (team t)
  /\ points t' - points t = 2 * (wins t' - wins t)
  /\ wins t <= wins t' /\ losses t <= losses t'.

(** The counts in which the qualification count of every team is the
    total of its counts at the first four positions. *)
Definition qualified_is_top4 (ids : list string) (k : nat)
    (qualification_count : gmap string Z) (position_counts : gmap string (list Z))
  : Prop :=
  counts_ok ids qualification_count position_counts
  /\ forall team_id,
       qcell qualification_count team_id
       = sum_Z (map (cell position_counts team_id) (seq 0 4)).

(** The counts after [k] trials in which every team qualified. *)
Definition all_qualified (ids : list string) (k : nat)
    (qualification_count : gmap string Z) (position_counts : gmap string (list Z))
  : Prop :=
  counts_ok ids qualification_count position_counts
  /\ forall team_id, team_id ∈ ids -> qcell qualification_count team_id = Z.of_nat k.

Definition three_teams : list TeamStanding :=
  [mkStanding "MI" 10 7 3 14 (1 # 10); mkStanding "GT" 10 6 4 12 (4 # 10);
   mkStanding "CSK" 10 6 4 12 (3 # 10)].

Definition three_team_world : World () := mkWorld three_teams () ∅.

(** A simulator on three teams with two matches left. *)
Definition three_team_simulator : MonteCarloSimulator :=
  mkSim [0; 1; 2]%nat [mkFixture "GT" "MI"; mkFixture "CSK" "GT"] (mkElo [] [])
    (map team three_teams).

(** The loops of a trial of [_simulate_with_fixed_wins] on values. *)
Fixpoint shuffle_vals {G} `{!RandomSource G} {A} (i : nat) (x : list A) (g : G)
  : list A * G :=
  match i with
  | O => (x, g)
  | S i' => let '(j, g1) := rng_randbelow (S i) g in shuffle_vals i' (swap x i j) g1
  end.

Fixpoint forced_wins_vals {G} `{!RandomSource G} (team_id : string)
    (matches : list Fixture) (cur : list TeamStanding) (g : G)
  : list TeamStanding * G :=
  match matches with
  | [] => (cur, g)
  | m :: rest =>
      let winner := team_id in
      let loser := if String.eqb winner (homeTeam m) then awayTeam m else homeTeam m in
      let '(cur', g1) := update_vals cur winner loser g in
      forced_wins_vals team_id rest cur' g1
  end.

Fixpoint forced_losses_vals {G} `{!RandomSource G} (team_id : string)
    (matches : list Fixture) (cur : list TeamStanding) (g : G)
  : list TeamStanding * G :=
  match matches with
  | [] => (cur, g)
  | m :: rest =>
      let loser := team_id in
      let winner := if String.eqb loser (homeTeam m) then awayTeam m else homeTeam m in
      let '(cur', g1) := update_vals cur winner loser g in
      forced_losses_vals team_id rest cur' g1
  end.

(** The standings at the end of one trial of [_simulate_with_fixed_wins],
    and the state of the random source after it. *)
Definition fixed_wins_trial_vals {G} `{!RandomSource G} (self : MonteCarloSimulator)
    (team_id : string) (wins : nat) (remaining_matches : list Fixture)
    (ratings : gmap string R) (data : list TeamStanding) (g : G)
  : list TeamStanding * G :=
  let '(remaining_matches_copy, g1) :=
    shuffle_vals (length remaining_matches - 1) remaining_matches g in
  let '(cur1, g2) :=
    forced_wins_vals team_id (take wins remaining_matches_copy) data g1 in
  let '(cur2, g3) :=
    forced_losses_vals team_id (drop wins remaining_matches_copy) cur1 g2 in
  play_vals ratings (elo_home_away_stats (self_elo self))
    (filter (fun m => m ∉ remaining_matches) (self_schedule self)) true cur2 g3.

(** The probability that the result of [calculate_path_to_playoffs] holds
    for a win count. *)
Definition path_probability (results : PathResults) (wins : Z) : option Q :=
  entry_qualification_probability <$> path_entries results !! wins.

(** From [t] to [t'] an entry of the team [team_id] has won [won] matches
    and lost [lost]. *)
Definition team_gains (team_id : string) (won lost : Z) (t t' : TeamStanding) : Prop :=
  team t' = team t
  /\ (team t = team_id ->
      played t' = played t + won + lost
      /\ wins t' = wins t + won
      /\ losses t' = losses t + lost
      /\ points t' = points t + 2 * won).

(** ** More of analyzer.py *)

(** [x[1] < y[1]] on two items of the qualification probabilities. *)
Definition prob_lt (x y : string * Q) : bool :=
  match Qcompare (snd x) (snd y) with
  | Lt => true
  | _ => false
  end.

(** [sorted(items, key=lambda x: x[1], reverse=True)], stable as the sort
    of the standings is. *)
Fixpoint insert_by_probability (x : string * Q) (l : list (string * Q))
  : list (string * Q) :=
  match l with
  | [] => [x]
  | y :: l' => if prob_lt x y then y :: insert_by_probability x l' else x :: y :: l'
  end.

Fixpoint sort_by_probability (items : list (string * Q)) : list (string * Q) :=
  match items with
  | [] => []
  | x :: rest => insert_by_probability x (sort_by_probability rest)
  end.

(** [get_qualification_probabilities].  The items of the dictionary are
    taken through [map_to_list]; items of equal probability come out in
    the order of that traversal. *)
Definition get_qualification_probabilities (results : SimulationResult)
  : list (string * Q) :=
  sort_by_probability (map_to_list (qualification_probability results)).

(** The slice [l[:n]]: a negative [n] counts from the end. *)
Definition slice_to {A} (l : list A) (n : Z) : list A :=
  if 0 <=? n then take (Z.to_nat n) l
  else take (length l - Z.to_nat (- n)) l.

Definition get_top_n_likely_playoff_teams (results : SimulationResult) (n : Z)
  : list (string * Q) :=
  slice_to (get_qualification_probabilities results) n.

(** [get_team_position_distribution]: [None] is Python's [None]. *)
Definition get_team_position_distribution (results : SimulationResult)
    (team_id : string) : option (list Q) :=
  position_probability results !! team_id.

(** The chain of comparisons of [get_team_qualification_status]. *)
Definition status_of (prob : Q) : string :=
  if Qle_bool (99 # 100) prob then "Virtually Certain"
  else if Qle_bool (95 # 100) prob then "Very Likely"
  else if Qle_bool (75 # 100) prob then "Likely"
  else if Qle_bool (5 # 10) prob then "Toss-up"
  else if Qle_bool (25 # 100) prob then "Unlikely"
  else if Qle_bool (5 # 100) prob then "Very Unlikely"
  else "Virtually Eliminated".

Definition get_team_qualification_status (results : SimulationResult)
    (team_id : string) : string :=
  match qualification_probability results !! team_id with
  | None => "Unknown"
  | Some prob => status_of prob
  end.

(** The dictionary that [generate_qualification_scenarios] returns. *)
Record Scenario := mkScenario {
  scenario_team : string;
  scenario_current_points : Z;
  scenario_expected_cutoff : Z;
  points_needed : Z;
  wins_needed : Z;
  scenario_qualification_probability : Q
}.

(** [generate_qualification_scenarios]: [Ok None] is Python's [None].
    [calculate_expected_cutoff] never returns [None], so the fallback to 16
    is never taken. *)
Definition generate_qualification_scenarios (results : SimulationResult)
    (standings : list TeamStanding) (team_id : string) : Outcome (option Scenario) :=
  match find_standing standings team_id with
  | None => Ok None
  | Some team_standing =>
      let current_points := points team_standing in
      outcome_bind (calculate_expected_cutoff results standings)
        (fun expected_cutoff =>
           let points_needed := Z.max 0 (expected_cutoff - current_points) in
           let wins_needed := (points_needed + 1) / 2 in
           match qualification_probability results !! team_id with
           | None => Raise KeyError
           | Some prob =>
               Ok (Some (mkScenario team_id current_points expected_cutoff
                           points_needed wins_needed prob))
           end)
  end.

(** The dictionary that [generate_playoff_report] returns. *)
Record PlayoffReport := mkReport {
  report_qualification_probabilities : list (string * Q);
  report_current_cutoff : option Z;
  report_expected_cutoff : Z;
  report_team_scenarios : gmap string (option Scenario)
}.

(** The loop of [generate_playoff_report] over the teams of the
    qualification probabilities. *)
Fixpoint scenarios_loop (results : SimulationResult) (standings : list TeamStanding)
    (team_ids : list string) (team_scenarios : gmap string (option Scenario))
  : Outcome (gmap string (option Scenario)) :=
  match team_ids with
  | [] => Ok team_scenarios
  | team_id :: rest =>
      outcome_bind (generate_qualification_scenarios results standings team_id)
        (fun scenario =>
           scenarios_loop results standings rest (<[team_id := scenario]> team_scenarios))
  end.

Definition generate_playoff_report (results : SimulationResult)
    (standings : list TeamStanding) : Outcome PlayoffReport :=
  let qualification_probs := get_qualification_probabilities results in
  outcome_bind (find_current_playoff_cutoff standings) (fun current_cutoff =>
  outcome_bind (calculate_expected_cutoff results standings) (fun expected_cutoff =>
  outcome_bind
    (scenarios_loop results standings
       (map fst (map_to_list (qualification_probability results))) ∅)
    (fun team_scenarios =>
       Ok (mkReport qualification_probs current_cutoff expected_cutoff team_scenarios)))).

(** The rank of a status of [get_team_qualification_status], from
    "Virtually Eliminated" (0) to "Virtually Certain" (6). *)
Definition status_rank (status : string) : nat :=
  if String.eqb status "Virtually Certain" then 6
  else if String.eqb status "Very Likely" then 5
  else if String.eqb status "Likely" then 4
  else if String.eqb status "Toss-up" then 3
  else if String.eqb status "Unlikely" then 2
  else if String.eqb status "Very Unlikely" then 1
  else 0.

(** An item may stand before another in the list of the qualification
    probabilities. *)
Definition prob_before (x y : string * Q) : Prop := (snd y <= snd x)%Q.

(** A result over two of the five teams, each third in half of the trials
    and fourth in the other half. *)
Definition five_team_result : SimulationResult :=
  mkResult
    (<["CSK" := (1 # 2)%Q]> (<["RCB" := (1 # 2)%Q]> ∅))
    (<["CSK" := [0; 0; 1 # 2; 1 # 2; 0; 0; 0; 0; 0; 0]%Q]>
       (<["RCB" := [0; 0; 1 # 2; 1 # 2; 0; 0; 0; 0; 0; 0]%Q]> ∅)).

(** ** main.py *)

(** Steps 2 to 5 of [run_playoffs_prediction], on data that is already
    loaded: the rating model and the simulator are built on the standings,
    the simulation is run with the rating model, and the analyzer, which
    holds the same list of standings, makes the report.  What the function
    prints and the file it writes are left out. *)
Definition run_playoffs_prediction {G} `{!RandomSource G} (standings : list loc)
    (schedule : list Fixture) (form_factor : list FormRecord)
    (home_away_stats : list HomeAwaySplit) (iterations : Z)
  : M G (SimulationResult * PlayoffReport) :=
  elo_calculator ← EloCalculator_init standings form_factor home_away_stats;
  simulator ← MonteCarloSimulator_init standings schedule elo_calculator;
  simulation_results ← run_simulation simulator iterations true;
  data ← load_all standings;
  playoff_report ← lift (generate_playoff_report simulation_results data);
  mret (simulation_results, playoff_report).

(** * Proofs *)

(** ** Rating model *)

Lemma form_bonus_loop_spec form ws acc :
  form_bonus_loop form ws acc
  = (acc + foldr Rplus 0 (zip_with (fun result w => result_value result * w) form ws))%R.
Proof.
  revert ws acc. induction form as [|result form IH]; intros [|w ws] acc; simpl;
    try lra.
  rewrite IH.
  generalize (foldr Rplus 0%R
                (zip_with (fun result w => result_value result * w)%R form ws)).
  intros s. unfold result_value.
  destruct (String.eqb result "W"); [lra|].
  destruct (String.eqb result "L"); lra.
Qed.

Lemma calculate_form_bonus_spec form_factor team_id :
  _calculate_form_bonus form_factor team_id = form_bonus_spec (form_of form_factor team_id).
Proof.
  unfold _calculate_form_bonus, form_of, form_bonus_spec.
  destruct (find_form form_factor team_id) as [[|result form]|];
    [reflexivity| |reflexivity].
  rewrite form_bonus_loop_spec. cbn [default]. apply Rplus_0_l.
Qed.

Lemma adjust_rating_spec form_factor t (ratings : gmap string R) r :
  ratings !! team t = Some r ->
  exists r', adjust_rating form_factor t ratings = Some (<[team t := r']> ratings)
             /\ r' = (r + (initial_rating form_factor t - 1500))%R.
Proof.
  intros Hr. unfold adjust_rating, dict_iadd. rewrite Hr. cbn [mbind option_bind].
  rewrite lookup_insert_eq. cbn [mbind option_bind].
  rewrite lookup_insert_eq. cbn [mbind option_bind].
  rewrite !insert_insert_eq, calculate_form_bonus_spec.
  unfold initial_rating. destruct (0 <? played t).
  - rewrite lookup_insert_eq, insert_insert_eq. eexists. split; [reflexivity|]. lra.
  - eexists. split; [reflexivity|]. lra.
Qed.

Lemma adjust_ratings_spec form_factor standings :
  forall ratings : gmap string R,
    NoDup (map team standings) ->
    (forall t, t ∈ standings -> is_Some (ratings !! team t)) ->
    exists ratings',
      adjust_ratings form_factor standings ratings = Some ratings'
      /\ (forall t r, t ∈ standings -> ratings !! team t = Some r ->
            exists r', ratings' !! team t = Some r'
                       /\ r' = (r + (initial_rating form_factor t - 1500))%R)
      /\ (forall k, k ∉ map team standings -> ratings' !! k = ratings !! k).
Proof.
  induction standings as [|t rest IH]; intros ratings Hnd Hdom.
  - exists ratings. split; [reflexivity|]. split; [|reflexivity].
    intros t r Ht. inversion Ht.
  - cbn [map] in Hnd. apply NoDup_cons in Hnd as [Hfresh Hnd].
    destruct (Hdom t) as [r Hr]; [left|].
    destruct (adjust_rating_spec form_factor t ratings r Hr) as (r' & Hadj & Hr').
    cbn [adjust_ratings]. rewrite Hadj. cbn [mbind option_bind].
    destruct (IH (<[team t := r']> ratings) Hnd) as (ratings' & Hrun & Hin & Hout).
    { intros u Hu. destruct (decide (team t = team u)) as [->|Hne].
      - rewrite lookup_insert_eq. eauto.
      - rewrite lookup_insert_ne by done. apply Hdom. by right. }
    exists ratings'. split; [exact Hrun|]. split.
    + intros u ru Hu Hru. apply elem_of_cons in Hu as [->|Hu].
      * rewrite Hout by exact Hfresh. rewrite lookup_insert_eq.
        exists r'. split; [reflexivity|]. congruence.
      * apply Hin; [exact Hu|]. rewrite lookup_insert_ne; [exact Hru|].
        intros Heq. apply Hfresh. rewrite Heq. apply list_elem_of_fmap_2. exact Hu.
    + intros k Hk. cbn [map] in Hk. apply not_elem_of_cons in Hk as [Hk1 Hk2].
      rewrite Hout by exact Hk2. by rewrite lookup_insert_ne.
Qed.

Lemma initialize_elo_ratings_spec standings form_factor :
  NoDup (map team standings) ->
  exists ratings,
    _initialize_elo_ratings standings form_factor = Some ratings
    /\ forall t, t ∈ standings ->
         exists r, ratings !! team t = Some r /\ r = initial_rating form_factor t.
Proof.
  intros Hnd. unfold _initialize_elo_ratings.
  assert (Hbase : forall t, t ∈ standings ->
            (gset_to_gmap 1500%R (list_to_set (map team standings) : gset string)
             : gmap string R) !! team t = Some 1500%R).
  { intros t Ht. apply lookup_gset_to_gmap_Some. split; [|reflexivity].
    apply elem_of_list_to_set. apply list_elem_of_fmap_2. exact Ht. }
  destruct (adjust_ratings_spec form_factor standings
              (gset_to_gmap 1500%R (list_to_set (map team standings) : gset string)) Hnd)
    as (ratings & Hrun & Hin & _).
  { intros t Ht. rewrite Hbase by exact Ht. eauto. }
  exists ratings. split; [exact Hrun|].
  intros t Ht. destruct (Hin t _ Ht (Hbase t Ht)) as (r & Hr & Heq).
  exists r. split; [exact Hr|]. lra.
Qed.

(** C4 (as amended): for standings with distinct team identifiers, the
    rating computed for a team of the standings is
    1500 + points*15 + nrr*50 + formBonus + winTerm, where formBonus is the
    weighted sum over the team's recent form (weights 1, 0.8, 0.6, 0.4, 0.2
    as far as the sequence goes; +10 for a win, -5 for a loss, 0 otherwise)
    and winTerm is (wins/played - 0.5)*100 when the team has played a match
    and 0 when it has played none. *)
Theorem initial_rating_formula standings form_factor t :
  NoDup (map team standings) ->
  t ∈ standings ->
  exists ratings r,
    _initialize_elo_ratings standings form_factor = Some ratings
    /\ ratings !! team t = Some r
    /\ r = (1500 + IZR (points t) * 15 + Q2R (nrr t) * 50
            + form_bonus_spec (form_of form_factor (team t))
            + (if 0 <? played t
               then (IZR (wins t) / IZR (played t) - 0.5) * 100 else 0))%R.
Proof.
  intros Hnd Ht.
  destruct (initialize_elo_ratings_spec standings form_factor Hnd) as (ratings & Hinit & Hall).
  destruct (Hall t Ht) as (r & Hr & Heq).
  exists ratings, r. split; [exact Hinit|]. split; [exact Hr|].
  rewrite Heq. unfold initial_rating. destruct (0 <? played t); reflexivity.
Qed.

Lemma initial_rating_formula_witness :
  exists ratings r,
    _initialize_elo_ratings [mkStanding "CSK" 10 6 4 12 (3 # 10)]
      [mkForm "CSK" ["W"; "L"; "N"]%string] = Some ratings
    /\ ratings !! "CSK"%string = Some r
    /\ r = (1500 + 12 * 15 + Q2R (3 # 10) * 50
            + form_bonus_spec ["W"; "L"; "N"]%string + (6 / 10 - 0.5) * 100)%R.
Proof.
  apply (initial_rating_formula [mkStanding "CSK" 10 6 4 12 (3 # 10)]
           [mkForm "CSK" ["W"; "L"; "N"]%string] (mkStanding "CSK" 10 6 4 12 (3 # 10))).
  - repeat constructor. intros H. inversion H.
  - left.
Defined.

(** C4, as stated, fails for a team that has played no match: the claim
    takes its win percentage as 0, which lowers the rating by 50, and the
    code leaves the rating at 1500. *)
Lemma initial_rating_unplayed_counterexample :
  let t := mkStanding "CSK" 0 0 0 0 0 in
  exists ratings r,
    _initialize_elo_ratings [t] [] = Some ratings
    /\ ratings !! "CSK"%string = Some r
    /\ r = 1500%R
    /\ claimed_initial_rating [] t = 1450%R
    /\ r <> claimed_initial_rating [] t.
Proof.
  intros t.
  destruct (initialize_elo_ratings_spec [t] []) as (ratings & Hinit & Hall).
  { repeat constructor. intros H. inversion H. }
  destruct (Hall t) as (r & Hr & Heq); [left|].
  assert (Hcode : r = 1500%R).
  { rewrite Heq. unfold initial_rating, form_bonus_spec, form_of, t. simpl.
    unfold Q2R. simpl. lra. }
  assert (Hclaim : claimed_initial_rating [] t = 1450%R).
  { unfold claimed_initial_rating, form_bonus_spec, form_of, t. simpl.
    unfold Q2R. simpl. lra. }
  exists ratings, r. repeat split; [exact Hinit|exact Hr|exact Hcode|exact Hclaim|].
  rewrite Hcode, Hclaim. lra.
Qed.

Lemma find_home_advantage_spec home_away_stats home_team :
  find_home_advantage home_away_stats home_team
  = ((home_win_rate home_away_stats home_team - 0.5) * 100)%R.
Proof.
  induction home_away_stats as [|s rest IH]; simpl.
  - lra.
  - destruct (String.eqb (split_teamId s) home_team); [reflexivity|exact IH].
Qed.

Lemma get_team_rating_default ratings team_id :
  get_team_rating ratings team_id = rating_or_default ratings team_id.
Proof.
  unfold get_team_rating, rating_or_default.
  destruct (ratings !! team_id); reflexivity.
Qed.

Lemma calculate_win_probability_logistic ratings home_away_stats home_team away_team :
  calculate_win_probability ratings home_away_stats home_team away_team
  = logistic_win_probability ratings home_away_stats home_team away_team.
Proof.
  unfold calculate_win_probability, logistic_win_probability.
  rewrite !get_team_rating_default, find_home_advantage_spec. reflexivity.
Qed.

Lemma Rpower_pos (x y : R) : (0 < Rpower x y)%R.
Proof. unfold Rpower. apply exp_pos. Qed.

Lemma logistic_bounds (e : R) : (0 < e -> 0 < 1 / (1 + e) < 1)%R.
Proof.
  intros He. assert (H1 : (0 < 1 + e)%R) by lra.
  unfold Rdiv. rewrite Rmult_1_l. split.
  - apply Rinv_0_lt_compat. exact H1.
  - rewrite <- Rinv_1 at 2. apply Rinv_lt_contravar; lra.
Qed.

Lemma calculate_win_probability_bounds ratings home_away_stats home_team away_team :
  (0 < calculate_win_probability ratings home_away_stats home_team away_team < 1)%R.
Proof. unfold calculate_win_probability. apply logistic_bounds, Rpower_pos. Qed.

Lemma logistic_above_half (e : R) : (0 < e < 1 -> 1 / (1 + e) > 0.5)%R.
Proof.
  intros [He0 He1]. unfold Rdiv. rewrite Rmult_1_l.
  replace 0.5%R with (/ 2)%R by lra.
  apply Rinv_lt_contravar; lra.
Qed.

(** ** The range of [10 ** x] *)

Lemma Rpower_10_nat (n : nat) : Rpower 10 (INR n) = IZR (10 ^ Z.of_nat n).
Proof. rewrite Rpower_pow by lra. rewrite pow_IZR. reflexivity. Qed.

Lemma Rpower_10_mono x y : (x <= y)%R -> (Rpower 10 x <= Rpower 10 y)%R.
Proof. intros H. apply Rle_Rpower; [lra|exact H]. Qed.

Lemma pow_in_range x : (x <= 300)%R -> ~ pow_overflows x.
Proof.
  intros Hx Hover. unfold pow_overflows, float_range in Hover.
  pose proof (Rpower_10_mono x (INR 300)) as Hmono.
  rewrite Rpower_10_nat in Hmono.
  assert (H300 : INR 300 = 300%R) by (rewrite INR_IZR_INZ; reflexivity).
  rewrite H300 in Hmono. specialize (Hmono Hx).
  assert (Hlt : (IZR (10 ^ Z.of_nat 300) < IZR (2 ^ 1024))%R)
    by (apply IZR_lt; reflexivity).
  lra.
Qed.

Lemma pow_out_of_range x : (309 <= x)%R -> pow_overflows x.
Proof.
  intros Hx. unfold pow_overflows, float_range.
  pose proof (Rpower_10_mono (INR 309) x) as Hmono.
  rewrite Rpower_10_nat in Hmono.
  assert (H309 : INR 309 = 309%R) by (rewrite INR_IZR_INZ; reflexivity).
  rewrite H309 in Hmono. specialize (Hmono Hx).
  assert (Hle : (IZR (2 ^ 1024) <= IZR (10 ^ Z.of_nat 309))%R)
    by (apply IZR_le; vm_compute; discriminate).
  lra.
Qed.

Lemma gap_in_range ratings home_away_stats home_team away_team :
  (get_team_rating ratings away_team - get_team_rating ratings home_team <= 120000)%R ->
  ~ pow_overflows (win_probability_exponent ratings home_away_stats home_team away_team).
Proof.
  intros Hgap. apply pow_in_range. unfold win_probability_exponent.
  pose proof (Rmax_l 30 (find_home_advantage home_away_stats home_team)). lra.
Qed.

Lemma calculate_win_probability_call_returns ratings home_away_stats home_team away_team :
  (get_team_rating ratings away_team - get_team_rating ratings home_team <= 120000)%R ->
  calculate_win_probability_call ratings home_away_stats home_team away_team
  = Ok (calculate_win_probability ratings home_away_stats home_team away_team).
Proof.
  intros Hgap. unfold calculate_win_probability_call.
  destruct (Rle_dec _ _) as [Hover|_]; [|reflexivity].
  exfalso. exact (gap_in_range _ _ _ _ Hgap Hover).
Qed.

(** C5, as stated, fails for an away team rated far above the home team:
    with the ratings 1500 and 151500 the power [10 ** x] is out of the
    range of the floating-point numbers, and the call raises
    [OverflowError] instead of returning a probability. *)
Lemma calculate_win_probability_overflow_counterexample :
  calculate_win_probability_call (<["MI" := 151500%R]> ∅) [] "CSK" "MI"
  = Raise OverflowError
  /\ ~ (exists p,
          calculate_win_probability_call (<["MI" := 151500%R]> ∅) [] "CSK" "MI" = Ok p
          /\ (0 < p < 1)%R).
Proof.
  assert (Hraise : calculate_win_probability_call (<["MI" := 151500%R]> ∅) [] "CSK" "MI"
                   = Raise OverflowError).
  { unfold calculate_win_probability_call.
    destruct (Rle_dec _ _) as [_|Hn]; [reflexivity|].
    exfalso. apply Hn. apply pow_out_of_range. unfold win_probability_exponent.
    assert (Haway : get_team_rating (<["MI" := 151500%R]> ∅) "MI" = 151500%R)
      by (unfold get_team_rating; rewrite lookup_insert_eq; reflexivity).
    assert (Hhome : get_team_rating (<["MI" := 151500%R]> ∅) "CSK" = 1500%R)
      by (unfold get_team_rating; rewrite lookup_insert_ne by discriminate;
          rewrite lookup_empty; reflexivity).
    rewrite Haway, Hhome. cbn [find_home_advantage]. rewrite Rmax_left by lra. lra. }
  split; [exact Hraise|].
  intros (p & Hp & _). rewrite Hraise in Hp. discriminate Hp.
Qed.

(** C5 (as amended): when the away team is rated at most 120000 points
    above the home team, the call returns the logistic formula
    1 / (1 + 10^((ratingAway - adjustedHome)/400)), with
    adjustedHome = ratingHome + max(30, (homeWinRate - 0.5)*100), a home win
    rate of 0.5 for a team without a record and a rating of 1500 for a team
    without a rating; the result is above 0 and at most 1; it is below 1
    when the adjusted home rating is at most 4000 points above the away
    rating; and for two teams of equal rating, of magnitude at most 10^6,
    and a home win rate of 0.5 it is above 0.5.  The bounds are those
    within which the rounding of the code does not change the
    comparisons. *)
Theorem calculate_win_probability_spec ratings home_away_stats home_team away_team :
  (rating_or_default ratings away_team - rating_or_default ratings home_team
   <= 120000)%R ->
  exists p,
    calculate_win_probability_call ratings home_away_stats home_team away_team = Ok p
    /\ p = logistic_win_probability ratings home_away_stats home_team away_team
    /\ (0 < p <= 1)%R
    /\ ((rating_or_default ratings home_team
         + Rmax 30 ((home_win_rate home_away_stats home_team - 0.5) * 100)
         - rating_or_default ratings away_team <= 4000)%R ->
        (p < 1)%R)
    /\ (rating_or_default ratings home_team = rating_or_default ratings away_team ->
        (Rabs (rating_or_default ratings home_team) <= 1000000)%R ->
        home_win_rate home_away_stats home_team = 0.5%R ->
        (p > 0.5)%R).
Proof.
  intros Hgap. rewrite <- !get_team_rating_default in Hgap.
  exists (calculate_win_probability ratings home_away_stats home_team away_team).
  split; [apply calculate_win_probability_call_returns, Hgap|].
  split; [apply calculate_win_probability_logistic|].
  pose proof (calculate_win_probability_bounds ratings home_away_stats home_team
                away_team) as [H0 H1].
  split; [lra|]. split; [intros _; exact H1|].
  intros Hsame _ Hrate.
  rewrite calculate_win_probability_logistic. unfold logistic_win_probability.
  rewrite Hsame, Hrate.
  apply logistic_above_half. split; [apply Rpower_pos|].
  rewrite <- (Rpower_O 10) by lra.
  apply Rpower_lt; [lra|].
  replace ((0.5 - 0.5) * 100)%R with 0%R by lra.
  rewrite Rmax_left by lra. lra.
Qed.

Lemma calculate_win_probability_spec_witness :
  exists p,
    calculate_win_probability_call (<["MI" := 1600%R]> (<["CSK" := 1600%R]> ∅))
      [mkSplit "CSK" (1 # 2) (1 # 2)] "CSK" "MI" = Ok p
    /\ (0.5 < p < 1)%R.
Proof.
  assert (Hhome : rating_or_default (<["MI" := 1600%R]> (<["CSK" := 1600%R]> ∅)) "CSK"
                  = 1600%R).
  { unfold rating_or_default. rewrite lookup_insert_ne by discriminate.
    rewrite lookup_insert_eq. reflexivity. }
  assert (Haway : rating_or_default (<["MI" := 1600%R]> (<["CSK" := 1600%R]> ∅)) "MI"
                  = 1600%R).
  { unfold rating_or_default. rewrite lookup_insert_eq. reflexivity. }
  assert (Hrate : home_win_rate [mkSplit "CSK" (1 # 2) (1 # 2)] "CSK" = 0.5%R).
  { simpl. unfold Q2R. simpl. lra. }
  destruct (calculate_win_probability_spec (<["MI" := 1600%R]> (<["CSK" := 1600%R]> ∅))
              [mkSplit "CSK" (1 # 2) (1 # 2)] "CSK" "MI")
    as (p & Hcall & _ & _ & Hlt & Hhalf).
  - rewrite Hhome, Haway. lra.
  - exists p. split; [exact Hcall|]. split.
    + apply Hhalf; [congruence| |exact Hrate].
      rewrite Hhome, Rabs_pos_eq by lra. lra.
    + apply Hlt. rewrite Hhome, Haway, Hrate. rewrite Rmax_left by lra. lra.
Defined.

(** ** The tie-break sort *)

Lemma key_lt_true a b :
  key_lt a b = true <->
  points a < points b \/ (points a = points b /\ (nrr a < nrr b)%Q).
Proof.
  unfold key_lt. destruct (Z.eqb_spec (points a) (points b)) as [Heq|Hne].
  - destruct (Qcompare_spec (nrr a) (nrr b)) as [H|H|H]; split; try discriminate;
      try (intros _; right; split; assumption); try reflexivity.
    + intros [Hlt|[_ Hlt]]; [lia|]. rewrite H in Hlt. exfalso. exact (Qlt_irrefl _ Hlt).
    + intros [Hlt|[_ Hlt]]; [lia|]. exfalso. exact (Qlt_irrefl _ (Qlt_trans _ _ _ H Hlt)).
  - rewrite Z.ltb_lt. split; [intros H; left; exact H|].
    intros [H|[H _]]; [exact H|contradiction].
Qed.

Lemma key_lt_false a b :
  key_lt a b = false <->
  points b < points a \/ (points a = points b /\ (nrr b <= nrr a)%Q).
Proof.
  rewrite <- not_true_iff_false, key_lt_true. split.
  - intros Hn. destruct (Z.lt_trichotomy (points a) (points b)) as [H|[H|H]].
    + exfalso. apply Hn. left. exact H.
    + right. split; [exact H|]. apply Qnot_lt_le. intros Hlt. apply Hn. right. split; assumption.
    + left. exact H.
  - intros [H|[H1 H2]] [H'|[H1' H2']]; try lia.
    exact (Qlt_irrefl _ (Qlt_le_trans _ _ _ H2' H2)).
Qed.

Lemma key_lt_irrefl a : key_lt a a = false.
Proof. apply key_lt_false. right. split; [reflexivity|apply Qle_refl]. Qed.

Lemma key_lt_asym a b : key_lt a b = true -> key_lt b a = false.
Proof.
  rewrite key_lt_true, key_lt_false. intros [H|[H1 H2]]; [left; exact H|].
  right. split; [symmetry; exact H1|apply Qlt_le_weak; exact H2].
Qed.

Lemma ranks_before_trans a b c :
  ranks_before a b -> ranks_before b c -> ranks_before a c.
Proof.
  unfold ranks_before. rewrite !key_lt_false.
  intros [H|[H1 H2]] [H'|[H1' H2']]; try (left; lia).
  right. split; [congruence|]. exact (Qle_trans _ _ _ H2' H2).
Qed.

(** A key strictly below one that is not below a third is strictly below
    the third. *)
Lemma key_lt_ranks_before a b c :
  key_lt a b = true -> ranks_before c b -> key_lt a c = true.
Proof.
  unfold ranks_before. rewrite !key_lt_true, key_lt_false.
  intros [H|[H1 H2]] [H'|[H1' H2']]; try (left; lia).
  right. split; [congruence|]. exact (Qlt_le_trans _ _ _ H2 H2').
Qed.

(** Entries neither of which is below the other have the same points. *)
Lemma ranks_before_antisym_points a b :
  ranks_before a b -> ranks_before b a -> points a = points b.
Proof.
  unfold ranks_before. rewrite !key_lt_false. intros [H|[H _]] [H'|[H' _]]; lia.
Qed.

Lemma insert_ranked_perm t l : Permutation (insert_ranked t l) (t :: l).
Proof.
  induction l as [|u l IH]; simpl; [reflexivity|].
  destruct (key_lt t u); [|reflexivity].
  rewrite IH. apply perm_swap.
Qed.

Lemma sorted_by_points_nrr_perm standings :
  Permutation standings (sorted_by_points_nrr standings).
Proof.
  induction standings as [|t rest IH]; simpl; [reflexivity|].
  rewrite insert_ranked_perm. apply perm_skip. exact IH.
Qed.

Lemma sorted_by_points_nrr_length standings :
  length (sorted_by_points_nrr standings) = length standings.
Proof. symmetry. apply Permutation_length, sorted_by_points_nrr_perm. Qed.

Lemma insert_ranked_sorted t l :
  StronglySorted ranks_before l -> StronglySorted ranks_before (insert_ranked t l).
Proof.
  induction 1 as [|u l Hl IH Hu]; simpl.
  - repeat constructor.
  - destruct (key_lt t u) eqn:Hlt.
    + constructor; [exact IH|].
      rewrite insert_ranked_perm. constructor; [|exact Hu].
      apply key_lt_asym. exact Hlt.
    + constructor; [constructor; assumption|].
      constructor; [exact Hlt|].
      eapply Forall_impl; [exact Hu|].
      intros x Hx. eapply ranks_before_trans; [exact Hlt|exact Hx].
Qed.

Lemma sorted_by_points_nrr_sorted standings :
  StronglySorted ranks_before (sorted_by_points_nrr standings).
Proof.
  induction standings as [|t rest IH]; simpl; [constructor|].
  apply insert_ranked_sorted. exact IH.
Qed.

Lemma count_where_perm {A} (f : A -> bool) l l' :
  Permutation l l' -> count_where f l = count_where f l'.
Proof. induction 1; simpl; lia. Qed.

Lemma count_where_le {A} (f g : A -> bool) l :
  (forall x, f x = true -> g x = true) -> (count_where f l <= count_where g l)%nat.
Proof.
  intros Hfg. induction l as [|x l IH]; simpl; [lia|].
  specialize (Hfg x). destruct (f x), (g x); lia.
Qed.

(** In a ranking, the entries strictly above the one at position [i] all
    stand before it. *)
Lemma ranked_above_count l :
  StronglySorted ranks_before l ->
  forall i x, l !! i = Some x -> (count_where (key_lt x) l <= i)%nat.
Proof.
  induction 1 as [|a l Hl IH Ha]; intros i x Hx; [discriminate|].
  destruct i as [|i]; simpl in Hx.
  - injection Hx as <-. simpl. rewrite key_lt_irrefl.
    assert (count_where (key_lt a) l = 0)%nat; [|lia].
    clear IH Hl. induction l as [|u l IHl]; [reflexivity|].
    apply Forall_cons in Ha as [Hu Ha]. simpl. rewrite Hu. simpl. apply IHl, Ha.
  - specialize (IH i x Hx). simpl. destruct (key_lt x a); lia.
Qed.

(** In a ranking, the entries up to position [i] are all at least the one
    at position [i]. *)
Lemma ranked_at_least_count l :
  StronglySorted ranks_before l ->
  forall i x, l !! i = Some x ->
    (i + 1 <= count_where (fun u => negb (key_lt u x)) l)%nat.
Proof.
  induction 1 as [|a l Hl IH Ha]; intros i x Hx; [discriminate|].
  destruct i as [|i]; simpl in Hx.
  - injection Hx as <-. simpl. rewrite key_lt_irrefl. simpl. lia.
  - specialize (IH i x Hx). simpl.
    rewrite Forall_forall in Ha. rewrite (Ha x); [simpl; lia|].
    eapply list_elem_of_lookup_2. exact Hx.
Qed.

(** Two rankings of the same entries have entries of the same rank at
    every position. *)
Lemma rankings_agree l1 l2 i x y :
  Permutation l1 l2 ->
  StronglySorted ranks_before l1 -> StronglySorted ranks_before l2 ->
  l1 !! i = Some x -> l2 !! i = Some y ->
  ranks_before x y.
Proof.
  intros Hperm Hs1 Hs2 Hx Hy. unfold ranks_before.
  destruct (key_lt x y) eqn:Hlt; [exfalso|reflexivity].
  pose proof (ranked_above_count l1 Hs1 i x Hx) as Habove.
  pose proof (ranked_at_least_count l2 Hs2 i y Hy) as Hatleast.
  rewrite <- (count_where_perm _ _ _ Hperm) in Hatleast.
  pose proof (count_where_le (fun u => negb (key_lt u y)) (key_lt x) l1) as Hle.
  assert (count_where (fun u => negb (key_lt u y)) l1 <= count_where (key_lt x) l1)%nat;
    [|lia].
  apply Hle. intros u Hu. apply negb_true_iff in Hu.
  eapply key_lt_ranks_before; [exact Hlt|exact Hu].
Qed.

Lemma rankings_agree_points l1 l2 i x y :
  Permutation l1 l2 ->
  StronglySorted ranks_before l1 -> StronglySorted ranks_before l2 ->
  l1 !! i = Some x -> l2 !! i = Some y ->
  points x = points y.
Proof.
  intros Hperm Hs1 Hs2 Hx Hy. apply ranks_before_antisym_points.
  - exact (rankings_agree l1 l2 i x y Hperm Hs1 Hs2 Hx Hy).
  - symmetry in Hperm. exact (rankings_agree l2 l1 i y x Hperm Hs2 Hs1 Hy Hx).
Qed.

(** ** Analyzer *)

Lemma find_current_playoff_cutoff_short standings :
  (length standings < 4)%nat -> find_current_playoff_cutoff standings = Ok None.
Proof.
  intros Hlen. unfold find_current_playoff_cutoff.
  rewrite sorted_by_points_nrr_length.
  destruct (Nat.leb_spec 4 (length standings)); [lia|reflexivity].
Qed.

Lemma find_current_playoff_cutoff_fourth standings :
  (4 <= length standings)%nat ->
  exists t, sorted_by_points_nrr standings !! 3%nat = Some t
            /\ find_current_playoff_cutoff standings = Ok (Some (points t)).
Proof.
  intros Hlen. unfold find_current_playoff_cutoff.
  rewrite sorted_by_points_nrr_length.
  destruct (Nat.leb_spec 4 (length standings)); [|lia].
  destruct (sorted_by_points_nrr standings !! 3%nat) as [t|] eqn:Ht.
  - exists t. split; reflexivity.
  - apply lookup_ge_None in Ht. rewrite sorted_by_points_nrr_length in Ht. lia.
Qed.

(** C7: with fewer than 4 teams the cutoff is the "undefined" result
    [None]; with 4 teams or more it is the points of the entry at the
    fourth place of every ranking of the standings by points descending,
    then net run rate descending; the sort of the code is such a ranking,
    and no call indexes out of range. *)
Theorem find_current_playoff_cutoff_spec standings :
  ((length standings < 4)%nat -> find_current_playoff_cutoff standings = Ok None)
  /\ ((4 <= length standings)%nat ->
      forall ranked,
        Permutation standings ranked -> StronglySorted ranks_before ranked ->
        exists t, ranked !! 3%nat = Some t
                  /\ find_current_playoff_cutoff standings = Ok (Some (points t)))
  /\ Permutation standings (sorted_by_points_nrr standings)
  /\ StronglySorted ranks_before (sorted_by_points_nrr standings)
  /\ (exists cutoff, find_current_playoff_cutoff standings = Ok cutoff).
Proof.
  split; [apply find_current_playoff_cutoff_short|].
  split.
  { intros Hlen ranked Hperm Hsorted.
    destruct (find_current_playoff_cutoff_fourth standings Hlen) as (t & Ht & Hcut).
    destruct (ranked !! 3%nat) as [u|] eqn:Hu.
    - exists u. split; [reflexivity|]. rewrite Hcut. do 2 f_equal.
      apply (rankings_agree_points (sorted_by_points_nrr standings) ranked 3 t u);
        try assumption.
      + rewrite <- Hperm. symmetry. apply sorted_by_points_nrr_perm.
      + apply sorted_by_points_nrr_sorted.
    - apply lookup_ge_None in Hu. apply Permutation_length in Hperm. lia. }
  split; [apply sorted_by_points_nrr_perm|].
  split; [apply sorted_by_points_nrr_sorted|].
  destruct (Nat.lt_ge_cases (length standings) 4) as [Hlen|Hlen].
  - exists None. apply find_current_playoff_cutoff_short. exact Hlen.
  - destruct (find_current_playoff_cutoff_fourth standings Hlen) as (t & _ & Hcut).
    exists (Some (points t)). exact Hcut.
Qed.

(** ** The monad of the simulator *)

Lemma bind_run {G A B} (m : M G A) (f : A -> M G B) (w : World G) :
  (m ≫= f) w
  = match m w with
    | (Ok a, w') => f a w'
    | (Raise e, w') => (Raise e, w')
    end.
Proof. reflexivity. Qed.

Lemma bind_ok {G A B} (m : M G A) (f : A -> M G B) (w w' : World G) a :
  m w = (Ok a, w') -> (m ≫= f) w = f a w'.
Proof. intros H. rewrite bind_run, H. reflexivity. Qed.

Lemma random_uniform_run {G} `{!RandomSource G} (w : World G) :
  random_uniform (5 # 100) (15 # 100) w
  = (Ok (uniform_draw (rng w)).1,
     mkWorld (heap w) (uniform_draw (rng w)).2 (ratings w)).
Proof.
  unfold random_uniform, uniform_draw. rewrite bind_run. unfold random_random.
  destruct (rng_random (rng w)) as [u g]. reflexivity.
Qed.

Lemma load_run {G} (w : World G) l t :
  heap w !! l = Some t -> load l w = (Ok t, w).
Proof. intros H. unfold load. rewrite H. reflexivity. Qed.

Lemma store_run {G} (w : World G) l t u :
  heap w !! l = Some t ->
  store l u w = (Ok (), mkWorld (<[l := u]> (heap w)) (rng w) (ratings w)).
Proof. intros H. unfold store. rewrite H. reflexivity. Qed.

(** ** The loops of the simulator compute their value-level views *)

Lemma update_loop_spec {G} `{!RandomSource G} winner_id loser_id cur :
  forall pre g r,
    update_loop (seq (length pre) (length cur)) winner_id loser_id
      (mkWorld (pre ++ cur) g r)
    = (Ok (),
       mkWorld (pre ++ (update_vals cur winner_id loser_id g).1)
         (update_vals cur winner_id loser_id g).2 r).
Proof.
  induction cur as [|t cur IH]; intros pre g r; [reflexivity|].
  cbn [length seq update_loop update_vals].
  assert (Hload : heap (mkWorld (pre ++ t :: cur) g r) !! length pre = Some t).
  { cbn [heap]. rewrite lookup_app_r by lia. by rewrite Nat.sub_diag. }
  rewrite (bind_ok _ _ _ _ _ (load_run _ _ _ Hload)).
  assert (Hstore : forall u, <[length pre := u]> (pre ++ t :: cur) = (pre ++ [u]) ++ cur
                            /\ S (length pre) = length (pre ++ [u])).
  { intros u. split.
    - rewrite insert_app_r_alt by lia. rewrite Nat.sub_diag. cbn. by rewrite <- app_assoc.
    - rewrite length_app. cbn. lia. }
  destruct (String.eqb (team t) winner_id); [|destruct (String.eqb (team t) loser_id)].
  - rewrite bind_run, bind_run, random_uniform_run. cbn [heap rng ratings].
    destruct (uniform_draw g) as [u g1]. cbn [fst snd].
    rewrite (store_run (mkWorld (pre ++ t :: cur) g1 r) _ t) by exact Hload.
    cbn [heap rng ratings].
    destruct (Hstore (winner_update t u)) as [-> ->].
    rewrite IH. destruct (update_vals cur winner_id loser_id g1) as [rest' g2].
    cbn [fst snd]. by rewrite <- app_assoc.
  - rewrite bind_run, bind_run, random_uniform_run. cbn [heap rng ratings].
    destruct (uniform_draw g) as [u g1]. cbn [fst snd].
    rewrite (store_run (mkWorld (pre ++ t :: cur) g1 r) _ t) by exact Hload.
    cbn [heap rng ratings].
    destruct (Hstore (loser_update t u)) as [-> ->].
    rewrite IH. destruct (update_vals cur winner_id loser_id g1) as [rest' g2].
    cbn [fst snd]. by rewrite <- app_assoc.
  - rewrite bind_run. unfold mret at 1, M_ret at 1.
    replace (pre ++ t :: cur) with ((pre ++ [t]) ++ cur) by (by rewrite <- app_assoc).
    replace (S (length pre)) with (length (pre ++ [t])) by (rewrite length_app; cbn; lia).
    rewrite IH. destruct (update_vals cur winner_id loser_id g) as [rest' g2].
    cbn [fst snd]. by rewrite <- app_assoc.
Qed.

Lemma update_vals_teams {G} `{!RandomSource G} winner_id loser_id cur :
  forall g, map team (update_vals cur winner_id loser_id g).1 = map team cur.
Proof.
  induction cur as [|t cur IH]; intros g; [reflexivity|].
  cbn [update_vals].
  destruct (String.eqb (team t) winner_id); [|destruct (String.eqb (team t) loser_id)].
  - destruct (uniform_draw g) as [u g1]. specialize (IH g1).
    destruct (update_vals cur winner_id loser_id g1) as [rest' g2].
    cbn [fst map] in *. by rewrite IH.
  - destruct (uniform_draw g) as [u g1]. specialize (IH g1).
    destruct (update_vals cur winner_id loser_id g1) as [rest' g2].
    cbn [fst map] in *. by rewrite IH.
  - specialize (IH g).
    destruct (update_vals cur winner_id loser_id g) as [rest' g2].
    cbn [fst map] in *. by rewrite IH.
Qed.

Lemma map_team_length (l l' : list TeamStanding) :
  map team l = map team l' -> length l = length l'.
Proof. intros H. rewrite <- (length_map team l), H. apply length_map. Qed.

Lemma play_vals_teams {G} `{!RandomSource G} ratings home_away_stats matches use_elo :
  forall cur g,
    map team (play_vals ratings home_away_stats matches use_elo cur g).1 = map team cur.
Proof.
  induction matches as [|m rest IH]; intros cur g; [reflexivity|].
  cbn [play_vals].
  destruct (match_winner ratings home_away_stats m use_elo g) as [winner g1].
  pose proof (update_vals_teams winner
                (if String.eqb winner (homeTeam m) then awayTeam m else homeTeam m)
                cur g1) as Hu.
  destruct (update_vals cur winner _ g1) as [cur' g2]. cbn [fst] in Hu.
  rewrite IH. exact Hu.
Qed.

Lemma load_all_spec {G} (w : World G) ls data :
  Forall2 (fun l t => heap w !! l = Some t) ls data ->
  load_all ls w = (Ok data, w).
Proof.
  induction 1 as [|l t ls data Hl _ IH]; [reflexivity|].
  cbn [load_all]. rewrite (bind_ok _ _ _ _ _ (load_run _ _ _ Hl)).
  rewrite (bind_ok _ _ _ _ _ IH). reflexivity.
Qed.

Lemma seq_points_to (pre cur : list TeamStanding) :
  Forall2 (fun l t => (pre ++ cur) !! l = Some t) (seq (length pre) (length cur)) cur.
Proof.
  revert pre. induction cur as [|t cur IH]; intros pre; [constructor|].
  cbn [length seq]. constructor.
  - rewrite lookup_app_r by lia. by rewrite Nat.sub_diag.
  - specialize (IH (pre ++ [t])). rewrite length_app, <- app_assoc in IH.
    cbn in IH. rewrite Nat.add_1_r in IH. exact IH.
Qed.

Lemma load_all_seq {G} (pre cur : list TeamStanding) (g : G) r :
  load_all (seq (length pre) (length cur)) (mkWorld (pre ++ cur) g r)
  = (Ok cur, mkWorld (pre ++ cur) g r).
Proof. apply load_all_spec. cbn [heap]. apply seq_points_to. Qed.

Lemma memo_lookup_fresh memo l :
  l ∉ map fst memo -> memo_lookup memo l = None.
Proof.
  induction memo as [|[k v] memo IH]; intros Hl; [reflexivity|].
  cbn [map fst] in Hl. apply not_elem_of_cons in Hl as [Hne Hl].
  cbn [memo_lookup]. destruct (Nat.eqb_spec k l) as [->|_]; [contradiction|].
  apply IH, Hl.
Qed.

(** On distinct dictionaries the deep copy allocates the records one after
    the other at the end of the store. *)
Lemma deepcopy_spec {G} ls :
  forall memo data (w : World G),
    NoDup ls ->
    (forall l, l ∈ ls -> l ∉ map fst memo) ->
    Forall2 (fun l t => heap w !! l = Some t) ls data ->
    deepcopy memo ls w
    = (Ok (seq (length (heap w)) (length data)),
       mkWorld (heap w ++ data) (rng w) (ratings w)).
Proof.
  induction ls as [|l ls IH]; intros memo data w Hnd Hmemo Hpts.
  - inversion Hpts; subst. cbn. rewrite app_nil_r. by destruct w.
  - inversion Hpts as [|? t ? data' Hl Hrest]; subst.
    apply NoDup_cons in Hnd as [Hfresh Hnd].
    cbn [deepcopy]. rewrite memo_lookup_fresh by (apply Hmemo; left).
    rewrite (bind_ok _ _ _ _ _ (load_run _ _ _ Hl)).
    rewrite bind_run. unfold alloc at 1.
    rewrite bind_run.
    rewrite (IH ((l, length (heap w)) :: memo) data'
               (mkWorld (heap w ++ [t]) (rng w) (ratings w))); try assumption.
    + cbn [heap rng ratings length seq]. rewrite length_app. cbn [length].
      rewrite Nat.add_1_r, <- app_assoc. reflexivity.
    + intros l' Hl'. cbn [map fst]. apply not_elem_of_cons. split.
      * intros ->. contradiction.
      * apply Hmemo. by right.
    + cbn [heap]. eapply Forall2_impl; [exact Hrest|].
      intros l' t' Hl'. cbn beta in *. by apply lookup_app_l_Some.
Qed.

Lemma clone_standings_spec {G} (w : World G) self data :
  simulator_of w self data ->
  _clone_standings self w
  = (Ok (seq (length (heap w)) (length data)),
     mkWorld (heap w ++ data) (rng w) (ratings w)).
Proof.
  intros (Hnd & Hpts & _). unfold _clone_standings.
  apply deepcopy_spec; [exact Hnd| |exact Hpts].
  intros l _. cbn. apply not_elem_of_nil.
Qed.

Lemma rating_gaps_bounded_nil ratings use_elo : rating_gaps_bounded ratings use_elo [].
Proof. intros _. constructor. Qed.

Lemma rating_gaps_bounded_false ratings matches :
  rating_gaps_bounded ratings false matches.
Proof. intros Habs. discriminate Habs. Qed.

Lemma rating_gaps_bounded_inv ratings use_elo m rest :
  rating_gaps_bounded ratings use_elo (m :: rest) ->
  (use_elo = true ->
   (get_team_rating ratings (awayTeam m)
    - get_team_rating ratings (homeTeam m) <= 120000)%R)
  /\ rating_gaps_bounded ratings use_elo rest.
Proof.
  intros Hb. split; intros Hu; specialize (Hb Hu); apply Forall_cons in Hb; tauto.
Qed.

Lemma rating_gaps_bounded_filter ratings use_elo (P : Fixture -> Prop)
    `{!forall m, Decision (P m)} matches :
  rating_gaps_bounded ratings use_elo matches ->
  rating_gaps_bounded ratings use_elo (filter P matches).
Proof.
  intros Hb Hu. specialize (Hb Hu). rewrite Forall_forall in Hb.
  apply Forall_forall. intros m Hm. apply list_elem_of_filter in Hm as [_ Hm].
  apply Hb, Hm.
Qed.

Lemma default_ratings_gaps_bounded use_elo matches :
  rating_gaps_bounded ∅ use_elo matches.
Proof.
  intros _. apply Forall_forall. intros m _. unfold get_team_rating.
  rewrite !lookup_empty. cbn [default]. lra.
Qed.

Lemma simulate_match_run {G} `{!RandomSource G} self m use_elo (w : World G) :
  (use_elo = true ->
   (get_team_rating (ratings w) (awayTeam m)
    - get_team_rating (ratings w) (homeTeam m) <= 120000)%R) ->
  simulate_match self m use_elo w
  = (Ok (match_winner (ratings w) (elo_home_away_stats (self_elo self)) m use_elo (rng w)).1,
     mkWorld (heap w)
       (match_winner (ratings w) (elo_home_away_stats (self_elo self)) m use_elo (rng w)).2
       (ratings w)).
Proof.
  intros Hgap. unfold simulate_match, match_winner. rewrite bind_run.
  destruct use_elo.
  - rewrite bind_run. unfold get_ratings at 1. unfold lift at 1.
    rewrite calculate_win_probability_call_returns by (by apply Hgap).
    rewrite bind_run. unfold random_random.
    destruct (rng_random (rng w)) as [u g']. reflexivity.
  - unfold mret at 1, M_ret at 1.
    rewrite bind_run. unfold random_random.
    destruct (rng_random (rng w)) as [u g']. reflexivity.
Qed.

Lemma update_standings_spec {G} `{!RandomSource G} winner_id loser_id pre cur (g : G) r :
  _update_standings (seq (length pre) (length cur)) winner_id loser_id
    (mkWorld (pre ++ cur) g r)
  = (Ok (seq (length pre) (length (update_vals cur winner_id loser_id g).1)),
     mkWorld (pre ++ (update_vals cur winner_id loser_id g).1)
       (update_vals cur winner_id loser_id g).2 r).
Proof.
  unfold _update_standings. rewrite bind_run, update_loop_spec.
  rewrite (map_team_length _ _ (update_vals_teams winner_id loser_id cur g)).
  reflexivity.
Qed.

Lemma play_matches_spec {G} `{!RandomSource G} self matches use_elo :
  forall pre cur (g : G) r,
    rating_gaps_bounded r use_elo matches ->
    let played := play_vals r (elo_home_away_stats (self_elo self)) matches use_elo cur g in
    play_matches self matches use_elo (seq (length pre) (length cur))
      (mkWorld (pre ++ cur) g r)
    = (Ok (seq (length pre) (length played.1)), mkWorld (pre ++ played.1) played.2 r).
Proof.
  induction matches as [|m rest IH]; intros pre cur g r Hb; [reflexivity|].
  apply rating_gaps_bounded_inv in Hb as [Hgap Hb].
  cbn zeta. cbn [play_matches play_vals].
  rewrite bind_run, simulate_match_run by exact Hgap. cbn [heap rng ratings].
  destruct (match_winner r (elo_home_away_stats (self_elo self)) m use_elo g)
    as [winner g1]. cbn [fst snd].
  rewrite bind_run, update_standings_spec.
  destruct (update_vals cur winner _ g1) as [cur' g2]. cbn [fst snd].
  apply IH, Hb.
Qed.

(** ** Recording the positions of one trial *)

Lemma cell_insert position_counts team_id counts pos c team_id' pos' :
  position_counts !! team_id = Some counts ->
  counts !! pos = Some c ->
  cell (<[team_id := <[pos := c + 1]> counts]> position_counts) team_id' pos'
  = cell position_counts team_id' pos'
    + (if bool_decide (team_id' = team_id /\ pos' = pos) then 1 else 0).
Proof.
  intros Hv Hc. unfold cell.
  destruct (decide (team_id' = team_id)) as [->|Hne].
  - rewrite lookup_insert_eq, Hv.
    destruct (decide (pos' = pos)) as [->|Hp].
    + rewrite list_lookup_insert_eq by (eapply lookup_lt_Some; exact Hc).
      rewrite Hc. rewrite bool_decide_eq_true_2 by done. reflexivity.
    + rewrite list_lookup_insert_ne by done.
      rewrite bool_decide_eq_false_2 by (intros [_ ?]; done). lia.
  - rewrite lookup_insert_ne by done.
    rewrite bool_decide_eq_false_2 by (intros [? _]; done). lia.
Qed.

Lemma qcell_insert qualification_count team_id q team_id' :
  qualification_count !! team_id = Some q ->
  qcell (<[team_id := q + 1]> qualification_count) team_id'
  = qcell qualification_count team_id'
    + (if bool_decide (team_id = team_id') then 1 else 0).
Proof.
  intros Hq. unfold qcell. case_bool_decide as Heq.
  - subst. rewrite lookup_insert_eq, Hq. reflexivity.
  - rewrite lookup_insert_ne by done. lia.
Qed.

Lemma counts_ok_insert ids qualification_count position_counts team_id counts pos c :
  counts_ok ids qualification_count position_counts ->
  position_counts !! team_id = Some counts ->
  counts_ok ids qualification_count
    (<[team_id := <[pos := c]> counts]> position_counts).
Proof.
  intros Hok Hv id Hid. destruct (Hok id Hid) as (Hq & v & Hpv & Hlen).
  split; [exact Hq|].
  destruct (decide (team_id = id)) as [->|Hne].
  - rewrite lookup_insert_eq. eexists. split; [reflexivity|].
    rewrite length_insert. congruence.
  - rewrite lookup_insert_ne by done. eauto.
Qed.

Lemma counts_ok_qinsert ids qualification_count position_counts team_id q :
  counts_ok ids qualification_count position_counts ->
  counts_ok ids (<[team_id := q]> qualification_count) position_counts.
Proof.
  intros Hok id Hid. destruct (Hok id Hid) as (Hq & Hp).
  split; [|exact Hp].
  destruct (decide (team_id = id)) as [->|Hne].
  - rewrite lookup_insert_eq. eauto.
  - by rewrite lookup_insert_ne.
Qed.

Lemma placed_cons x ids pos0 pos team_id :
  placed (x :: ids) pos0 pos team_id
  = (if bool_decide (team_id = x /\ pos = pos0) then 1 else 0)
    + placed ids (S pos0) pos team_id.
Proof.
  unfold placed.
  destruct (decide (pos = pos0)) as [->|Hne].
  - rewrite Nat.sub_diag. cbn [lookup list_lookup].
    rewrite (bool_decide_eq_false_2 (_ ∧ ids !! _ = _)) by lia.
    destruct (decide (x = team_id)) as [->|Hx].
    + rewrite !bool_decide_eq_true_2 by (split; done). reflexivity.
    + rewrite !bool_decide_eq_false_2; [reflexivity| |]; intros [H1 H2]; congruence.
  - rewrite (bool_decide_eq_false_2 (team_id = x ∧ _)) by (intros [_ ?]; done).
    destruct (decide (pos0 < pos)%nat) as [Hlt|Hge].
    + replace (pos - pos0)%nat with (S (pos - S pos0)) by lia.
      cbn [lookup list_lookup].
      destruct (decide (ids !! (pos - S pos0)%nat = Some team_id)) as [Hid|Hid].
      * rewrite !bool_decide_eq_true_2 by (split; [lia|exact Hid]). reflexivity.
      * rewrite !bool_decide_eq_false_2 by (intros [_ ?]; done). reflexivity.
    + rewrite !bool_decide_eq_false_2 by lia. reflexivity.
Qed.

Lemma occurrences_cons team_id x ids :
  occurrences team_id (x :: ids)
  = (if bool_decide (x = team_id) then 1 else 0) + occurrences team_id ids.
Proof. unfold occurrences. cbn [count_where]. case_bool_decide; lia. Qed.

(** One pass of [record_positions] over the entries [s], starting at
    position [pos0]: it returns, and it adds one to the count of each entry
    at its position and one to the qualification count of each entry placed
    among the first four. *)
Lemma record_positions_spec ids s :
  forall pos0 qualification_count position_counts,
    counts_ok ids qualification_count position_counts ->
    (forall t, t ∈ s -> team t ∈ ids) ->
    (pos0 + length s <= 10)%nat ->
    exists qualification_count' position_counts',
      record_positions pos0 s qualification_count position_counts
      = Ok (qualification_count', position_counts')
      /\ counts_ok ids qualification_count' position_counts'
      /\ (forall team_id pos,
            cell position_counts' team_id pos
            = cell position_counts team_id pos + placed (map team s) pos0 pos team_id)
      /\ (forall team_id,
            qcell qualification_count' team_id
            = qcell qualification_count team_id
              + occurrences team_id (take (4 - pos0) (map team s))).
Proof.
  induction s as [|t s IH]; intros pos0 qc pc Hok Hin Hlen.
  - exists qc, pc. split; [reflexivity|]. split; [exact Hok|]. split.
    + intros id p. unfold placed. cbn [map].
      rewrite bool_decide_eq_false_2; [lia|]. intros [_ H]. by rewrite lookup_nil in H.
    + intros id. cbn [map]. rewrite take_nil. unfold occurrences. cbn. lia.
  - cbn [length] in Hlen. cbn [record_positions].
    destruct (Hok (team t)) as ((q & Hq) & v & Hv & Hvlen); [apply Hin; left|].
    rewrite Hv.
    destruct (lookup_lt_is_Some_2 v pos0) as (c & Hc); [lia|]. rewrite Hc.
    pose proof (counts_ok_insert ids qc pc (team t) v pos0 (c + 1) Hok Hv) as Hok1.
    assert (Hin' : forall u, u ∈ s -> team u ∈ ids) by (intros u Hu; apply Hin; by right).
    destruct (Nat.ltb_spec pos0 4) as [Hlt|Hge].
    + rewrite Hq.
      destruct (IH (S pos0) (<[team t := q + 1]> qc)
                  (<[team t := <[pos0 := c + 1]> v]> pc)) as (qc' & pc' & Hrun & Hok' & Hcell & Hqcell);
        [by apply counts_ok_qinsert|exact Hin'|lia|].
      exists qc', pc'. split; [exact Hrun|]. split; [exact Hok'|]. split.
      * intros id p. rewrite Hcell, (cell_insert pc (team t) v pos0 c id p Hv Hc).
        cbn [map]. rewrite placed_cons. lia.
      * intros id. rewrite Hqcell, (qcell_insert qc (team t) q id Hq).
        replace (4 - pos0)%nat with (S (4 - S pos0)) by lia.
        cbn [map take]. rewrite occurrences_cons. lia.
    + destruct (IH (S pos0) qc (<[team t := <[pos0 := c + 1]> v]> pc))
        as (qc' & pc' & Hrun & Hok' & Hcell & Hqcell); [exact Hok1|exact Hin'|lia|].
      exists qc', pc'. split; [exact Hrun|]. split; [exact Hok'|]. split.
      * intros id p. rewrite Hcell, (cell_insert pc (team t) v pos0 c id p Hv Hc).
        cbn [map]. rewrite placed_cons. lia.
      * intros id. rewrite Hqcell.
        replace (4 - pos0)%nat with 0%nat by lia.
        replace (4 - S pos0)%nat with 0%nat by lia. reflexivity.
Qed.

(** ** Sums of counts *)

Lemma sum_Z_map_add {A} (f g : A -> Z) l :
  sum_Z (map (fun x => f x + g x) l) = sum_Z (map f l) + sum_Z (map g l).
Proof. unfold sum_Z. induction l as [|x l IH]; cbn [map foldr] in *; lia. Qed.

Lemma sum_Z_map_ext {A} (f g : A -> Z) l :
  (forall x, f x = g x) -> sum_Z (map f l) = sum_Z (map g l).
Proof.
  intros Hfg. unfold sum_Z.
  induction l as [|x l IH]; cbn [map foldr] in *; [reflexivity|].
  rewrite Hfg. lia.
Qed.

Lemma sum_Z_map_zero {A} (f : A -> Z) l :
  (forall x, f x = 0) -> sum_Z (map f l) = 0.
Proof.
  intros Hf. unfold sum_Z.
  induction l as [|x l IH]; cbn [map foldr] in *; [reflexivity|].
  rewrite Hf. lia.
Qed.

Lemma occurrences_nonneg team_id ids : 0 <= occurrences team_id ids.
Proof. unfold occurrences. lia. Qed.

Lemma occurrences_absent team_id ids : team_id ∉ ids -> occurrences team_id ids = 0.
Proof.
  induction ids as [|x ids IH]; intros Hid; [reflexivity|].
  apply not_elem_of_cons in Hid as [Hne Hid]. rewrite occurrences_cons, IH by exact Hid.
  rewrite bool_decide_eq_false_2 by congruence. reflexivity.
Qed.

Lemma occurrences_NoDup team_id ids :
  NoDup ids -> team_id ∈ ids -> occurrences team_id ids = 1.
Proof.
  induction 1 as [|x ids Hx Hnd IH]; intros Hid; [inversion Hid|].
  rewrite occurrences_cons. apply elem_of_cons in Hid as [->|Hid].
  - rewrite bool_decide_eq_true_2 by reflexivity.
    rewrite occurrences_absent by exact Hx. reflexivity.
  - rewrite bool_decide_eq_false_2 by (intros ->; contradiction).
    rewrite IH by exact Hid. reflexivity.
Qed.

Lemma occurrences_perm team_id ids ids' :
  Permutation ids ids' -> occurrences team_id ids = occurrences team_id ids'.
Proof. intros Hp. unfold occurrences. by rewrite (count_where_perm _ _ _ Hp). Qed.

Lemma occurrences_take team_id n ids :
  occurrences team_id (take n ids) <= occurrences team_id ids.
Proof.
  revert n. induction ids as [|x ids IH]; intros n.
  - rewrite take_nil. lia.
  - destruct n as [|n]; cbn [take].
    + apply occurrences_nonneg.
    + rewrite !occurrences_cons. specialize (IH n). lia.
Qed.

(** Over the teams [ids], the entry [x] is met as often as it occurs. *)
Lemma sum_indicator x ids :
  sum_Z (map (fun team_id => if bool_decide (x = team_id) then 1 else 0) ids)
  = occurrences x ids.
Proof.
  unfold sum_Z. induction ids as [|y ids IH]; [reflexivity|].
  cbn [map foldr]. rewrite occurrences_cons, IH.
  repeat case_bool_decide; congruence.
Qed.

Lemma placed_zero_start names pos team_id :
  placed names 0 pos team_id
  = if bool_decide (names !! pos = Some team_id) then 1 else 0.
Proof.
  unfold placed. rewrite Nat.sub_0_r.
  repeat case_bool_decide; try reflexivity.
  - exfalso. tauto.
  - exfalso. apply H. split; [lia|assumption].
Qed.

(** The total over the teams of what one pass adds at a position: 1 at a
    position that an entry takes, 0 at the others. *)
Lemma placed_total names ids pos :
  NoDup ids -> (forall x, x ∈ names -> x ∈ ids) ->
  sum_Z (map (placed names 0 pos) ids)
  = if bool_decide (pos < length names)%nat then 1 else 0.
Proof.
  intros Hnd Hsub.
  destruct (names !! pos) as [x|] eqn:Hx.
  - rewrite bool_decide_eq_true_2 by (eapply lookup_lt_Some; exact Hx).
    rewrite <- (occurrences_NoDup x ids Hnd)
      by (apply Hsub; eapply list_elem_of_lookup_2; exact Hx).
    rewrite <- sum_indicator. apply sum_Z_map_ext. intros id.
    rewrite placed_zero_start, Hx.
    repeat case_bool_decide; congruence.
  - rewrite bool_decide_eq_false_2 by (apply lookup_ge_None in Hx; lia).
    apply sum_Z_map_zero. intros id. rewrite placed_zero_start, Hx.
    by rewrite bool_decide_eq_false_2.
Qed.

(** The total over the positions of what one pass adds to a team: the
    number of entries of that team. *)
Lemma placed_positions names team_id :
  forall k, (length names <= k)%nat ->
    sum_Z (map (fun pos => placed names 0 pos team_id) (seq 0 k))
    = occurrences team_id names.
Proof.
  induction names as [|x names IH]; intros k Hk.
  - rewrite sum_Z_map_zero; [reflexivity|]. intros pos.
    rewrite placed_zero_start, lookup_nil. by rewrite bool_decide_eq_false_2.
  - destruct k as [|k]; [cbn in Hk; lia|]. cbn [length] in Hk.
    rewrite occurrences_cons, <- (IH k) by lia.
    unfold sum_Z. cbn [seq map foldr]. rewrite <- seq_shift, map_map.
    rewrite placed_zero_start. cbn [lookup list_lookup]. f_equal.
    + repeat case_bool_decide; congruence.
    + f_equal. apply map_ext. intros pos. rewrite !placed_zero_start. reflexivity.
Qed.

Lemma find_current_playoff_cutoff_spec_witness :
  find_current_playoff_cutoff
    [mkStanding "CSK" 10 6 4 12 (3 # 10); mkStanding "MI" 10 7 3 14 (1 # 10);
     mkStanding "RCB" 10 5 5 10 0] = Ok None
  /\ exists t,
       [mkStanding "MI" 10 7 3 14 (1 # 10); mkStanding "GT" 10 6 4 12 (4 # 10);
        mkStanding "CSK" 10 6 4 12 (3 # 10); mkStanding "RCB" 10 5 5 10 0;
        mkStanding "KKR" 10 4 6 8 (1 # 5)] !! 3%nat = Some t
       /\ find_current_playoff_cutoff
            [mkStanding "CSK" 10 6 4 12 (3 # 10); mkStanding "MI" 10 7 3 14 (1 # 10);
             mkStanding "KKR" 10 4 6 8 (1 # 5); mkStanding "RCB" 10 5 5 10 0;
             mkStanding "GT" 10 6 4 12 (4 # 10)] = Ok (Some (points t)).
Proof.
  split.
  - apply (find_current_playoff_cutoff_spec
             [mkStanding "CSK" 10 6 4 12 (3 # 10); mkStanding "MI" 10 7 3 14 (1 # 10);
              mkStanding "RCB" 10 5 5 10 0]).
    simpl. lia.
  - apply (find_current_playoff_cutoff_spec
             [mkStanding "CSK" 10 6 4 12 (3 # 10); mkStanding "MI" 10 7 3 14 (1 # 10);
              mkStanding "KKR" 10 4 6 8 (1 # 5); mkStanding "RCB" 10 5 5 10 0;
              mkStanding "GT" 10 6 4 12 (4 # 10)]).
    + simpl. lia.
    + apply (sorted_by_points_nrr_perm
               [mkStanding "CSK" 10 6 4 12 (3 # 10); mkStanding "MI" 10 7 3 14 (1 # 10);
                mkStanding "KKR" 10 4 6 8 (1 # 5); mkStanding "RCB" 10 5 5 10 0;
                mkStanding "GT" 10 6 4 12 (4 # 10)]).
    + repeat constructor.
Defined.

Lemma calculate_expected_cutoff_run results standings probs :
  standings <> [] ->
  fourth_place (map_to_list (position_probability results)) = Ok probs ->
  calculate_expected_cutoff results standings
  = if Qeq_bool (sum_probs probs) 0
    then Ok (Z.max 14 (current_cutoff_of standings + 4))
    else Ok (Z.max (int_of (weighted_loop standings (sum_probs probs) probs 0%Q))
               (current_cutoff_of standings + 2)).
Proof.
  intros Hne Hprobs. unfold calculate_expected_cutoff.
  destruct standings as [|t standings]; [contradiction|].
  cbn [length Nat.eqb]. rewrite Hprobs. cbn [outcome_bind].
  assert (Hcut : (if (4 <=? length (sorted_by_points_nrr (t :: standings)))%nat
                  then match sorted_by_points_nrr (t :: standings) !! 3%nat with
                       | Some t0 => points t0
                       | None => 0
                       end
                  else 0) = current_cutoff_of (t :: standings)).
  { unfold current_cutoff_of.
    destruct (Nat.leb_spec 4 (length (sorted_by_points_nrr (t :: standings))));
      [reflexivity|].
    rewrite (lookup_ge_None_2 _ 3%nat) by lia. reflexivity. }
  rewrite Hcut. reflexivity.
Qed.

(** For standings that are not empty, [calculate_expected_cutoff] does what
    C9 says: with no probability mass at the fourth place it returns
    max(14, currentCutoff + 4), and otherwise a value that is at least
    currentCutoff + 2. *)
Lemma calculate_expected_cutoff_nonempty results standings probs :
  standings <> [] ->
  fourth_place (map_to_list (position_probability results)) = Ok probs ->
  ((sum_probs probs == 0)%Q ->
   calculate_expected_cutoff results standings
   = Ok (Z.max 14 (current_cutoff_of standings + 4)))
  /\ (~ (sum_probs probs == 0)%Q ->
      exists v, calculate_expected_cutoff results standings = Ok v
                /\ v = Z.max (int_of (weighted_loop standings (sum_probs probs) probs 0%Q))
                         (current_cutoff_of standings + 2)
                /\ current_cutoff_of standings + 2 <= v).
Proof.
  intros Hne Hprobs.
  rewrite (calculate_expected_cutoff_run results standings probs Hne Hprobs).
  split.
  - intros Hzero. apply Qeq_bool_iff in Hzero. rewrite Hzero. reflexivity.
  - intros Hnz. destruct (Qeq_bool (sum_probs probs) 0) eqn:Hb.
    + apply Qeq_bool_iff in Hb. contradiction.
    + eexists. split; [reflexivity|]. split; [reflexivity|]. lia.
Qed.

(** C9 at the failing input: with empty standings and the empty result of
    the simulation, the probability mass at the fourth place is 0, and the
    call raises [ZeroDivisionError] (from the division by the number of
    standings) where the claim has it return max(14, 0 + 4) = 14. *)
Theorem calculate_expected_cutoff_empty_standings :
  fourth_place (map_to_list (position_probability (mkResult ∅ ∅))) = Ok []
  /\ sum_probs [] = 0%Q
  /\ calculate_expected_cutoff (mkResult ∅ ∅) [] = Raise ZeroDivisionError.
Proof.
  split; [|split; reflexivity].
  cbn [position_probability]. rewrite map_to_list_empty. reflexivity.
Qed.

(** ** One trial of [run_simulation] *)

Lemma simulator_of_extend {G} (w : World G) self data more (g : G) :
  simulator_of w self data ->
  simulator_of (mkWorld (heap w ++ more) g (ratings w)) self data.
Proof.
  intros (Hnd & Hpts & Hteams). split; [exact Hnd|]. split; [|exact Hteams].
  cbn [heap]. eapply Forall2_impl; [exact Hpts|].
  intros l t Hl. cbn beta in *. by apply lookup_app_l_Some.
Qed.

Lemma sorted_teams_perm (cur data : list TeamStanding) :
  map team cur = map team data ->
  Permutation (map team (sorted_by_points_nrr cur)) (map team data).
Proof.
  intros <-. apply Permutation_map. symmetry. apply sorted_by_points_nrr_perm.
Qed.

(** One trial returns, leaves the simulator as it was, and records the
    positions of a ranking [s] whose teams are the teams of the standings;
    with no match to play, [s] is the ranking of the current standings. *)
Lemma simulation_trial {G} `{!RandomSource G} self data use_elo (w : World G)
    qualification_count position_counts :
  simulator_of w self data ->
  rating_gaps_bounded (ratings w) use_elo (self_schedule self) ->
  (length data <= 10)%nat ->
  counts_ok (map team data) qualification_count position_counts ->
  exists s qualification_count' position_counts' w',
    (forall n,
       simulation_loop self (S n) use_elo qualification_count position_counts w
       = simulation_loop self n use_elo qualification_count' position_counts' w')
    /\ simulator_of w' self data
    /\ ratings w' = ratings w
    /\ Permutation (map team s) (map team data)
    /\ (self_schedule self = [] -> s = sorted_by_points_nrr data)
    /\ record_positions 0 s qualification_count position_counts
       = Ok (qualification_count', position_counts').
Proof.
  intros Hsim Hb Hlen Hok.
  set (played := play_vals (ratings w) (elo_home_away_stats (self_elo self))
                   (self_schedule self) use_elo data (rng w)).
  pose proof (play_vals_teams (ratings w) (elo_home_away_stats (self_elo self))
                (self_schedule self) use_elo data (rng w)) as Hteams.
  fold played in Hteams.
  set (s := sorted_by_points_nrr played.1).
  pose proof (sorted_teams_perm played.1 data Hteams) as Hperm. fold s in Hperm.
  destruct (record_positions_spec (map team data) s 0 qualification_count position_counts)
    as (qc' & pc' & Hrec & _); [exact Hok| | |].
  { intros t Ht. rewrite <- Hperm. apply list_elem_of_fmap_2. exact Ht. }
  { apply Permutation_length in Hperm. rewrite !length_map in Hperm. lia. }
  exists s, qc', pc', (mkWorld (heap w ++ played.1) played.2 (ratings w)).
  split; [|split; [|split; [|split; [|split]]]].
  - intros n. cbn [simulation_loop].
    rewrite (bind_ok _ _ _ _ _ (clone_standings_spec w self data Hsim)).
    rewrite bind_run, play_matches_spec by exact Hb. fold played.
    rewrite bind_run, load_all_seq. fold s.
    rewrite bind_run. unfold lift at 1. rewrite Hrec. reflexivity.
  - apply simulator_of_extend. exact Hsim.
  - reflexivity.
  - exact Hperm.
  - intros Hnone. unfold s, played. rewrite Hnone. reflexivity.
  - exact Hrec.
Qed.

(** An invariant of the counts that every trial maintains holds after the
    loop, which returns. *)
Lemma simulation_loop_inv {G} `{!RandomSource G} self data use_elo
    (Inv : nat -> gmap string Z -> gmap string (list Z) -> Prop) :
  (length data <= 10)%nat ->
  (forall k qc pc, Inv k qc pc -> counts_ok (map team data) qc pc) ->
  (forall k s qc pc qc' pc',
     Inv k qc pc ->
     Permutation (map team s) (map team data) ->
     (self_schedule self = [] -> s = sorted_by_points_nrr data) ->
     record_positions 0 s qc pc = Ok (qc', pc') ->
     Inv (S k) qc' pc') ->
  forall n k (w : World G) qc pc,
    simulator_of w self data ->
    rating_gaps_bounded (ratings w) use_elo (self_schedule self) ->
    Inv k qc pc ->
    exists qc' pc' w',
      simulation_loop self n use_elo qc pc w = (Ok (qc', pc'), w')
      /\ Inv (k + n)%nat qc' pc'
      /\ simulator_of w' self data
      /\ ratings w' = ratings w.
Proof.
  intros Hlen Hok Hstep. induction n as [|n IH]; intros k w qc pc Hsim Hb Hinv.
  - exists qc, pc, w. rewrite Nat.add_0_r. repeat split; try assumption; apply Hsim.
  - destruct (simulation_trial self data use_elo w qc pc Hsim Hb Hlen (Hok _ _ _ Hinv))
      as (s & qc1 & pc1 & w1 & Hrun & Hsim1 & Hr1 & Hperm & Hnone & Hrec).
    assert (Hb1 : rating_gaps_bounded (ratings w1) use_elo (self_schedule self))
      by (rewrite Hr1; exact Hb).
    destruct (IH (S k) w1 qc1 pc1 Hsim1 Hb1 (Hstep _ _ _ _ _ _ Hinv Hperm Hnone Hrec))
      as (qc' & pc' & w' & Hloop & Hinv' & Hsim' & Hr').
    exists qc', pc', w'. rewrite Hrun, Hloop.
    replace (k + S n)%nat with (S k + n)%nat by lia.
    repeat split; try assumption; try apply Hsim'. congruence.
Qed.

(** ** The dictionaries of [run_simulation] *)

Lemma foldl_insert_lookup {V} (v : V) teams :
  forall (d : gmap string V) team_id,
    foldl (fun d t => <[t := v]> d) d teams !! team_id
    = if bool_decide (team_id ∈ teams) then Some v else d !! team_id.
Proof.
  induction teams as [|t teams IH]; intros d id.
  - cbn [foldl]. rewrite bool_decide_eq_false_2 by apply not_elem_of_nil. reflexivity.
  - cbn [foldl]. rewrite IH.
    destruct (decide (id ∈ teams)) as [Hin|Hnin].
    + rewrite !bool_decide_eq_true_2; [reflexivity|by right|exact Hin].
    + rewrite (bool_decide_eq_false_2 (id ∈ teams)) by exact Hnin.
      destruct (decide (id = t)) as [->|Hne].
      * rewrite lookup_insert_eq, bool_decide_eq_true_2 by left. reflexivity.
      * rewrite lookup_insert_ne by done.
        rewrite bool_decide_eq_false_2; [reflexivity|].
        intros [?|?]%elem_of_cons; contradiction.
Qed.

Lemma init_counts_ok teams :
  counts_ok teams (init_qualification_count teams) (init_position_counts teams).
Proof.
  intros id Hid. unfold init_qualification_count, init_position_counts.
  rewrite !foldl_insert_lookup, !bool_decide_eq_true_2 by exact Hid.
  split; [eauto|]. eexists. split; reflexivity.
Qed.

Lemma init_qcell teams team_id : qcell (init_qualification_count teams) team_id = 0.
Proof.
  unfold qcell, init_qualification_count. rewrite foldl_insert_lookup.
  case_bool_decide; [reflexivity|]. by rewrite lookup_empty.
Qed.

Lemma init_cell teams team_id pos : cell (init_position_counts teams) team_id pos = 0.
Proof.
  unfold cell, init_position_counts. rewrite foldl_insert_lookup.
  case_bool_decide; [|by rewrite lookup_empty].
  do 10 (destruct pos as [|pos]; [reflexivity|]). reflexivity.
Qed.

Lemma true_div_nonzero x iterations :
  iterations <> 0 -> true_div x iterations = Ok (probability_of x iterations).
Proof.
  intros Hne. unfold true_div. destruct (Z.eqb_spec iterations 0); [contradiction|].
  reflexivity.
Qed.

Lemma div_all_spec counts iterations :
  iterations <> 0 ->
  div_all counts iterations = Ok (map (fun c => probability_of c iterations) counts).
Proof.
  intros Hne. induction counts as [|c counts IH]; [reflexivity|].
  cbn [div_all map]. rewrite true_div_nonzero by exact Hne. cbn [outcome_bind].
  rewrite IH. reflexivity.
Qed.

(** The loop that fills the result: every team gets its counts divided by
    the number of trials. *)
Lemma probabilities_spec iterations qualification_count position_counts teams :
  iterations <> 0 ->
  forall result,
    counts_ok teams qualification_count position_counts ->
    exists result',
      probabilities teams iterations qualification_count position_counts result
      = Ok result'
      /\ forall team_id,
           (team_id ∈ teams ->
            qualification_probability result' !! team_id
            = Some (probability_of (qcell qualification_count team_id) iterations)
            /\ exists counts,
                 position_counts !! team_id = Some counts
                 /\ position_probability result' !! team_id
                    = Some (map (fun c => probability_of c iterations) counts))
           /\ (team_id ∉ teams ->
               qualification_probability result' !! team_id
               = qualification_probability result !! team_id
               /\ position_probability result' !! team_id
                  = position_probability result !! team_id).
Proof.
  intros Hne. induction teams as [|t teams IH]; intros result Hok.
  - exists result. split; [reflexivity|]. intros id. split; [|done].
    intros Hid. inversion Hid.
  - destruct (Hok t) as ((q & Hq) & v & Hv & _); [left|].
    cbn [probabilities]. rewrite Hq, true_div_nonzero by exact Hne.
    cbn [outcome_bind]. rewrite Hv, div_all_spec by exact Hne. cbn [outcome_bind].
    destruct (IH (mkResult (<[t := probability_of q iterations]>
                              (qualification_probability result))
                           (<[t := map (fun c => probability_of c iterations) v]>
                              (position_probability result))))
      as (result' & Hrun & Hres).
    { intros id Hid. apply Hok. by right. }
    exists result'. split; [exact Hrun|].
    intros id. destruct (Hres id) as [Hin Hout]. split.
    + intros Hid. destruct (decide (id ∈ teams)) as [Hteams|Hteams]; [by apply Hin|].
      apply elem_of_cons in Hid as [->|Hid]; [|contradiction].
      destruct (Hout Hteams) as [Hq' Hp']. cbn [qualification_probability
        position_probability] in Hq', Hp'.
      rewrite Hq', Hp', !lookup_insert_eq. unfold qcell. rewrite Hq.
      split; [reflexivity|]. exists v. split; [exact Hv|reflexivity].
    + intros Hid. apply not_elem_of_cons in Hid as [Hne' Hid].
      destruct (Hout Hid) as [Hq' Hp']. cbn [qualification_probability
        position_probability] in Hq', Hp'.
      rewrite Hq', Hp', !lookup_insert_ne by done. done.
Qed.

(** [run_simulation] returns for standings of at most ten teams and a
    number of trials that is not zero; its result holds, for every team,
    the counts of the loop divided by the number of trials. *)
Lemma run_simulation_inv {G} `{!RandomSource G} self data use_elo
    (Inv : nat -> gmap string Z -> gmap string (list Z) -> Prop)
    iterations (w : World G) :
  (length data <= 10)%nat ->
  0 < iterations ->
  (forall k qc pc, Inv k qc pc -> counts_ok (map team data) qc pc) ->
  (forall k s qc pc qc' pc',
     Inv k qc pc ->
     Permutation (map team s) (map team data) ->
     (self_schedule self = [] -> s = sorted_by_points_nrr data) ->
     record_positions 0 s qc pc = Ok (qc', pc') ->
     Inv (S k) qc' pc') ->
  Inv 0%nat (init_qualification_count (map team data))
    (init_position_counts (map team data)) ->
  simulator_of w self data ->
  rating_gaps_bounded (ratings w) use_elo (self_schedule self) ->
  exists qc pc w' result,
    simulation_loop self (Z.to_nat iterations) use_elo
      (init_qualification_count (self_teams self))
      (init_position_counts (self_teams self)) w = (Ok (qc, pc), w')
    /\ Inv (Z.to_nat iterations) qc pc
    /\ run_simulation self iterations use_elo w = (Ok result, w')
    /\ simulator_of w' self data
    /\ ratings w' = ratings w
    /\ forall team_id,
         team_id ∈ map team data ->
         qualification_probability result !! team_id
         = Some (probability_of (qcell qc team_id) iterations)
         /\ exists counts,
              pc !! team_id = Some counts
              /\ length counts = 10%nat
              /\ position_probability result !! team_id
                 = Some (map (fun c => probability_of c iterations) counts).
Proof.
  intros Hlen Hpos Hok Hstep Hinit Hsim Hb.
  pose proof Hsim as (_ & _ & Hteams).
  destruct (simulation_loop_inv self data use_elo Inv Hlen Hok Hstep
              (Z.to_nat iterations) 0%nat w _ _ Hsim Hb Hinit)
    as (qc & pc & w' & Hloop & Hinv & Hsim' & Hr).
  cbn [Nat.add] in Hinv.
  destruct (probabilities_spec iterations qc pc (map team data)) with (result := mkResult ∅ ∅)
    as (result & Hprob & Hres); [lia|exact (Hok _ _ _ Hinv)|].
  exists qc, pc, w', result. rewrite Hteams.
  split; [exact Hloop|]. split; [exact Hinv|]. split; [|split; [exact Hsim'|split; [exact Hr|]]].
  - unfold run_simulation. rewrite Hteams, (bind_ok _ _ _ _ _ Hloop).
    cbn [fst snd]. unfold lift. rewrite Hprob. reflexivity.
  - intros id Hid. destruct (Hres id) as [Hin _]. destruct (Hin Hid) as (Hq & v & Hv & Hp).
    split; [exact Hq|]. exists v. split; [exact Hv|]. split; [|exact Hp].
    destruct (Hok _ _ _ Hinv id Hid) as (_ & v' & Hv' & Hlen'). congruence.
Qed.

(** ** [run_simulation]: the length of the position vectors *)

Lemma run_simulation_vectors {G} `{!RandomSource G} self data use_elo iterations
    (w : World G) :
  simulator_of w self data ->
  rating_gaps_bounded (ratings w) use_elo (self_schedule self) ->
  (length data <= 10)%nat ->
  0 < iterations ->
  exists result w',
    run_simulation self iterations use_elo w = (Ok result, w')
    /\ forall team_id,
         team_id ∈ map team data ->
         exists probs,
           position_probability result !! team_id = Some probs
           /\ length probs = 10%nat.
Proof.
  intros Hsim Hb Hlen Hpos.
  destruct (run_simulation_inv self data use_elo
              (fun _ qc pc => counts_ok (map team data) qc pc) iterations w Hlen Hpos)
    as (qc & pc & w' & result & _ & _ & Hrun & _ & _ & Hres);
    [done| | |exact Hsim|exact Hb|].
  { intros k s qc pc qc' pc' Hok Hperm _ Hrec.
    destruct (record_positions_spec (map team data) s 0 qc pc)
      as (qc2 & pc2 & Hrec2 & Hok2 & _); [exact Hok| | |].
    - intros t Ht. rewrite <- Hperm. apply list_elem_of_fmap_2. exact Ht.
    - apply Permutation_length in Hperm. rewrite !length_map in Hperm. lia.
    - rewrite Hrec in Hrec2. injection Hrec2 as <- <-. exact Hok2. }
  { apply init_counts_ok. }
  exists result, w'. split; [exact Hrun|].
  intros id Hid. destruct (Hres id Hid) as (_ & v & _ & Hv & Hp).
  eexists. split; [exact Hp|]. rewrite length_map. exact Hv.
Qed.

(** C1 (as amended): for standings of at most ten teams, a positive number
    of trials and, when the rating model is used, ratings with which no
    fixture overflows (no away team rated more than 120000 points above
    its home team), [run_simulation] returns and the position vector of
    every team has length 10, whatever the number of teams. *)
Theorem position_vector_length {G} `{!RandomSource G} self data use_elo iterations
    (w : World G) :
  simulator_of w self data ->
  rating_gaps_bounded (ratings w) use_elo (self_schedule self) ->
  (length data <= 10)%nat ->
  0 < iterations ->
  exists result w',
    run_simulation self iterations use_elo w = (Ok result, w')
    /\ forall team_id,
         team_id ∈ map team data ->
         exists probs,
           position_probability result !! team_id = Some probs
           /\ length probs = 10%nat.
Proof. apply run_simulation_vectors. Qed.

Lemma five_team_simulator_ok : simulator_of five_team_world five_team_simulator five_teams.
Proof.
  split; [|split; [|reflexivity]].
  - apply (NoDup_seq 0 5).
  - repeat constructor.
Qed.

Lemma one_match_simulator_ok :
  simulator_of five_team_world one_match_simulator five_teams.
Proof.
  split; [|split; [|reflexivity]].
  - apply (NoDup_seq 0 5).
  - repeat constructor.
Qed.

Lemma position_vector_length_witness :
  exists result w' probs,
    run_simulation one_match_simulator 1000 true five_team_world = (Ok result, w')
    /\ position_probability result !! "CSK"%string = Some probs
    /\ length probs = 10%nat.
Proof.
  destruct (position_vector_length one_match_simulator five_teams true 1000
              five_team_world one_match_simulator_ok)
    as (result & w' & Hrun & Hvec);
    [apply default_ratings_gaps_bounded|simpl; lia|lia|].
  destruct (Hvec "CSK"%string) as (probs & Hprobs & Hlen).
  { cbn. do 2 right. left. }
  exists result, w', probs. split; [exact Hrun|]. split; [exact Hprobs|exact Hlen].
Defined.

(** C1, as stated, fails for a league of five teams: the position vector
    of a team has length 10, not 5. *)
Lemma position_vector_length_counterexample :
  exists result w' probs,
    run_simulation five_team_simulator 1000 true five_team_world = (Ok result, w')
    /\ position_probability result !! "CSK"%string = Some probs
    /\ length probs = 10%nat
    /\ length probs <> length five_teams.
Proof.
  destruct (run_simulation_vectors five_team_simulator five_teams true 1000
              five_team_world five_team_simulator_ok) as (result & w' & Hrun & Hvec);
    [apply rating_gaps_bounded_nil|simpl; lia|lia|].
  destruct (Hvec "CSK"%string) as (probs & Hprobs & Hlen).
  { cbn. do 2 right. left. }
  exists result, w', probs. repeat split; try assumption.
  rewrite Hlen. simpl. lia.
Qed.

(** ** [run_simulation]: every team takes one rank per trial *)

Lemma sum_Z_lookup (v : list Z) :
  sum_Z (map (fun pos => default 0 (v !! pos)) (seq 0 (length v))) = sum_Z v.
Proof.
  unfold sum_Z. induction v as [|c v IH]; [reflexivity|].
  cbn [length seq map foldr]. rewrite <- seq_shift, map_map. cbn [lookup list_lookup].
  cbn [default]. f_equal. exact IH.
Qed.

Lemma team_total_vector position_counts team_id counts :
  position_counts !! team_id = Some counts ->
  length counts = 10%nat ->
  team_total position_counts team_id = sum_Z counts.
Proof.
  intros Hv Hlen. unfold team_total. rewrite <- (sum_Z_lookup counts), Hlen.
  apply sum_Z_map_ext. intros pos. unfold cell. rewrite Hv. reflexivity.
Qed.

Lemma tallied_init ids : tallied ids 0 (init_qualification_count ids) (init_position_counts ids).
Proof.
  split; [apply init_counts_ok|]. split; [|split; [|split]].
  - intros pos _. unfold position_total. apply sum_Z_map_zero. intros id. apply init_cell.
  - intros pos _. unfold position_total. apply sum_Z_map_zero. intros id. apply init_cell.
  - intros id _. unfold team_total. apply sum_Z_map_zero. intros pos. apply init_cell.
  - intros id _. rewrite init_qcell. lia.
Qed.

Lemma tallied_step ids k s qc pc qc' pc' :
  NoDup ids ->
  (length ids <= 10)%nat ->
  tallied ids k qc pc ->
  Permutation (map team s) ids ->
  record_positions 0 s qc pc = Ok (qc', pc') ->
  tallied ids (S k) qc' pc'.
Proof.
  intros Hnd Hlen (Hok & Hpos & Hbeyond & Hteam & Hqual) Hperm Hrec.
  assert (Hsub : forall x, x ∈ map team s -> x ∈ ids) by (intros x Hx; by rewrite <- Hperm).
  assert (Hlens : length (map team s) = length ids) by (by apply Permutation_length).
  destruct (record_positions_spec ids s 0 qc pc)
    as (qc2 & pc2 & Hrec2 & Hok2 & Hcell & Hqcell); [exact Hok| | |].
  { intros t Ht. apply Hsub. apply list_elem_of_fmap_2. exact Ht. }
  { rewrite length_map in Hlens. lia. }
  rewrite Hrec in Hrec2. injection Hrec2 as <- <-.
  assert (Htotal : forall pos,
            position_total pc' ids pos
            = position_total pc ids pos
              + (if bool_decide (pos < length ids)%nat then 1 else 0)).
  { intros pos. unfold position_total.
    rewrite (sum_Z_map_ext _ (fun id => cell pc id pos + placed (map team s) 0 pos id))
      by (intros id; apply Hcell).
    rewrite sum_Z_map_add, placed_total, Hlens by assumption. reflexivity. }
  split; [exact Hok2|]. split; [|split; [|split]].
  - intros pos Hp. rewrite Htotal, Hpos, bool_decide_eq_true_2 by exact Hp. lia.
  - intros pos Hp. rewrite Htotal, Hbeyond, bool_decide_eq_false_2 by lia. lia.
  - intros id Hid. unfold team_total.
    rewrite (sum_Z_map_ext _ (fun pos => cell pc id pos + placed (map team s) 0 pos id))
      by (intros pos; apply Hcell).
    rewrite sum_Z_map_add, placed_positions by lia.
    rewrite (occurrences_perm _ _ _ Hperm), (occurrences_NoDup id ids Hnd Hid).
    fold (team_total pc id). rewrite Hteam by exact Hid. lia.
  - intros id Hid. rewrite Hqcell.
    pose proof (occurrences_nonneg id (take (4 - 0) (map team s))).
    pose proof (occurrences_take id (4 - 0) (map team s)) as Htake.
    rewrite (occurrences_perm _ _ _ Hperm), (occurrences_NoDup id ids Hnd Hid) in Htake.
    specialize (Hqual id Hid). lia.
Qed.

Lemma inject_Z_pos (x : Z) : 0 < x -> (0 < inject_Z x)%Q.
Proof. intros H. change 0%Q with (inject_Z 0). rewrite <- Zlt_Qlt. exact H. Qed.

Lemma probability_of_bounds count iterations :
  0 < iterations -> 0 <= count <= iterations ->
  (0 <= probability_of count iterations <= 1)%Q.
Proof.
  intros Hpos [H0 H1]. unfold probability_of.
  pose proof (inject_Z_pos iterations Hpos) as Hq.
  split.
  - apply Qle_shift_div_l; [exact Hq|]. rewrite Qmult_0_l.
    change 0%Q with (inject_Z 0). rewrite <- Zle_Qle. exact H0.
  - apply Qle_shift_div_r; [exact Hq|]. rewrite Qmult_1_l.
    rewrite <- Zle_Qle. exact H1.
Qed.

Lemma probability_of_all iterations :
  0 < iterations -> (probability_of iterations iterations == 1)%Q.
Proof.
  intros Hpos. unfold probability_of. apply Qmult_inv_r.
  intros H. pose proof (inject_Z_pos iterations Hpos) as Hq.
  rewrite H in Hq. exact (Qlt_irrefl _ Hq).
Qed.

Lemma probability_of_none iterations : (probability_of 0 iterations == 0)%Q.
Proof. unfold probability_of, Qdiv. apply Qmult_0_l. Qed.

Lemma sum_Q_probabilities counts iterations :
  (sum_Q (map (fun c => probability_of c iterations) counts)
   == probability_of (sum_Z counts) iterations)%Q.
Proof.
  unfold sum_Q, sum_Z. induction counts as [|c counts IH]; cbn [map foldr].
  - symmetry. apply probability_of_none.
  - rewrite IH. unfold probability_of, Qdiv. rewrite inject_Z_plus. ring.
Qed.

Lemma run_simulation_tallies {G} `{!RandomSource G} self data use_elo iterations
    (w : World G) :
  simulator_of w self data ->
  rating_gaps_bounded (ratings w) use_elo (self_schedule self) ->
  NoDup (map team data) ->
  (length data <= 10)%nat ->
  0 < iterations ->
  exists qc pc result w',
    simulation_loop self (Z.to_nat iterations) use_elo
      (init_qualification_count (self_teams self))
      (init_position_counts (self_teams self)) w = (Ok (qc, pc), w')
    /\ run_simulation self iterations use_elo w = (Ok result, w')
    /\ (forall pos, (pos < length data)%nat ->
          position_total pc (map team data) pos = iterations)
    /\ (forall pos, (length data <= pos)%nat ->
          position_total pc (map team data) pos = 0)
    /\ forall team_id,
         team_id ∈ map team data ->
         exists counts,
           pc !! team_id = Some counts
           /\ sum_Z counts = iterations
           /\ 0 <= qcell qc team_id <= iterations
           /\ qualification_probability result !! team_id
              = Some (probability_of (qcell qc team_id) iterations)
           /\ (0 <= probability_of (qcell qc team_id) iterations <= 1)%Q
           /\ position_probability result !! team_id
              = Some (map (fun c => probability_of c iterations) counts).
Proof.
  intros Hsim Hb Hnd Hlen Hpos.
  assert (Hlen' : (length (map team data) <= 10)%nat) by (by rewrite length_map).
  destruct (run_simulation_inv self data use_elo (tallied (map team data)) iterations w
              Hlen Hpos)
    as (qc & pc & w' & result & Hloop & Hinv & Hrun & _ & _ & Hres);
    [by intros k qc pc [Hok _]| |apply tallied_init|exact Hsim|exact Hb|].
  { intros k s qc pc qc' pc' Hinv Hperm _ Hrec.
    exact (tallied_step _ k s qc pc qc' pc' Hnd Hlen' Hinv Hperm Hrec). }
  destruct Hinv as (Hok & Hcol & Hbeyond & Hteam & Hqual).
  rewrite Z2Nat.id in Hcol, Hteam, Hqual by lia. rewrite length_map in Hcol, Hbeyond.
  exists qc, pc, result, w'.
  split; [exact Hloop|]. split; [exact Hrun|]. split; [exact Hcol|]. split; [exact Hbeyond|].
  intros id Hid. destruct (Hres id Hid) as (Hq & v & Hv & Hvlen & Hp).
  exists v. split; [exact Hv|]. split; [|split; [apply Hqual, Hid|]].
  - rewrite <- (team_total_vector pc id v Hv Hvlen). apply Hteam, Hid.
  - split; [exact Hq|]. split; [|exact Hp].
    apply probability_of_bounds; [exact Hpos|]. apply Hqual, Hid.
Qed.

(** C6 (as amended): over standings with distinct team identifiers and at
    most ten teams, with a positive number of trials and, when the rating
    model is used, ratings with which no fixture overflows,
    [run_simulation] returns; for every position index below the number of
    teams the counts of that position add up over the teams to the number
    of trials (and to 0 for the position indexes from the number of teams
    on); the position counts of every team add up to the number of trials,
    and its position probabilities are these counts, each divided by the
    number of trials; its qualification count is between 0 and the number
    of trials, and its qualification probability, that count divided by
    the number of trials, lies in [0, 1]. *)
Theorem run_simulation_one_rank_per_trial {G} `{!RandomSource G} self data use_elo
    iterations (w : World G) :
  simulator_of w self data ->
  rating_gaps_bounded (ratings w) use_elo (self_schedule self) ->
  NoDup (map team data) ->
  (length data <= 10)%nat ->
  0 < iterations ->
  exists qc pc result w',
    simulation_loop self (Z.to_nat iterations) use_elo
      (init_qualification_count (self_teams self))
      (init_position_counts (self_teams self)) w = (Ok (qc, pc), w')
    /\ run_simulation self iterations use_elo w = (Ok result, w')
    /\ (forall pos, (pos < length data)%nat ->
          position_total pc (map team data) pos = iterations)
    /\ (forall pos, (length data <= pos)%nat ->
          position_total pc (map team data) pos = 0)
    /\ forall team_id,
         team_id ∈ map team data ->
         exists counts,
           pc !! team_id = Some counts
           /\ sum_Z counts = iterations
           /\ 0 <= qcell qc team_id <= iterations
           /\ qualification_probability result !! team_id
              = Some (probability_of (qcell qc team_id) iterations)
           /\ (0 <= probability_of (qcell qc team_id) iterations <= 1)%Q
           /\ position_probability result !! team_id
              = Some (map (fun c => probability_of c iterations) counts).
Proof. apply run_simulation_tallies. Qed.

Lemma five_teams_distinct : NoDup (map team five_teams).
Proof. apply (bool_decide_unpack _). reflexivity. Qed.

Lemma run_simulation_one_rank_per_trial_witness :
  exists qc pc result w' counts,
    simulation_loop one_match_simulator (Z.to_nat 1000) true
      (init_qualification_count (self_teams one_match_simulator))
      (init_position_counts (self_teams one_match_simulator)) five_team_world
    = (Ok (qc, pc), w')
    /\ run_simulation one_match_simulator 1000 true five_team_world = (Ok result, w')
    /\ position_total pc (map team five_teams) 3 = 1000
    /\ pc !! "CSK"%string = Some counts
    /\ sum_Z counts = 1000
    /\ (0 <= probability_of (qcell qc "CSK") 1000 <= 1)%Q
    /\ position_probability result !! "CSK"%string
       = Some (map (fun c => probability_of c 1000) counts).
Proof.
  destruct (run_simulation_one_rank_per_trial one_match_simulator five_teams true 1000
              five_team_world one_match_simulator_ok)
    as (qc & pc & result & w' & Hloop & Hrun & Hpos & _ & Hteams);
    [apply default_ratings_gaps_bounded|exact five_teams_distinct|simpl; lia|lia|].
  destruct (Hteams "CSK"%string) as (counts & Hv & Hsum & _ & _ & Hbounds & Hprobs).
  { cbn. do 2 right. left. }
  exists qc, pc, result, w', counts.
  split; [exact Hloop|]. split; [exact Hrun|]. split; [apply Hpos; simpl; lia|].
  split; [exact Hv|]. split; [exact Hsum|]. split; [exact Hbounds|exact Hprobs].
Defined.

Lemma eleven_teams_distinct : NoDup (map team eleven_teams).
Proof. apply (bool_decide_unpack _). reflexivity. Qed.

(** C6, as stated, fails in two ways.  Over eleven teams with distinct
    identifiers a trial cannot give the eleventh team a rank: the call
    raises [IndexError].  And over five teams the position index 7, which
    the position vectors have, is counted 0 times, not once per trial. *)
Lemma run_simulation_one_rank_counterexample :
  (NoDup (map team eleven_teams)
   /\ exists w',
        run_simulation eleven_team_simulator 1 false eleven_team_world
        = (Raise IndexError, w'))
  /\ (NoDup (map team five_teams)
      /\ exists qc pc w',
           simulation_loop five_team_simulator (Z.to_nat 1000) true
             (init_qualification_count (self_teams five_team_simulator))
             (init_position_counts (self_teams five_team_simulator)) five_team_world
           = (Ok (qc, pc), w')
           /\ position_total pc (map team five_teams) 7 = 0
           /\ position_total pc (map team five_teams) 7 <> 1000).
Proof.
  split; split; [exact eleven_teams_distinct| |exact five_teams_distinct|].
  - eexists. vm_compute. reflexivity.
  - destruct (run_simulation_tallies five_team_simulator five_teams true 1000
                five_team_world five_team_simulator_ok)
      as (qc & pc & result & w' & Hloop & _ & _ & Hbeyond & _);
      [apply rating_gaps_bounded_nil|exact five_teams_distinct|simpl; lia|lia|].
    exists qc, pc, w'. split; [exact Hloop|].
    rewrite Hbeyond by (simpl; lia). split; [reflexivity|lia].
Qed.

(** ** [run_simulation] with no match left to play *)

Lemma current_top4_take data :
  current_top4 data = take 4 (map team (sorted_by_points_nrr data)).
Proof. unfold current_top4. symmetry. apply firstn_map. Qed.

Lemma sorted_teams_NoDup data :
  NoDup (map team data) -> NoDup (map team (sorted_by_points_nrr data)).
Proof.
  intros Hnd.
  assert (Hp : Permutation (map team data) (map team (sorted_by_points_nrr data)))
    by apply Permutation_map, sorted_by_points_nrr_perm.
  rewrite <- Hp. exact Hnd.
Qed.

Lemma NoDup_prefix {A} (n : nat) (l : list A) : NoDup l -> NoDup (take n l).
Proof.
  intros Hnd. rewrite <- (take_drop n l) in Hnd. apply NoDup_app in Hnd. tauto.
Qed.

Lemma tallied_current_step data k qc pc qc' pc' :
  (length data <= 10)%nat ->
  tallied_current data k qc pc ->
  record_positions 0 (sorted_by_points_nrr data) qc pc = Ok (qc', pc') ->
  tallied_current data (S k) qc' pc'.
Proof.
  intros Hlen [Hok Hqual] Hrec.
  destruct (record_positions_spec (map team data) (sorted_by_points_nrr data) 0 qc pc)
    as (qc2 & pc2 & Hrec2 & Hok2 & _ & Hqcell); [exact Hok| | |].
  { intros t Ht. apply list_elem_of_fmap_2.
    rewrite (sorted_by_points_nrr_perm data). exact Ht. }
  { rewrite sorted_by_points_nrr_length. lia. }
  rewrite Hrec in Hrec2. injection Hrec2 as <- <-.
  split; [exact Hok2|]. intros id.
  rewrite Hqcell, Hqual, current_top4_take. cbn [Nat.sub]. lia.
Qed.

(** With no match left, the qualification probability of a team is 1 when
    it is in the current top four and 0 when it is not. *)
Lemma run_simulation_no_fixtures {G} `{!RandomSource G} self data use_elo iterations
    (w : World G) :
  simulator_of w self data ->
  self_schedule self = [] ->
  NoDup (map team data) ->
  (length data <= 10)%nat ->
  0 < iterations ->
  exists result w',
    run_simulation self iterations use_elo w = (Ok result, w')
    /\ forall team_id,
         team_id ∈ map team data ->
         exists q,
           qualification_probability result !! team_id = Some q
           /\ (team_id ∈ current_top4 data -> (q == 1)%Q)
           /\ (team_id ∉ current_top4 data -> (q == 0)%Q).
Proof.
  intros Hsim Hnone Hnd Hlen Hpos.
  destruct (run_simulation_inv self data use_elo (tallied_current data) iterations w
              Hlen Hpos)
    as (qc & pc & w' & result & _ & Hinv & Hrun & _ & _ & Hres);
    [by intros k qc pc [Hok _]| | |exact Hsim
    |rewrite Hnone; apply rating_gaps_bounded_nil|].
  { intros k s qc pc qc' pc' Hinv _ Hs Hrec. rewrite (Hs Hnone) in Hrec.
    exact (tallied_current_step data k qc pc qc' pc' Hlen Hinv Hrec). }
  { split; [apply init_counts_ok|]. intros id. rewrite init_qcell. lia. }
  destruct Hinv as [_ Hqual]. rewrite Z2Nat.id in Hqual by lia.
  exists result, w'. split; [exact Hrun|].
  intros id Hid. destruct (Hres id Hid) as (Hq & _).
  eexists. split; [exact Hq|]. rewrite Hqual.
  assert (Htop : NoDup (current_top4 data)).
  { rewrite current_top4_take. apply NoDup_prefix, sorted_teams_NoDup, Hnd. }
  split.
  - intros Hin. rewrite (occurrences_NoDup id _ Htop Hin), Z.mul_1_r.
    apply probability_of_all. exact Hpos.
  - intros Hout. rewrite (occurrences_absent id _ Hout), Z.mul_0_r.
    apply probability_of_none.
Qed.



(** ** What [run_simulation] leaves untouched *)

Lemma untouched_refl {G} base (w : World G) : untouched base w w.
Proof. repeat split; lia. Qed.

Lemma untouched_trans {G} base (w1 w2 w3 : World G) :
  untouched base w1 w2 -> untouched base w2 w3 -> untouched base w1 w3.
Proof.
  intros (H1 & L1 & R1) (H2 & L2 & R2). split; [|split; [lia|congruence]].
  intros l Hl. rewrite H2, H1 by exact Hl. reflexivity.
Qed.

Lemma keeps_ret {G A} base (P : A -> Prop) (a : A) :
  P a -> keeps (G := G) base P (mret a).
Proof.
  intros HP w Hw. split; [apply untouched_refl|].
  intros a' Ha. injection Ha as <-. exact HP.
Qed.

Lemma keeps_lift {G A} base (o : Outcome A) : keeps (G := G) base (fun _ => True) (lift o).
Proof. intros w Hw. split; [apply untouched_refl|done]. Qed.

Lemma keeps_bind {G A B} base (P : A -> Prop) (Q : B -> Prop) (m : M G A)
    (f : A -> M G B) :
  keeps base P m -> (forall a, P a -> keeps base Q (f a)) -> keeps base Q (m ≫= f).
Proof.
  intros Hm Hf w Hw. destruct (Hm w Hw) as [Hu HP]. rewrite bind_run.
  destruct (m w) as [[a|e] w1]; cbn [fst snd] in *.
  - destruct (Hf a (HP a eq_refl) w1) as [Hu' HQ]; [destruct Hu as (_ & ? & _); lia|].
    split; [by eapply untouched_trans|exact HQ].
  - split; [exact Hu|]. intros b Hb. discriminate Hb.
Qed.

Lemma keeps_weaken {G A} base (P Q : A -> Prop) (m : M G A) :
  (forall a, P a -> Q a) -> keeps base P m -> keeps base Q m.
Proof.
  intros HPQ Hm w Hw. destruct (Hm w Hw) as [Hu HP]. split; [exact Hu|].
  intros a Ha. apply HPQ, HP, Ha.
Qed.

Lemma keeps_load {G} base l : keeps (G := G) base (fun _ => True) (load l).
Proof.
  intros w Hw. unfold load. destruct (heap w !! l); (split; [apply untouched_refl|done]).
Qed.

Lemma keeps_alloc {G} base t : keeps (G := G) base (fun l => (base <= l)%nat) (alloc t).
Proof.
  intros w Hw. unfold alloc. cbn [fst snd]. split.
  - split; [|split; [|reflexivity]]; cbn [heap].
    + intros l Hl. apply lookup_app_l. lia.
    + rewrite length_app. lia.
  - intros a Ha. injection Ha as <-. exact Hw.
Qed.

Lemma keeps_store {G} base l t :
  (base <= l)%nat -> keeps (G := G) base (fun _ => True) (store l t).
Proof.
  intros Hl w Hw. unfold store. destruct (heap w !! l); cbn [fst snd].
  - split; [|done]. split; [|split; [|reflexivity]]; cbn [heap].
    + intros l' Hl'. apply list_lookup_insert_ne. lia.
    + rewrite length_insert. lia.
  - split; [apply untouched_refl|done].
Qed.

Lemma keeps_get_ratings {G} base : keeps (G := G) base (fun _ => True) get_ratings.
Proof. intros w Hw. split; [apply untouched_refl|done]. Qed.

Lemma keeps_random_random {G} `{!RandomSource G} base :
  keeps (G := G) base (fun _ => True) random_random.
Proof.
  intros w Hw. unfold random_random. destruct (rng_random (rng w)) as [u g].
  split; [|done]. repeat split; cbn [snd heap]; lia.
Qed.

Lemma keeps_randbelow {G} `{!RandomSource G} base n :
  keeps (G := G) base (fun _ => True) (randbelow n).
Proof.
  intros w Hw. unfold randbelow. destruct (rng_randbelow n (rng w)) as [j g].
  split; [|done]. repeat split; cbn [snd heap]; lia.
Qed.

Lemma keeps_random_uniform {G} `{!RandomSource G} base a b :
  keeps (G := G) base (fun _ => True) (random_uniform a b).
Proof.
  unfold random_uniform. eapply keeps_bind; [apply keeps_random_random|].
  intros u _. by apply keeps_ret.
Qed.

Lemma keeps_load_all {G} base ls : keeps (G := G) base (fun _ => True) (load_all ls).
Proof.
  induction ls as [|l ls IH]; cbn [load_all]; [by apply keeps_ret|].
  eapply keeps_bind; [apply keeps_load|]. intros t _.
  eapply keeps_bind; [exact IH|]. intros ts _. by apply keeps_ret.
Qed.

Lemma memo_lookup_value base memo l l' :
  Forall (fun kv => (base <= kv.2)%nat) memo ->
  memo_lookup memo l = Some l' -> (base <= l')%nat.
Proof.
  induction 1 as [|[k v] memo Hkv _ IH]; cbn [memo_lookup]; [discriminate|].
  destruct (k =? l)%nat; [|exact IH]. intros H. injection H as <-. exact Hkv.
Qed.

(** The copies that [deepcopy] returns are new dictionaries. *)
Lemma keeps_deepcopy {G} base ls :
  forall memo,
    Forall (fun kv => (base <= kv.2)%nat) memo ->
    keeps (G := G) base (Forall (fun l => (base <= l)%nat)) (deepcopy memo ls).
Proof.
  induction ls as [|l ls IH]; intros memo Hmemo; cbn [deepcopy].
  - apply keeps_ret. constructor.
  - destruct (memo_lookup memo l) as [l'|] eqn:Hl.
    + eapply keeps_bind; [apply IH, Hmemo|]. intros rest' Hrest.
      apply keeps_ret. constructor; [|exact Hrest].
      eapply memo_lookup_value; eassumption.
    + eapply keeps_bind; [apply keeps_load|]. intros t _.
      eapply keeps_bind; [apply keeps_alloc|]. intros l' Hl'.
      eapply keeps_bind; [apply IH; constructor; assumption|]. intros rest' Hrest.
      apply keeps_ret. constructor; assumption.
Qed.

Lemma keeps_update_loop {G} `{!RandomSource G} base ls winner_id loser_id :
  Forall (fun l => (base <= l)%nat) ls ->
  keeps (G := G) base (fun _ => True) (update_loop ls winner_id loser_id).
Proof.
  induction 1 as [|l ls Hl _ IH]; cbn [update_loop]; [by apply keeps_ret|].
  eapply keeps_bind; [apply keeps_load|]. intros t _.
  eapply keeps_bind with (P := fun _ => True); [|intros _ _; exact IH].
  destruct (String.eqb (team t) winner_id); [|destruct (String.eqb (team t) loser_id)].
  - eapply keeps_bind; [apply keeps_random_uniform|]. intros u _. by apply keeps_store.
  - eapply keeps_bind; [apply keeps_random_uniform|]. intros u _. by apply keeps_store.
  - by apply keeps_ret.
Qed.

Lemma keeps_update_standings {G} `{!RandomSource G} base ls winner_id loser_id :
  Forall (fun l => (base <= l)%nat) ls ->
  keeps (G := G) base (Forall (fun l => (base <= l)%nat))
    (_update_standings ls winner_id loser_id).
Proof.
  intros Hls. unfold _update_standings.
  eapply keeps_bind; [by apply keeps_update_loop|]. intros _ _. by apply keeps_ret.
Qed.

Lemma keeps_simulate_match {G} `{!RandomSource G} base self m use_elo :
  keeps (G := G) base (fun _ => True) (simulate_match self m use_elo).
Proof.
  unfold simulate_match.
  eapply keeps_bind with (P := fun _ => True).
  - destruct use_elo; [|by apply keeps_ret].
    eapply keeps_bind; [apply keeps_get_ratings|]. intros r _. apply keeps_lift.
  - intros p _. eapply keeps_bind; [apply keeps_random_random|].
    intros u _. by apply keeps_ret.
Qed.

Lemma keeps_play_matches {G} `{!RandomSource G} base self matches use_elo :
  forall ls,
    Forall (fun l => (base <= l)%nat) ls ->
    keeps (G := G) base (Forall (fun l => (base <= l)%nat))
      (play_matches self matches use_elo ls).
Proof.
  induction matches as [|m rest IH]; intros ls Hls; cbn [play_matches].
  - by apply keeps_ret.
  - eapply keeps_bind; [apply keeps_simulate_match|]. intros winner _.
    eapply keeps_bind; [by apply keeps_update_standings|]. intros ls' Hls'.
    by apply IH.
Qed.

Lemma keeps_simulation_loop {G} `{!RandomSource G} base self n use_elo :
  forall qc pc,
    keeps (G := G) base (fun _ => True) (simulation_loop self n use_elo qc pc).
Proof.
  induction n as [|n IH]; intros qc pc; cbn [simulation_loop]; [by apply keeps_ret|].
  eapply keeps_bind; [apply keeps_deepcopy; constructor|]. intros ls Hls.
  eapply keeps_bind; [by apply keeps_play_matches|]. intros ls' Hls'.
  eapply keeps_bind; [apply keeps_load_all|]. intros data _.
  eapply keeps_bind; [apply keeps_lift|]. intros counts _. apply IH.
Qed.

Lemma keeps_run_simulation {G} `{!RandomSource G} base self iterations use_elo :
  keeps (G := G) base (fun _ => True) (run_simulation self iterations use_elo).
Proof.
  unfold run_simulation.
  eapply keeps_bind; [apply keeps_simulation_loop|]. intros counts _. apply keeps_lift.
Qed.

(** C8: whatever the number of trials and whether the call returns or
    raises, [run_simulation] leaves every dictionary that exists when it is
    called as it is, in particular every entry of the standings the
    simulator was built on, with all its fields; the trials write to the
    deep copies only.  The rating mapping is unchanged as well. *)
Theorem run_simulation_leaves_standings {G} `{!RandomSource G} self iterations use_elo
    (w : World G) :
  let w' := (run_simulation self iterations use_elo w).2 in
  (forall l t, heap w !! l = Some t -> heap w' !! l = Some t)
  /\ ratings w' = ratings w.
Proof.
  intros w'.
  destruct (keeps_run_simulation (length (heap w)) self iterations use_elo w)
    as [(Hheap & _ & Hratings) _]; [lia|].
  split; [|exact Hratings].
  intros l t Hl. fold w' in Hheap. rewrite Hheap; [exact Hl|].
  eapply lookup_lt_Some. exact Hl.
Qed.

(** ** [calculate_path_to_playoffs] for a team with no match left *)

Lemma filter_not_in_nil (schedule : list Fixture) :
  filter (fun m => m ∉ []) schedule = schedule.
Proof.
  induction schedule as [|m schedule IH]; [reflexivity|].
  rewrite filter_cons_True by apply not_elem_of_nil. by rewrite IH.
Qed.

Lemma get_playoff_teams_seq {G} (pre cur : list TeamStanding) (g : G) r :
  _get_playoff_teams (seq (length pre) (length cur)) (mkWorld (pre ++ cur) g r)
  = (Ok (current_top4 cur), mkWorld (pre ++ cur) g r).
Proof.
  unfold _get_playoff_teams. rewrite bind_run, load_all_seq. reflexivity.
Qed.

(** One trial of [_simulate_with_fixed_wins] for a team without remaining
    matches: all the matches of the schedule are played with the rating
    model, and the team counts as qualified when it is among the first four
    afterwards. *)
Lemma fixed_wins_trial {G} `{!RandomSource G} self data team_id wins (w : World G) :
  simulator_of w self data ->
  rating_gaps_bounded (ratings w) true (self_schedule self) ->
  let played :=
    play_vals (ratings w) (elo_home_away_stats (self_elo self)) (self_schedule self)
      true data (rng w) in
  forall n c,
    fixed_wins_loop self team_id wins [] (S n) c w
    = fixed_wins_loop self team_id wins [] n
        (if bool_decide (team_id ∈ current_top4 played.1) then c + 1 else c)
        (mkWorld (heap w ++ played.1) played.2 (ratings w)).
Proof.
  intros Hsim Hb played n c. cbn [fixed_wins_loop].
  rewrite (bind_ok _ _ _ _ _ (clone_standings_spec w self data Hsim)).
  rewrite bind_run. unfold random_shuffle at 1. cbn [length Nat.sub shuffle_loop].
  unfold mret at 1, M_ret at 1.
  rewrite take_nil, drop_nil. cbn [forced_wins forced_losses].
  rewrite bind_run. unfold mret at 1, M_ret at 1.
  rewrite bind_run. unfold mret at 1, M_ret at 1.
  rewrite filter_not_in_nil.
  rewrite bind_run, play_matches_spec by exact Hb. fold played.
  rewrite bind_run, get_playoff_teams_seq. reflexivity.
Qed.

(** The trials of [_simulate_with_fixed_wins] for a team without remaining
    matches return, with a count between the one they start from and that
    plus the number of trials; when every trial has the same verdict [b],
    the count is all the trials or none. *)
Lemma fixed_wins_loop_spec {G} `{!RandomSource G} self data team_id wins n :
  forall c (w : World G),
    simulator_of w self data ->
    rating_gaps_bounded (ratings w) true (self_schedule self) ->
    exists c' w',
      fixed_wins_loop self team_id wins [] n c w = (Ok c', w')
      /\ simulator_of w' self data
      /\ ratings w' = ratings w
      /\ c <= c' <= c + Z.of_nat n
      /\ forall b : bool,
           (forall g,
              bool_decide
                (team_id ∈ current_top4
                   (play_vals (ratings w) (elo_home_away_stats (self_elo self))
                      (self_schedule self) true data g).1) = b) ->
           c' = if b then c + Z.of_nat n else c.
Proof.
  induction n as [|n IH]; intros c w Hsim Hgaps.
  - exists c, w. split; [reflexivity|]. split; [exact Hsim|]. split; [reflexivity|].
    split; [lia|]. intros [|] _; lia.
  - rewrite (fixed_wins_trial self data team_id wins w Hsim Hgaps).
    set (played := play_vals (ratings w) (elo_home_away_stats (self_elo self))
                     (self_schedule self) true data (rng w)).
    set (c1 := if bool_decide (team_id ∈ current_top4 played.1) then c + 1 else c).
    destruct (IH c1 (mkWorld (heap w ++ played.1) played.2 (ratings w)))
      as (c' & w' & Hloop & Hsim' & Hr & Hbounds & Hsame);
      [apply simulator_of_extend; exact Hsim|exact Hgaps|].
    cbn [ratings] in Hr, Hsame.
    exists c', w'. split; [exact Hloop|]. split; [exact Hsim'|]. split; [exact Hr|].
    assert (Hc1 : c <= c1 <= c + 1) by (unfold c1; case_bool_decide; lia).
    split; [lia|].
    intros b Hb. rewrite (Hsame b Hb). unfold c1, played. rewrite (Hb (rng w)).
    destruct b; lia.
Qed.

Lemma simulate_with_fixed_wins_spec {G} `{!RandomSource G} self data team_id wins
    iterations (w : World G) :
  simulator_of w self data ->
  rating_gaps_bounded (ratings w) true (self_schedule self) ->
  0 < iterations ->
  exists q w',
    _simulate_with_fixed_wins self team_id wins [] iterations w = (Ok q, w')
    /\ (0 <= q <= 1)%Q
    /\ forall b : bool,
         (forall g,
            bool_decide
              (team_id ∈ current_top4
                 (play_vals (ratings w) (elo_home_away_stats (self_elo self))
                    (self_schedule self) true data g).1) = b) ->
         q = probability_of (if b then iterations else 0) iterations.
Proof.
  intros Hsim Hgaps Hpos.
  destruct (fixed_wins_loop_spec self data team_id wins (Z.to_nat iterations) 0 w Hsim
              Hgaps)
    as (c & w' & Hloop & _ & _ & Hbounds & Hsame).
  rewrite Z2Nat.id in Hbounds, Hsame by lia.
  exists (probability_of c iterations), w'.
  split; [|split].
  - unfold _simulate_with_fixed_wins. rewrite (bind_ok _ _ _ _ _ Hloop).
    unfold lift. rewrite true_div_nonzero by lia. reflexivity.
  - apply probability_of_bounds; lia.
  - intros b Hb. rewrite (Hsame b Hb). destruct b; reflexivity.
Qed.

Lemma find_standing_absent data team_id :
  find_standing data team_id = None -> team_id ∉ map team data.
Proof.
  induction data as [|t data IH]; cbn [find_standing map]; [intros _; apply not_elem_of_nil|].
  destruct (String.eqb_spec (team t) team_id) as [_|Hne]; [discriminate|].
  intros H. apply not_elem_of_cons. split; [congruence|apply IH, H].
Qed.

Lemma current_top4_teams data team_id :
  team_id ∈ current_top4 data -> team_id ∈ map team data.
Proof.
  unfold current_top4. intros Hin.
  apply list_elem_of_fmap in Hin as (t & -> & Ht). apply list_elem_of_fmap_2.
  rewrite (sorted_by_points_nrr_perm data).
  rewrite <- (take_drop 4 (sorted_by_points_nrr data)). apply elem_of_app. by left.
Qed.

Lemma no_remaining_matches schedule team_id :
  (forall m, m ∈ schedule -> homeTeam m <> team_id /\ awayTeam m <> team_id) ->
  filter (fun m => homeTeam m = team_id \/ awayTeam m = team_id) schedule = [].
Proof.
  induction schedule as [|m schedule IH]; intros Hnone; [reflexivity|].
  rewrite filter_cons_False.
  - apply IH. intros m' Hm'. apply Hnone. by right.
  - destruct (Hnone m) as [H1 H2]; [left|]. tauto.
Qed.

(** For a team without remaining matches, [calculate_path_to_playoffs]
    returns one entry, for the win count 0; its probability is that of
    [_simulate_with_fixed_wins] with 0 wins. *)
Lemma calculate_path_no_remaining {G} `{!RandomSource G} self data team_id iterations
    (w : World G) :
  simulator_of w self data ->
  rating_gaps_bounded (ratings w) true (self_schedule self) ->
  (forall m, m ∈ self_schedule self -> homeTeam m <> team_id /\ awayTeam m <> team_id) ->
  0 < iterations ->
  exists results w' entry,
    calculate_path_to_playoffs self team_id iterations w = (Ok results, w')
    /\ path_entries results = {[ 0 := entry ]}
    /\ (0 <= entry_qualification_probability entry <= 1)%Q
    /\ forall b : bool,
         (forall g,
            bool_decide
              (team_id ∈ current_top4
                 (play_vals (ratings w) (elo_home_away_stats (self_elo self))
                    (self_schedule self) true data g).1) = b) ->
         (entry_qualification_probability entry
          == if b then 1 else 0)%Q.
Proof.
  intros Hsim Hgaps Hnone Hpos. pose proof Hsim as (_ & Hpts & _).
  unfold calculate_path_to_playoffs.
  rewrite (bind_ok _ _ _ _ _ (load_all_spec w _ data Hpts)).
  destruct (find_standing data team_id) as [ts|] eqn:Hfind.
  - rewrite (no_remaining_matches _ _ Hnone). cbn [length Nat.add path_loop].
    destruct (simulate_with_fixed_wins_spec self data team_id 0 iterations w Hsim Hgaps
                Hpos)
      as (q & w' & Hrun & Hq & Hsame).
    rewrite (bind_ok _ _ _ _ _ Hrun). cbn [path_entries min_wins_needed min_points_needed].
    assert (Hentries : <[Z.of_nat 0 := mkEntry (points ts + Z.of_nat 0 * 2) q]>
                         (∅ : gmap Z PathEntry)
                       = {[ 0 := mkEntry (points ts + Z.of_nat 0 * 2) q ]})
      by reflexivity.
    assert (Hb : forall b : bool,
              (forall g,
                 bool_decide
                   (team_id ∈ current_top4
                      (play_vals (ratings w) (elo_home_away_stats (self_elo self))
                         (self_schedule self) true data g).1) = b) ->
              (q == if b then 1 else 0)%Q).
    { intros b Hsame'. rewrite (Hsame b Hsame'). destruct b.
      - apply probability_of_all. exact Hpos.
      - apply probability_of_none. }
    destruct (Qle_bool (9 # 10) q).
    + eexists _, w', _. split; [reflexivity|]. cbn [path_entries].
      split; [exact Hentries|]. split; [exact Hq|exact Hb].
    + eexists _, w', _. split; [reflexivity|]. cbn [path_entries].
      split; [exact Hentries|]. split; [exact Hq|exact Hb].
  - eexists _, w, _. split; [reflexivity|]. cbn [path_entries].
    split; [reflexivity|]. cbn [entry_qualification_probability].
    split; [split; discriminate|].
    intros b Hb. destruct b; [|reflexivity]. exfalso.
    specialize (Hb (rng w)). apply bool_decide_eq_true_1 in Hb.
    apply current_top4_teams in Hb. rewrite play_vals_teams in Hb.
    exact (find_standing_absent data team_id Hfind Hb).
Qed.



(** With the rating model on, a draw of 0 gives the match to the home
    team: the win probability is above 0. *)
Lemma match_winner_zero_draw ratings home_away_stats m :
  match_winner ratings home_away_stats m true () = (homeTeam m, ()).
Proof.
  unfold match_winner. cbn [rng_random zero_source].
  destruct (Rlt_dec (Q2R 0) _) as [_|Hn]; [reflexivity|].
  exfalso. apply Hn. unfold Q2R. cbn [Qnum Qden]. rewrite Rmult_0_l.
  apply calculate_win_probability_bounds.
Qed.


(** ** The constructors

    The simulators of the statements above are what the pipeline of
    [main.py] builds: the standings are loaded into new dictionaries, the
    rating model computes its ratings once, and the simulator reads the
    team identifiers off the standings. *)

Lemma load_standings_spec {G} data :
  forall w : World G,
    load_standings data w
    = (Ok (seq (length (heap w)) (length data)),
       mkWorld (heap w ++ data) (rng w) (ratings w)).
Proof.
  induction data as [|t data IH]; intros w.
  - cbn. rewrite app_nil_r. by destruct w.
  - cbn [load_standings]. rewrite bind_run. unfold alloc at 1.
    rewrite bind_run, IH. cbn [heap rng ratings length seq].
    rewrite length_app, <- app_assoc. cbn [length app].
    rewrite Nat.add_1_r. reflexivity.
Qed.

Lemma MonteCarloSimulator_init_spec {G} (w : World G) standings data schedule
    elo_calculator :
  NoDup standings ->
  Forall2 (fun l t => heap w !! l = Some t) standings data ->
  MonteCarloSimulator_init standings schedule elo_calculator w
  = (Ok (mkSim standings schedule elo_calculator (map team data)), w)
  /\ simulator_of w (mkSim standings schedule elo_calculator (map team data)) data.
Proof.
  intros Hnd Hpts. split.
  - unfold MonteCarloSimulator_init, _extract_teams.
    rewrite bind_run, bind_run, (load_all_spec w standings data Hpts). reflexivity.
  - split; [exact Hnd|]. split; [exact Hpts|reflexivity].
Qed.

Lemma EloCalculator_init_spec {G} (w : World G) standings data form_factor
    home_away_stats :
  Forall2 (fun l t => heap w !! l = Some t) standings data ->
  NoDup (map team data) ->
  exists r,
    _initialize_elo_ratings data form_factor = Some r
    /\ EloCalculator_init standings form_factor home_away_stats w
       = (Ok (mkElo form_factor home_away_stats), mkWorld (heap w) (rng w) r).
Proof.
  intros Hpts Hnd.
  destruct (initialize_elo_ratings_spec data form_factor Hnd) as (r & Hr & _).
  exists r. split; [exact Hr|].
  unfold EloCalculator_init. rewrite bind_run, (load_all_spec w standings data Hpts), Hr.
  reflexivity.
Qed.

(** The five-team simulator is the one the constructors build from the
    five records. *)
Example five_team_simulator_built :
  load_standings five_teams (mkWorld [] () ∅) = (Ok [0; 1; 2; 3; 4]%nat, five_team_world)
  /\ MonteCarloSimulator_init [0; 1; 2; 3; 4]%nat [] (mkElo [] []) five_team_world
     = (Ok five_team_simulator, five_team_world).
Proof. split; reflexivity. Qed.

(** * Further properties of the code *)

(** ** Rating model *)

Lemma weighted_form_bounds form :
  forall ws,
    Forall (fun w => 0 <= w)%R ws ->
    (-5 * sum_R ws
     <= foldr Rplus 0 (zip_with (fun result w => result_value result * w) form ws)
     <= 10 * sum_R ws)%R.
Proof.
  induction form as [|result form IH]; intros ws Hws.
  - cbn [zip_with foldr].
    assert (0 <= sum_R ws)%R; [|lra].
    unfold sum_R. induction Hws as [|w ws Hw _ IHws]; cbn [foldr]; lra.
  - destruct Hws as [|w ws Hw Hws].
    + unfold sum_R. cbn [zip_with foldr]. lra.
    + cbn [zip_with foldr]. specialize (IH ws Hws). unfold sum_R in *. cbn [foldr].
      cbn beta in Hw.
      generalize dependent (foldr Rplus 0%R
        (zip_with (fun result w => result_value result * w)%R form ws)).
      generalize (foldr Rplus 0%R ws). intros s f IH.
      unfold result_value.
      destruct (String.eqb result "W"); [lra|].
      destruct (String.eqb result "L"); lra.
Qed.

(** The form bonus of a team lies between -15 (five losses) and 30 (five
    wins), whatever its recent form, and also when the form sequence is
    longer than the five weights. *)
Theorem calculate_form_bonus_bounds form_factor team_id :
  (-15 <= _calculate_form_bonus form_factor team_id <= 30)%R.
Proof.
  rewrite calculate_form_bonus_spec. unfold form_bonus_spec.
  pose proof (weighted_form_bounds (form_of form_factor team_id) weights) as H.
  assert (Hsum : sum_R weights = 3%R) by (unfold sum_R, weights; cbn [foldr]; lra).
  rewrite Hsum in H. 
  assert (Hpos : Forall (fun w => 0 <= w)%R weights).
  { unfold weights. repeat constructor; lra. }
  specialize (H Hpos). lra.
Qed.

Lemma adjust_ratings_general form_factor standings :
  forall ratings : gmap string R,
    (forall t, t ∈ standings -> is_Some (ratings !! team t)) ->
    exists ratings',
      adjust_ratings form_factor standings ratings = Some ratings'
      /\ forall team_id,
           match ratings !! team_id with
           | Some r =>
               exists r', ratings' !! team_id = Some r'
                          /\ r' = (r + total_adjustment form_factor standings team_id)%R
           | None => ratings' !! team_id = None
           end.
Proof.
  induction standings as [|t rest IH]; intros ratings Hdom.
  - exists ratings. split; [reflexivity|]. intros id.
    destruct (ratings !! id) as [r|]; [|reflexivity].
    exists r. split; [reflexivity|]. cbn. lra.
  - destruct (Hdom t) as [r Hr]; [left|].
    destruct (adjust_rating_spec form_factor t ratings r Hr) as (r1 & Hadj & Hr1).
    cbn [adjust_ratings]. rewrite Hadj. cbn [mbind option_bind].
    destruct (IH (<[team t := r1]> ratings)) as (ratings' & Hrun & Hall).
    { intros u Hu. destruct (decide (team t = team u)) as [->|Hne].
      - rewrite lookup_insert_eq. eauto.
      - rewrite lookup_insert_ne by done. apply Hdom. by right. }
    exists ratings'. split; [exact Hrun|]. intros id. specialize (Hall id).
    cbn [total_adjustment]. destruct (String.eqb_spec (team t) id) as [<-|Hne].
    + rewrite lookup_insert_eq in Hall. rewrite Hr.
      destruct Hall as (r' & Hr' & Heq). exists r'. split; [exact Hr'|].
      unfold rating_adjustment. lra.
    + rewrite lookup_insert_ne in Hall by done. exact Hall.
Qed.

(** [_initialize_elo_ratings] never fails, also when an identifier occurs
    in several entries of the standings: the rating of a team is 1500 plus
    the adjustments of all its entries, and a team that is not in the
    standings has no rating, so that [get_team_rating] answers 1500. *)
Theorem initialize_elo_ratings_total standings form_factor :
  exists ratings,
    _initialize_elo_ratings standings form_factor = Some ratings
    /\ forall team_id,
         (team_id ∈ map team standings ->
          exists r, ratings !! team_id = Some r
                    /\ r = (1500 + total_adjustment form_factor standings team_id)%R)
         /\ (team_id ∉ map team standings ->
             ratings !! team_id = None /\ get_team_rating ratings team_id = 1500%R).
Proof.
  unfold _initialize_elo_ratings.
  set (base := gset_to_gmap 1500%R (list_to_set (map team standings) : gset string)).
  assert (Hbase : forall id,
            base !! id = if decide (id ∈ map team standings) then Some 1500%R else None).
  { intros id. unfold base. rewrite lookup_gset_to_gmap.
    destruct (decide (id ∈ map team standings)) as [Hin|Hout].
    - rewrite option_guard_True by (by apply elem_of_list_to_set). reflexivity.
    - rewrite option_guard_False; [reflexivity|].
      intros Hin. apply Hout. by apply elem_of_list_to_set in Hin. }
  destruct (adjust_ratings_general form_factor standings base) as (ratings & Hrun & Hall).
  { intros t Ht. rewrite Hbase, decide_True; [eauto|]. by apply list_elem_of_fmap_2. }
  exists ratings. split; [exact Hrun|]. intros id. specialize (Hall id).
  rewrite Hbase in Hall. split.
  - intros Hin. rewrite decide_True in Hall by exact Hin. exact Hall.
  - intros Hout. rewrite decide_False in Hall by exact Hout.
    split; [exact Hall|]. unfold get_team_rating. rewrite Hall. reflexivity.
Qed.

Lemma logistic_antitone (e1 e2 : R) :
  (0 < e1 -> e1 <= e2 -> 1 / (1 + e2) <= 1 / (1 + e1))%R.
Proof.
  intros Hpos Hle. unfold Rdiv. rewrite !Rmult_1_l.
  apply Rinv_le_contravar; lra.
Qed.

(** The win probability of the home team does not fall when its rating
    rises and that of the away team falls. *)
Theorem calculate_win_probability_monotone ratings1 ratings2 home_away_stats
    home_team away_team :
  (get_team_rating ratings1 home_team <= get_team_rating ratings2 home_team)%R ->
  (get_team_rating ratings2 away_team <= get_team_rating ratings1 away_team)%R ->
  (calculate_win_probability ratings1 home_away_stats home_team away_team
   <= calculate_win_probability ratings2 home_away_stats home_team away_team)%R.
Proof.
  intros Hhome Haway. unfold calculate_win_probability.
  apply logistic_antitone; [apply Rpower_pos|].
  apply Rle_Rpower; lra.
Qed.

Lemma calculate_win_probability_monotone_witness :
  (calculate_win_probability (<["CSK" := 1500%R]> ∅) [] "CSK" "MI"
   <= calculate_win_probability (<["CSK" := 1600%R]> ∅) [] "CSK" "MI")%R.
Proof.
  apply (calculate_win_probability_monotone (<["CSK" := 1500%R]> ∅)
           (<["CSK" := 1600%R]> ∅) [] "CSK" "MI").
  - unfold get_team_rating. rewrite !lookup_insert_eq. cbn. lra.
  - unfold get_team_rating. rewrite !lookup_insert_ne by discriminate.
    rewrite !lookup_empty. cbn. lra.
Defined.

(** The floor of the home advantage: a home record never gives a lower win
    probability than no record at all, and a home win rate below 0.8 gives
    exactly the win probability of a team without a record. *)
Theorem home_advantage_floor ratings home_away_stats home_team away_team :
  (calculate_win_probability ratings [] home_team away_team
   <= calculate_win_probability ratings home_away_stats home_team away_team)%R
  /\ ((home_win_rate home_away_stats home_team < 0.8)%R ->
      calculate_win_probability ratings home_away_stats home_team away_team
      = calculate_win_probability ratings [] home_team away_team).
Proof.
  unfold calculate_win_probability.
  rewrite (find_home_advantage_spec home_away_stats).
  cbn [find_home_advantage]. rewrite (Rmax_left 30 0) by lra. split.
  - apply logistic_antitone; [apply Rpower_pos|].
    apply Rle_Rpower; [lra|].
    pose proof (Rmax_l 30 ((home_win_rate home_away_stats home_team - 0.5) * 100)).
    lra.
  - intros Hrate. rewrite Rmax_left by lra. reflexivity.
Qed.

Lemma home_advantage_floor_witness :
  calculate_win_probability ∅ [mkSplit "CSK" (1 # 5) (1 # 2)] "CSK" "MI"
  = calculate_win_probability ∅ [] "CSK" "MI".
Proof.
  apply (home_advantage_floor ∅ [mkSplit "CSK" (1 # 5) (1 # 2)] "CSK" "MI").
  cbn. unfold Q2R. cbn. lra.
Defined.

(** With a k-factor that is not negative, [update_ratings] never lowers
    the rating of the winner and never raises that of the loser. *)
Theorem update_ratings_direction ratings home_away_stats home_team away_team
    home_team_won k_factor :
  (0 <= k_factor)%R ->
  let new :=
    new_ratings ratings home_away_stats home_team away_team home_team_won k_factor in
  let home_rating := get_team_rating ratings home_team in
  let away_rating := get_team_rating ratings away_team in
  if home_team_won
  then (home_rating <= new.1 /\ new.2 <= away_rating)%R
  else (new.1 <= home_rating /\ away_rating <= new.2)%R.
Proof.
  intros Hk new home_rating away_rating. unfold new, new_ratings. cbn [fst snd].
  fold home_rating away_rating.
  pose proof (calculate_win_probability_bounds ratings home_away_stats home_team away_team)
    as [Hp0 Hp1].
  generalize dependent (calculate_win_probability ratings home_away_stats home_team away_team).
  intros p Hp0 Hp1. destruct home_team_won; nra.
Qed.

Lemma update_ratings_direction_witness :
  (get_team_rating ∅ "CSK" <= (new_ratings ∅ [] "CSK" "MI" true 32).1
   /\ (new_ratings ∅ [] "CSK" "MI" true 32).2 <= get_team_rating ∅ "MI")%R.
Proof.
  apply (update_ratings_direction ∅ [] "CSK" "MI" true 32%R). lra.
Defined.



Lemma initialize_elo_ratings_total_witness :
  exists ratings r,
    _initialize_elo_ratings
      [mkStanding "CSK" 10 6 4 12 (3 # 10); mkStanding "CSK" 2 1 1 2 0] [] = Some ratings
    /\ ratings !! "CSK"%string = Some r
    /\ r = (1500 + total_adjustment []
                     [mkStanding "CSK" 10 6 4 12 (3 # 10); mkStanding "CSK" 2 1 1 2 0]
                     "CSK")%R.
Proof.
  destruct (initialize_elo_ratings_total
              [mkStanding "CSK" 10 6 4 12 (3 # 10); mkStanding "CSK" 2 1 1 2 0] [])
    as (ratings & Hrun & Hall).
  destruct (Hall "CSK"%string) as [Hin _].
  destruct Hin as (r & Hr & Heq); [cbn; left|].
  exists ratings, r. split; [exact Hrun|]. split; [exact Hr|exact Heq].
Defined.

(** ** [_update_standings] *)

Lemma update_vals_length {G} `{!RandomSource G} winner_id loser_id cur (g : G) :
  length (update_vals cur winner_id loser_id g).1 = length cur.
Proof. apply map_team_length, update_vals_teams. Qed.

Lemma points_to_insert {G} (w : World G) refs data l t1 (g : G) r :
  l ∉ refs ->
  points_to w refs data ->
  points_to (mkWorld (<[l := t1]> (heap w)) g r) refs data.
Proof.
  intros Hl Hpts. induction Hpts as [|l' t refs data Hl' _ IH]; [constructor|].
  apply not_elem_of_cons in Hl as [Hne Hl].
  constructor; [|exact (IH Hl)].
  cbn [heap]. by rewrite list_lookup_insert_ne.
Qed.

(** On distinct dictionaries, the loop of [_update_standings] leaves the
    references holding the records that [update_vals] computes, and every
    other dictionary as it was. *)
Lemma update_loop_general {G} `{!RandomSource G} winner_id loser_id refs :
  forall data (w : World G),
    NoDup refs ->
    points_to w refs data ->
    exists w',
      update_loop refs winner_id loser_id w = (Ok (), w')
      /\ points_to w' refs (update_vals data winner_id loser_id (rng w)).1
      /\ rng w' = (update_vals data winner_id loser_id (rng w)).2
      /\ ratings w' = ratings w
      /\ length (heap w') = length (heap w)
      /\ forall l, l ∉ refs -> heap w' !! l = heap w !! l.
Proof.
  induction refs as [|l refs IH]; intros data w Hnd Hpts.
  - inversion Hpts; subst. exists w. cbn. repeat split; constructor.
  - inversion Hpts as [|? t ? rest Hl Hrest]; subst.
    apply NoDup_cons in Hnd as [Hfresh Hnd].
    cbn [update_loop update_vals].
    rewrite (bind_ok _ _ _ _ _ (load_run _ _ _ Hl)).
    (* the world after the entry at [l] has been dealt with *)
    assert (Hstep : forall (t1 : TeamStanding) (g1 : G),
              exists w',
                update_loop refs winner_id loser_id
                  (mkWorld (<[l := t1]> (heap w)) g1 (ratings w)) = (Ok (), w')
                /\ points_to w' (l :: refs) (t1 :: (update_vals rest winner_id loser_id g1).1)
                /\ rng w' = (update_vals rest winner_id loser_id g1).2
                /\ ratings w' = ratings w
                /\ length (heap w') = length (heap w)
                /\ forall l', l' ∉ l :: refs -> heap w' !! l' = heap w !! l').
    { intros t1 g1.
      destruct (IH rest (mkWorld (<[l := t1]> (heap w)) g1 (ratings w)) Hnd)
        as (w' & Hrun & Hpts' & Hrng & Hr & Hlen & Hframe).
      { apply points_to_insert; assumption. }
      exists w'. cbn [heap rng ratings] in *.
      split; [exact Hrun|]. split; [|split; [exact Hrng|split; [exact Hr|split]]].
      - constructor; [|exact Hpts'].
        rewrite (Hframe l Hfresh).
        apply list_lookup_insert_eq. eapply lookup_lt_Some; exact Hl.
      - rewrite Hlen. apply length_insert.
      - intros l' Hl'. apply not_elem_of_cons in Hl' as [Hne Hl'].
        rewrite (Hframe l' Hl'). by apply list_lookup_insert_ne. }
    destruct (String.eqb (team t) winner_id); [|destruct (String.eqb (team t) loser_id)].
    + rewrite bind_run, bind_run, random_uniform_run. cbn [heap rng ratings].
      destruct (uniform_draw (rng w)) as [u g1]. cbn [fst snd].
      rewrite (store_run (mkWorld (heap w) g1 (ratings w)) _ t) by exact Hl.
      cbn [heap rng ratings].
      destruct (Hstep (winner_update t u) g1) as (w' & Hrun & Hrest').
      exists w'. rewrite Hrun.
      destruct (update_vals rest winner_id loser_id g1) as [rest' g2].
      split; [reflexivity|exact Hrest'].
    + rewrite bind_run, bind_run, random_uniform_run. cbn [heap rng ratings].
      destruct (uniform_draw (rng w)) as [u g1]. cbn [fst snd].
      rewrite (store_run (mkWorld (heap w) g1 (ratings w)) _ t) by exact Hl.
      cbn [heap rng ratings].
      destruct (Hstep (loser_update t u) g1) as (w' & Hrun & Hrest').
      exists w'. rewrite Hrun.
      destruct (update_vals rest winner_id loser_id g1) as [rest' g2].
      split; [reflexivity|exact Hrest'].
    + rewrite bind_run. unfold mret at 1, M_ret at 1.
      destruct (Hstep t (rng w)) as (w' & Hrun & Hrest').
      rewrite list_insert_id in Hrun by exact Hl.
      replace (mkWorld (heap w) (rng w) (ratings w)) with w in Hrun by (by destruct w).
      exists w'. rewrite Hrun.
      destruct (update_vals rest winner_id loser_id (rng w)) as [rest' g2].
      split; [reflexivity|exact Hrest'].
Qed.

Lemma update_vals_entries {G} `{!RandomSource G} winner_id loser_id data :
  forall g : G,
    Forall2 (updated_entry winner_id loser_id) data
      (update_vals data winner_id loser_id g).1.
Proof.
  induction data as [|t data IH]; intros g; [constructor|].
  cbn [update_vals].
  destruct (String.eqb_spec (team t) winner_id) as [Hw|Hw];
    [|destruct (String.eqb_spec (team t) loser_id) as [Hl|Hl]].
  - destruct (uniform_draw g) as [u g1]. specialize (IH g1).
    destruct (update_vals data winner_id loser_id g1) as [rest' g2].
    constructor; [|exact IH].
    split; [reflexivity|]. split; [intros _; repeat split|]. split; intros; contradiction.
  - destruct (uniform_draw g) as [u g1]. specialize (IH g1).
    destruct (update_vals data winner_id loser_id g1) as [rest' g2].
    constructor; [|exact IH].
    split; [reflexivity|]. split; [intros; contradiction|].
    split; [intros _ _; repeat split|intros; contradiction].
  - specialize (IH g).
    destruct (update_vals data winner_id loser_id g) as [rest' g2].
    constructor; [|exact IH].
    split; [reflexivity|]. split; [intros; contradiction|].
    split; [intros; contradiction|reflexivity].
Qed.

(** [_update_standings] on distinct dictionaries returns the list it was
    given; it never fails, also when the winner or the loser is not in the
    standings; afterwards an entry of the winner has one more match, one
    more win and two more points, an entry of the loser one more match and
    one more loss, and every other entry, every other dictionary and the
    rating mapping are unchanged. *)
Theorem update_standings_effect {G} `{!RandomSource G} winner_id loser_id refs data
    (w : World G) :
  NoDup refs ->
  points_to w refs data ->
  exists w' data',
    _update_standings refs winner_id loser_id w = (Ok refs, w')
    /\ points_to w' refs data'
    /\ Forall2 (updated_entry winner_id loser_id) data data'
    /\ (forall l, l ∉ refs -> heap w' !! l = heap w !! l)
    /\ ratings w' = ratings w.
Proof.
  intros Hnd Hpts.
  destruct (update_loop_general winner_id loser_id refs data w Hnd Hpts)
    as (w' & Hrun & Hpts' & _ & Hr & _ & Hframe).
  exists w', (update_vals data winner_id loser_id (rng w)).1.
  split; [|split; [exact Hpts'|split; [apply update_vals_entries|split; assumption]]].
  unfold _update_standings. rewrite (bind_ok _ _ _ _ _ Hrun). reflexivity.
Qed.

Lemma five_teams_loaded : points_to five_team_world [0; 1; 2; 3; 4]%nat five_teams.
Proof. repeat constructor. Qed.

Lemma update_standings_effect_witness :
  exists w' data',
    _update_standings [0; 1; 2; 3; 4]%nat "KKR" "MI" five_team_world
    = (Ok [0; 1; 2; 3; 4]%nat, w')
    /\ points_to w' [0; 1; 2; 3; 4]%nat data'
    /\ Forall2 (updated_entry "KKR" "MI") five_teams data'
    /\ (forall l, l ∉ [0; 1; 2; 3; 4]%nat -> heap w' !! l = heap five_team_world !! l)
    /\ ratings w' = ratings five_team_world.
Proof.
  apply (update_standings_effect "KKR" "MI" [0; 1; 2; 3; 4]%nat five_teams
           five_team_world).
  - apply (NoDup_seq 0 5).
  - exact five_teams_loaded.
Defined.

(** ** The matches of a trial *)

Lemma match_winner_side {G} `{!RandomSource G} ratings home_away_stats m use_elo (g : G) :
  (match_winner ratings home_away_stats m use_elo g).1 = homeTeam m
  \/ (match_winner ratings home_away_stats m use_elo g).1 = awayTeam m.
Proof.
  unfold match_winner. destruct (rng_random g) as [u g'].
  destruct (Rlt_dec _ _); [left|right]; reflexivity.
Qed.

Lemma play_matches_general {G} `{!RandomSource G} self matches use_elo refs :
  forall data (w : World G),
    NoDup refs ->
    points_to w refs data ->
    rating_gaps_bounded (ratings w) use_elo matches ->
    let played :=
      play_vals (ratings w) (elo_home_away_stats (self_elo self)) matches use_elo
        data (rng w) in
    exists w',
      play_matches self matches use_elo refs w = (Ok refs, w')
      /\ points_to w' refs played.1
      /\ rng w' = played.2
      /\ ratings w' = ratings w
      /\ length (heap w') = length (heap w)
      /\ forall l, l ∉ refs -> heap w' !! l = heap w !! l.
Proof.
  induction matches as [|m rest IH]; intros data w Hnd Hpts Hb played.
  - exists w. cbn. repeat split; assumption.
  - apply rating_gaps_bounded_inv in Hb as [Hgap Hb].
    unfold played. cbn [play_matches play_vals].
    rewrite bind_run, simulate_match_run by exact Hgap. cbn [heap rng ratings].
    destruct (match_winner (ratings w) (elo_home_away_stats (self_elo self)) m use_elo
                (rng w)) as [winner g1]. cbn [fst snd].
    set (loser := if String.eqb winner (homeTeam m) then awayTeam m else homeTeam m).
    destruct (update_loop_general winner loser refs data
                (mkWorld (heap w) g1 (ratings w)) Hnd Hpts)
      as (w1 & Hrun & Hpts1 & Hrng1 & Hr1 & Hlen1 & Hframe1).
    cbn [heap rng ratings] in *.
    unfold _update_standings. rewrite bind_run, bind_run, Hrun.
    unfold mret at 1, M_ret at 1.
    destruct (update_vals data winner loser g1) as [cur' g2]. cbn [fst snd] in *.
    destruct (IH cur' w1 Hnd Hpts1) as (w' & Hplay & Hpts' & Hrng' & Hr' & Hlen' & Hframe');
      [rewrite Hr1; exact Hb|].
    rewrite Hr1, Hrng1 in Hpts', Hrng'.
    exists w'. rewrite Hplay.
    split; [reflexivity|]. split; [exact Hpts'|]. split; [exact Hrng'|].
    split; [congruence|]. split; [congruence|].
    intros l Hl. rewrite (Hframe' l Hl). apply Hframe1, Hl.
Qed.

Lemma involved_cons m schedule team_id :
  involved (m :: schedule) team_id
  = (if bool_decide (homeTeam m = team_id \/ awayTeam m = team_id) then 1 else 0)
    + involved schedule team_id.
Proof. unfold involved. cbn [count_where]. case_bool_decide; lia. Qed.

Lemma trial_entry_step m schedule winner t t1 t' :
  winner = homeTeam m \/ winner = awayTeam m ->
  updated_entry winner
    (if String.eqb winner (homeTeam m) then awayTeam m else homeTeam m) t t1 ->
  trial_entry schedule t1 t' ->
  trial_entry (m :: schedule) t t'.
Proof.
  intros Hside (Hteam & Hwin & Hlose & Hother) (Hteam' & Hplayed & Hsum & Hpts & Hw & Hl).
  unfold trial_entry. rewrite involved_cons. rewrite Hteam in *.
  split; [congruence|].
  destruct (decide (team t = winner)) as [Heq|Hne].
  - destruct (Hwin Heq) as (Hp1 & Hw1 & Hl1 & Hpts1).
    rewrite bool_decide_eq_true_2 by (destruct Hside; [left|right]; congruence).
    repeat split; lia.
  - destruct (String.eqb_spec winner (homeTeam m)) as [Hhome|Hhome].
    + destruct (decide (team t = awayTeam m)) as [Ha|Ha].
      * destruct (Hlose Hne Ha) as (Hp1 & Hw1 & Hl1 & Hpts1).
        rewrite bool_decide_eq_true_2 by (right; congruence).
        repeat split; lia.
      * rewrite (Hother Hne Ha) in *.
        rewrite bool_decide_eq_false_2 by (intros [?|?]; congruence).
        repeat split; lia.
    + destruct Hside as [?|Haway]; [contradiction|].
      destruct (decide (team t = homeTeam m)) as [Hh|Hh].
      * destruct (Hlose Hne Hh) as (Hp1 & Hw1 & Hl1 & Hpts1).
        rewrite bool_decide_eq_true_2 by (left; congruence).
        repeat split; lia.
      * rewrite (Hother Hne Hh) in *.
        rewrite bool_decide_eq_false_2 by (intros [?|?]; congruence).
        repeat split; lia.
Qed.

Lemma play_vals_accounting {G} `{!RandomSource G} ratings home_away_stats matches
    use_elo :
  forall data (g : G),
    Forall2 (trial_entry matches) data
      (play_vals ratings home_away_stats matches use_elo data g).1.
Proof.
  induction matches as [|m rest IH]; intros data g.
  - cbn [play_vals fst]. induction data as [|t data IHd]; constructor; [|exact IHd].
    unfold trial_entry, involved. cbn. repeat split; lia.
  - cbn [play_vals].
    pose proof (match_winner_side ratings home_away_stats m use_elo g) as Hside.
    destruct (match_winner ratings home_away_stats m use_elo g) as [winner g1].
    cbn [fst] in Hside.
    pose proof (update_vals_entries winner
                  (if String.eqb winner (homeTeam m) then awayTeam m else homeTeam m)
                  data g1) as Hupd.
    destruct (update_vals data winner _ g1) as [cur' g2]. cbn [fst] in Hupd.
    specialize (IH cur' g2).
    revert Hupd IH.
    generalize (play_vals ratings home_away_stats rest use_elo cur' g2).1.
    intros final Hupd. revert final.
    induction Hupd as [|t t1 data cur' Ht _ IHu]; intros final Hfinal.
    + inversion Hfinal. constructor.
    + inversion Hfinal as [|? t' ? final' Ht' Hrest]; subst.
      constructor; [|exact (IHu final' Hrest)].
      eapply trial_entry_step; [|exact Ht|exact Ht'].
      destruct Hside; [left|right]; congruence.
Qed.

(** In a trial every remaining fixture is played once: after the matches
    of a schedule have been played on distinct dictionaries, every entry
    has its identifier, as many more matches played as the schedule has
    fixtures of its team, these split into the wins and the losses it
    gained, and two more points per win gained.  The call returns for any
    schedule and any teams in it, when the rating model is not used or no
    fixture overflows. *)
Theorem play_matches_accounting {G} `{!RandomSource G} self matches use_elo refs data
    (w : World G) :
  NoDup refs ->
  points_to w refs data ->
  rating_gaps_bounded (ratings w) use_elo matches ->
  exists w' final,
    play_matches self matches use_elo refs w = (Ok refs, w')
    /\ points_to w' refs final
    /\ Forall2 (trial_entry matches) data final
    /\ (forall l, l ∉ refs -> heap w' !! l = heap w !! l)
    /\ ratings w' = ratings w.
Proof.
  intros Hnd Hpts Hb.
  destruct (play_matches_general self matches use_elo refs data w Hnd Hpts Hb)
    as (w' & Hrun & Hpts' & _ & Hr & _ & Hframe).
  eexists w', _. split; [exact Hrun|]. split; [exact Hpts'|].
  split; [apply play_vals_accounting|]. split; assumption.
Qed.

Lemma play_matches_accounting_witness :
  exists w' final,
    play_matches one_match_simulator [mkFixture "KKR" "MI"] true
      [0; 1; 2; 3; 4]%nat five_team_world = (Ok [0; 1; 2; 3; 4]%nat, w')
    /\ points_to w' [0; 1; 2; 3; 4]%nat final
    /\ Forall2 (trial_entry [mkFixture "KKR" "MI"]) five_teams final
    /\ (forall l, l ∉ [0; 1; 2; 3; 4]%nat -> heap w' !! l = heap five_team_world !! l)
    /\ ratings w' = ratings five_team_world.
Proof.
  apply (play_matches_accounting one_match_simulator [mkFixture "KKR" "MI"] true
           [0; 1; 2; 3; 4]%nat five_teams five_team_world).
  - apply (NoDup_seq 0 5).
  - exact five_teams_loaded.
  - exact (default_ratings_gaps_bounded true _).
Defined.

(** ** [run_simulation]: errors and edge cases *)

(** With no trial at all and at least one team, [run_simulation] raises
    [ZeroDivisionError], and nothing has changed when it does. *)
Theorem run_simulation_zero_iterations {G} `{!RandomSource G} self use_elo (w : World G) :
  self_teams self <> [] ->
  run_simulation self 0 use_elo w = (Raise ZeroDivisionError, w).
Proof.
  intros Hteams. unfold run_simulation. change (Z.to_nat 0) with 0%nat.
  cbn [simulation_loop]. rewrite bind_run. unfold mret, M_ret. cbn [fst snd lift].
  destruct (self_teams self) as [|t teams] eqn:Heq; [contradiction|].
  cbn [probabilities].
  assert (Hq : init_qualification_count (t :: teams) !! t = Some 0).
  { unfold init_qualification_count. rewrite foldl_insert_lookup.
    rewrite bool_decide_eq_true_2 by left. reflexivity. }
  rewrite Hq. reflexivity.
Qed.

Lemma run_simulation_zero_iterations_witness :
  run_simulation five_team_simulator 0 true five_team_world
  = (Raise ZeroDivisionError, five_team_world).
Proof.
  apply (run_simulation_zero_iterations five_team_simulator true five_team_world).
  discriminate.
Defined.

(** Over empty standings [run_simulation] returns the two empty
    dictionaries, for every number of trials (also 0) and every schedule
    that the rating model, when it is used, plays without an overflow. *)
Theorem run_simulation_empty_standings {G} `{!RandomSource G} self iterations use_elo
    (w : World G) :
  self_standings self = [] ->
  self_teams self = [] ->
  rating_gaps_bounded (ratings w) use_elo (self_schedule self) ->
  exists w',
    run_simulation self iterations use_elo w = (Ok (mkResult ∅ ∅), w')
    /\ ratings w' = ratings w.
Proof.
  intros Hrefs Hteams Hb.
  assert (Hsim : simulator_of w self []).
  { split; [rewrite Hrefs; constructor|]. split; [rewrite Hrefs; constructor|exact Hteams]. }
  destruct (simulation_loop_inv self [] use_elo (fun _ _ _ => True)) with
    (n := Z.to_nat iterations) (k := 0%nat) (w := w)
    (qc := init_qualification_count (self_teams self))
    (pc := init_position_counts (self_teams self))
    as (qc & pc & w' & Hloop & _ & _ & Hr); try done.
  { cbn. lia. }
  { intros _ qc pc _ id Hid. inversion Hid. }
  exists w'. split; [|exact Hr].
  unfold run_simulation. rewrite (bind_ok _ _ _ _ _ Hloop), Hteams. reflexivity.
Qed.

Lemma run_simulation_empty_standings_witness :
  exists w',
    run_simulation (mkSim [] [mkFixture "KKR" "MI"] (mkElo [] []) []) 1000 true
      (mkWorld [] () ∅)
    = (Ok (mkResult ∅ ∅), w')
    /\ ratings w' = ∅.
Proof.
  apply (run_simulation_empty_standings
           (mkSim [] [mkFixture "KKR" "MI"] (mkElo [] []) []) 1000 true
           (mkWorld [] () ∅));
    [reflexivity|reflexivity|exact (default_ratings_gaps_bounded true _)].
Defined.

Lemma record_positions_overflow ids s :
  forall pos0 qc pc,
    counts_ok ids qc pc ->
    (forall t, t ∈ s -> team t ∈ ids) ->
    (pos0 <= 10)%nat ->
    (10 < pos0 + length s)%nat ->
    record_positions pos0 s qc pc = Raise IndexError.
Proof.
  induction s as [|t s IH]; intros pos0 qc pc Hok Hin Hpos Hlen.
  - cbn [length] in Hlen. lia.
  - cbn [length] in Hlen. cbn [record_positions].
    destruct (Hok (team t)) as ((q & Hq) & v & Hv & Hvlen); [apply Hin; left|].
    rewrite Hv.
    assert (Hin' : forall u, u ∈ s -> team u ∈ ids) by (intros u Hu; apply Hin; by right).
    destruct (decide (pos0 = 10%nat)) as [->|Hne].
    + rewrite (lookup_ge_None_2 v 10) by lia. reflexivity.
    + destruct (lookup_lt_is_Some_2 v pos0) as (c & Hc); [lia|]. rewrite Hc.
      pose proof (counts_ok_insert ids qc pc (team t) v pos0 (c + 1) Hok Hv) as Hok1.
      destruct (pos0 <? 4)%nat.
      * rewrite Hq. apply IH; [by apply counts_ok_qinsert|exact Hin'|lia|lia].
      * apply IH; [exact Hok1|exact Hin'|lia|lia].
Qed.

(** Over standings of more than ten teams [run_simulation] with at least
    one trial raises [IndexError]: the first trial, when its matches are
    played without an overflow of the rating model, finds no slot for the
    eleventh position. *)
Theorem run_simulation_more_than_ten_teams {G} `{!RandomSource G} self data iterations
    use_elo (w : World G) :
  simulator_of w self data ->
  rating_gaps_bounded (ratings w) use_elo (self_schedule self) ->
  (10 < length data)%nat ->
  0 < iterations ->
  exists w', run_simulation self iterations use_elo w = (Raise IndexError, w').
Proof.
  intros Hsim Hb Hlen Hpos. pose proof Hsim as (_ & _ & Hteams).
  set (played := play_vals (ratings w) (elo_home_away_stats (self_elo self))
                   (self_schedule self) use_elo data (rng w)).
  pose proof (play_vals_teams (ratings w) (elo_home_away_stats (self_elo self))
                (self_schedule self) use_elo data (rng w)) as Hpt.
  fold played in Hpt.
  pose proof (sorted_teams_perm played.1 data Hpt) as Hperm.
  assert (Hrec : record_positions 0 (sorted_by_points_nrr played.1)
                   (init_qualification_count (map team data))
                   (init_position_counts (map team data)) = Raise IndexError).
  { apply (record_positions_overflow (map team data)); [apply init_counts_ok| |lia|].
    - intros t Ht. rewrite <- Hperm. apply list_elem_of_fmap_2. exact Ht.
    - apply Permutation_length in Hperm. rewrite !length_map in Hperm. lia. }
  exists (mkWorld (heap w ++ played.1) played.2 (ratings w)).
  unfold run_simulation. rewrite Hteams.
  destruct (Z.to_nat iterations) as [|n] eqn:Hn; [lia|].
  rewrite bind_run. cbn [simulation_loop].
  rewrite (bind_ok _ _ _ _ _ (clone_standings_spec w self data Hsim)).
  rewrite bind_run, play_matches_spec by exact Hb. fold played.
  rewrite bind_run, load_all_seq.
  rewrite bind_run. unfold lift at 1. rewrite Hrec. reflexivity.
Qed.

Lemma eleven_team_simulator_ok :
  simulator_of eleven_team_world eleven_team_simulator eleven_teams.
Proof.
  split; [|split; [|reflexivity]].
  - apply (NoDup_seq 0 11).
  - repeat constructor.
Qed.

Lemma run_simulation_more_than_ten_teams_witness :
  exists w',
    run_simulation
      (mkSim (seq 0 11) [mkFixture "T01" "T02"] (mkElo [] []) (map team eleven_teams))
      1000 true eleven_team_world
    = (Raise IndexError, w').
Proof.
  apply (run_simulation_more_than_ten_teams
           (mkSim (seq 0 11) [mkFixture "T01" "T02"] (mkElo [] [])
              (map team eleven_teams))
           eleven_teams 1000 true eleven_team_world).
  - split; [|split; [|reflexivity]].
    + apply (NoDup_seq 0 11).
    + repeat constructor.
  - exact (default_ratings_gaps_bounded true _).
  - cbn. lia.
  - lia.
Defined.

(** ** [run_simulation]: the shape of the result *)

Lemma run_simulation_shape {G} `{!RandomSource G} self data use_elo iterations
    (w : World G) :
  simulator_of w self data ->
  rating_gaps_bounded (ratings w) use_elo (self_schedule self) ->
  (length data <= 10)%nat ->
  0 < iterations ->
  exists result w',
    run_simulation self iterations use_elo w = (Ok result, w')
    /\ simulator_of w' self data
    /\ ratings w' = ratings w
    /\ forall team_id,
         (team_id ∈ map team data ->
          exists prob positions,
            qualification_probability result !! team_id = Some prob
            /\ position_probability result !! team_id = Some positions
            /\ length positions = 10%nat)
         /\ (team_id ∉ map team data ->
             qualification_probability result !! team_id = None
             /\ position_probability result !! team_id = None).
Proof.
  intros Hsim Hb Hlen Hpos. pose proof Hsim as (_ & _ & Hteams).
  destruct (simulation_loop_inv self data use_elo
              (fun _ qc pc => counts_ok (map team data) qc pc) Hlen)
    with (n := Z.to_nat iterations) (k := 0%nat) (w := w)
         (qc := init_qualification_count (map team data))
         (pc := init_position_counts (map team data))
    as (qc & pc & w' & Hloop & Hok & Hsim' & Hr);
    [done| |exact Hsim|exact Hb|apply init_counts_ok|].
  { intros k s qc pc qc' pc' Hok Hperm _ Hrec.
    destruct (record_positions_spec (map team data) s 0 qc pc)
      as (qc2 & pc2 & Hrec2 & Hok2 & _); [exact Hok| | |].
    - intros t Ht. rewrite <- Hperm. apply list_elem_of_fmap_2. exact Ht.
    - apply Permutation_length in Hperm. rewrite !length_map in Hperm. lia.
    - rewrite Hrec in Hrec2. injection Hrec2 as <- <-. exact Hok2. }
  destruct (probabilities_spec iterations qc pc (map team data)) with (result := mkResult ∅ ∅)
    as (result & Hprob & Hres); [lia|exact Hok|].
  exists result, w'. split; [|split; [exact Hsim'|split; [exact Hr|]]].
  - unfold run_simulation. rewrite Hteams, (bind_ok _ _ _ _ _ Hloop).
    cbn [fst snd]. unfold lift. rewrite Hprob. reflexivity.
  - intros id. destruct (Hres id) as [Hin Hout]. split.
    + intros Hid. destruct (Hin Hid) as (Hq & v & Hv & Hp).
      eexists _, _. split; [exact Hq|]. split; [exact Hp|]. rewrite length_map.
      destruct (Hok id Hid) as (_ & v' & Hv' & Hlen'). congruence.
    + intros Hid. destruct (Hout Hid) as [Hq Hp]. cbn in Hq, Hp.
      rewrite Hq, Hp, !lookup_empty. done.
Qed.

(** The result of [run_simulation], which returns when the rating model is
    not used or no fixture overflows, has an entry for every team of the
    standings and for no other key, in both of its dictionaries. *)
Theorem run_simulation_result_keys {G} `{!RandomSource G} self data use_elo iterations
    (w : World G) :
  simulator_of w self data ->
  rating_gaps_bounded (ratings w) use_elo (self_schedule self) ->
  (length data <= 10)%nat ->
  0 < iterations ->
  exists result w',
    run_simulation self iterations use_elo w = (Ok result, w')
    /\ forall team_id,
         (is_Some (qualification_probability result !! team_id)
          <-> team_id ∈ map team data)
         /\ (is_Some (position_probability result !! team_id)
             <-> team_id ∈ map team data).
Proof.
  intros Hsim Hb Hlen Hpos.
  destruct (run_simulation_shape self data use_elo iterations w Hsim Hb Hlen Hpos)
    as (result & w' & Hrun & _ & _ & Hres).
  exists result, w'. split; [exact Hrun|].
  intros id. destruct (Hres id) as [Hin Hout].
  destruct (decide (id ∈ map team data)) as [Hid|Hid].
  - destruct (Hin Hid) as (q & v & Hq & Hp & _). rewrite Hq, Hp.
    split; (split; [intros _; exact Hid|intros _; eauto]).
  - destruct (Hout Hid) as [Hq Hp]. rewrite Hq, Hp.
    split; (split; [intros [? ?]; discriminate|intros; contradiction]).
Qed.

Lemma run_simulation_result_keys_witness :
  exists result w',
    run_simulation one_match_simulator 1000 true five_team_world = (Ok result, w')
    /\ forall team_id,
         (is_Some (qualification_probability result !! team_id)
          <-> team_id ∈ map team five_teams)
         /\ (is_Some (position_probability result !! team_id)
             <-> team_id ∈ map team five_teams).
Proof.
  apply (run_simulation_result_keys one_match_simulator five_teams true 1000
           five_team_world).
  - exact one_match_simulator_ok.
  - exact (default_ratings_gaps_bounded true _).
  - cbn. lia.
  - lia.
Defined.

Lemma placed_positions_take names team_id :
  forall k,
    sum_Z (map (fun pos => placed names 0 pos team_id) (seq 0 k))
    = occurrences team_id (take k names).
Proof.
  induction names as [|x names IH]; intros k.
  - rewrite take_nil. rewrite sum_Z_map_zero; [reflexivity|]. intros pos.
    rewrite placed_zero_start, lookup_nil. by rewrite bool_decide_eq_false_2.
  - destruct k as [|k]; [reflexivity|]. cbn [take].
    rewrite occurrences_cons, <- (IH k).
    unfold sum_Z. cbn [seq map foldr]. rewrite <- seq_shift, map_map.
    rewrite placed_zero_start. cbn [lookup list_lookup]. f_equal.
    + repeat case_bool_decide; congruence.
    + f_equal. apply map_ext. intros pos. rewrite !placed_zero_start. reflexivity.
Qed.

Lemma qualified_is_top4_step ids k s qc pc qc' pc' :
  (length ids <= 10)%nat ->
  qualified_is_top4 ids k qc pc ->
  Permutation (map team s) ids ->
  record_positions 0 s qc pc = Ok (qc', pc') ->
  qualified_is_top4 ids (S k) qc' pc'.
Proof.
  intros Hlen [Hok Hq] Hperm Hrec.
  destruct (record_positions_spec ids s 0 qc pc)
    as (qc2 & pc2 & Hrec2 & Hok2 & Hcell & Hqcell); [exact Hok| | |].
  { intros t Ht. rewrite <- Hperm. apply list_elem_of_fmap_2. exact Ht. }
  { apply Permutation_length in Hperm. rewrite length_map in Hperm. lia. }
  rewrite Hrec in Hrec2. injection Hrec2 as <- <-.
  split; [exact Hok2|]. intros id.
  rewrite Hqcell, Hq.
  rewrite (sum_Z_map_ext (cell pc' id)
             (fun pos => cell pc id pos + placed (map team s) 0 pos id))
    by (intros pos; apply Hcell).
  rewrite sum_Z_map_add, placed_positions_take. reflexivity.
Qed.

Lemma sum_Z_first_four position_counts team_id counts :
  position_counts !! team_id = Some counts ->
  (4 <= length counts)%nat ->
  sum_Z (map (cell position_counts team_id) (seq 0 4)) = sum_Z (take 4 counts).
Proof.
  intros Hv Hlen. unfold cell. rewrite Hv.
  destruct counts as [|a [|b [|c [|d rest]]]]; cbn [length] in Hlen; try lia.
  reflexivity.
Qed.

(** The qualification count of a team is the sum of its counts at the
    first four positions, and the probabilities of the result are these
    counts, each divided by the number of trials: a team qualifies in
    exactly the trials in which it finishes first, second, third or
    fourth. *)
Theorem qualification_is_top_four {G} `{!RandomSource G} self data use_elo iterations
    (w : World G) :
  simulator_of w self data ->
  rating_gaps_bounded (ratings w) use_elo (self_schedule self) ->
  (length data <= 10)%nat ->
  0 < iterations ->
  exists qc pc result w',
    simulation_loop self (Z.to_nat iterations) use_elo
      (init_qualification_count (self_teams self))
      (init_position_counts (self_teams self)) w = (Ok (qc, pc), w')
    /\ run_simulation self iterations use_elo w = (Ok result, w')
    /\ forall team_id,
         team_id ∈ map team data ->
         exists counts,
           pc !! team_id = Some counts
           /\ qcell qc team_id = sum_Z (take 4 counts)
           /\ qualification_probability result !! team_id
              = Some (probability_of (qcell qc team_id) iterations)
           /\ position_probability result !! team_id
              = Some (map (fun c => probability_of c iterations) counts).
Proof.
  intros Hsim Hb Hlen Hpos.
  assert (Hlen' : (length (map team data) <= 10)%nat) by (by rewrite length_map).
  destruct (run_simulation_inv self data use_elo (qualified_is_top4 (map team data))
              iterations w Hlen Hpos)
    as (qc & pc & w' & result & Hloop & Hinv & Hrun & _ & _ & Hres);
    [by intros k qc pc [Hok _]| | |exact Hsim|exact Hb|].
  { intros k s qc pc qc' pc' Hinv Hperm _ Hrec.
    exact (qualified_is_top4_step _ k s qc pc qc' pc' Hlen' Hinv Hperm Hrec). }
  { split; [apply init_counts_ok|]. intros id. rewrite init_qcell.
    symmetry. apply sum_Z_map_zero. intros pos. apply init_cell. }
  destruct Hinv as [_ Hq].
  exists qc, pc, result, w'. split; [exact Hloop|]. split; [exact Hrun|].
  intros id Hid. destruct (Hres id Hid) as (Hqp & v & Hv & Hvlen & Hp).
  exists v. split; [exact Hv|]. split; [|split; [exact Hqp|exact Hp]].
  rewrite Hq, (sum_Z_first_four pc id v Hv) by lia. reflexivity.
Qed.

Lemma qualification_is_top_four_witness :
  exists qc pc result w' counts,
    simulation_loop one_match_simulator (Z.to_nat 1000) true
      (init_qualification_count (self_teams one_match_simulator))
      (init_position_counts (self_teams one_match_simulator)) five_team_world
    = (Ok (qc, pc), w')
    /\ run_simulation one_match_simulator 1000 true five_team_world = (Ok result, w')
    /\ pc !! "RCB"%string = Some counts
    /\ qcell qc "RCB" = sum_Z (take 4 counts)
    /\ qualification_probability result !! "RCB"%string
       = Some (probability_of (qcell qc "RCB") 1000).
Proof.
  destruct (qualification_is_top_four one_match_simulator five_teams true 1000
              five_team_world one_match_simulator_ok)
    as (qc & pc & result & w' & Hloop & Hrun & Hall);
    [exact (default_ratings_gaps_bounded true _)|cbn; lia|lia|].
  destruct (Hall "RCB"%string) as (counts & Hv & Heq & Hq & _).
  { cbn. do 3 right. left. }
  exists qc, pc, result, w', counts. split; [exact Hloop|]. split; [exact Hrun|].
  split; [exact Hv|]. split; [exact Heq|exact Hq].
Defined.

Lemma all_qualified_step ids k s qc pc qc' pc' :
  NoDup ids ->
  (length ids <= 4)%nat ->
  all_qualified ids k qc pc ->
  Permutation (map team s) ids ->
  record_positions 0 s qc pc = Ok (qc', pc') ->
  all_qualified ids (S k) qc' pc'.
Proof.
  intros Hnd Hlen [Hok Hq] Hperm Hrec.
  destruct (record_positions_spec ids s 0 qc pc)
    as (qc2 & pc2 & Hrec2 & Hok2 & _ & Hqcell); [exact Hok| | |].
  { intros t Ht. rewrite <- Hperm. apply list_elem_of_fmap_2. exact Ht. }
  { apply Permutation_length in Hperm. rewrite length_map in Hperm. lia. }
  rewrite Hrec in Hrec2. injection Hrec2 as <- <-.
  split; [exact Hok2|]. intros id Hid.
  rewrite Hqcell, (Hq id Hid). cbn [Nat.sub].
  rewrite take_ge by (apply Permutation_length in Hperm; lia).
  rewrite (occurrences_perm _ _ _ Hperm), (occurrences_NoDup id ids Hnd Hid). lia.
Qed.

(** In a league of at most four teams every team qualifies in every
    trial: all the qualification probabilities are 1, whatever the draws
    and the schedule, when the rating model is not used or no fixture
    overflows. *)
Theorem run_simulation_at_most_four_teams {G} `{!RandomSource G} self data use_elo
    iterations (w : World G) :
  simulator_of w self data ->
  rating_gaps_bounded (ratings w) use_elo (self_schedule self) ->
  NoDup (map team data) ->
  (length data <= 4)%nat ->
  0 < iterations ->
  exists result w',
    run_simulation self iterations use_elo w = (Ok result, w')
    /\ forall team_id,
         team_id ∈ map team data ->
         exists q, qualification_probability result !! team_id = Some q /\ (q == 1)%Q.
Proof.
  intros Hsim Hb Hnd Hlen Hpos.
  assert (Hlen' : (length (map team data) <= 4)%nat) by (by rewrite length_map).
  destruct (run_simulation_inv self data use_elo (all_qualified (map team data))
              iterations w)
    as (qc & pc & w' & result & _ & Hinv & Hrun & _ & _ & Hres);
    [lia|exact Hpos|by intros k qc pc [Hok _]| | |exact Hsim|exact Hb|].
  { intros k s qc pc qc' pc' Hinv Hperm _ Hrec.
    exact (all_qualified_step _ k s qc pc qc' pc' Hnd Hlen' Hinv Hperm Hrec). }
  { split; [apply init_counts_ok|]. intros id _. apply init_qcell. }
  destruct Hinv as [_ Hq]. rewrite Z2Nat.id in Hq by lia.
  exists result, w'. split; [exact Hrun|].
  intros id Hid. destruct (Hres id Hid) as (Hqp & _).
  eexists. split; [exact Hqp|]. rewrite (Hq id Hid).
  apply probability_of_all. exact Hpos.
Qed.

Lemma three_team_simulator_ok :
  simulator_of three_team_world three_team_simulator three_teams.
Proof.
  split; [|split; [|reflexivity]].
  - apply (NoDup_seq 0 3).
  - repeat constructor.
Qed.

Lemma run_simulation_at_most_four_teams_witness :
  exists result w' q,
    run_simulation three_team_simulator 1000 true three_team_world = (Ok result, w')
    /\ qualification_probability result !! "CSK"%string = Some q
    /\ (q == 1)%Q.
Proof.
  destruct (run_simulation_at_most_four_teams three_team_simulator three_teams true 1000
              three_team_world three_team_simulator_ok)
    as (result & w' & Hrun & Hall).
  - exact (default_ratings_gaps_bounded true _).
  - apply (bool_decide_unpack _). reflexivity.
  - cbn. lia.
  - lia.
  - destruct (Hall "CSK"%string) as (q & Hq & Hone); [cbn; do 2 right; left|].
    exists result, w', q. split; [exact Hrun|]. split; [exact Hq|exact Hone].
Defined.

(** ** [calculate_path_to_playoffs]: what it leaves untouched *)

Lemma keeps_shuffle_loop {G} `{!RandomSource G} {A} base i :
  forall x : list A, keeps (G := G) base (fun _ => True) (shuffle_loop i x).
Proof.
  induction i as [|i IH]; intros x; cbn [shuffle_loop]; [by apply keeps_ret|].
  eapply keeps_bind; [apply keeps_randbelow|]. intros j _. apply IH.
Qed.

Lemma keeps_forced_wins {G} `{!RandomSource G} base team_id matches :
  forall ls,
    Forall (fun l => (base <= l)%nat) ls ->
    keeps (G := G) base (Forall (fun l => (base <= l)%nat))
      (forced_wins team_id matches ls).
Proof.
  induction matches as [|m rest IH]; intros ls Hls; cbn [forced_wins].
  - by apply keeps_ret.
  - eapply keeps_bind; [by apply keeps_update_standings|]. intros ls' Hls'. by apply IH.
Qed.

Lemma keeps_forced_losses {G} `{!RandomSource G} base team_id matches :
  forall ls,
    Forall (fun l => (base <= l)%nat) ls ->
    keeps (G := G) base (Forall (fun l => (base <= l)%nat))
      (forced_losses team_id matches ls).
Proof.
  induction matches as [|m rest IH]; intros ls Hls; cbn [forced_losses].
  - by apply keeps_ret.
  - eapply keeps_bind; [by apply keeps_update_standings|]. intros ls' Hls'. by apply IH.
Qed.

Lemma keeps_fixed_wins_loop {G} `{!RandomSource G} base self team_id wins remaining n :
  forall c,
    keeps (G := G) base (fun _ => True)
      (fixed_wins_loop self team_id wins remaining n c).
Proof.
  induction n as [|n IH]; intros c; cbn [fixed_wins_loop]; [by apply keeps_ret|].
  eapply keeps_bind; [apply keeps_deepcopy; constructor|]. intros ls Hls.
  eapply keeps_bind; [apply keeps_shuffle_loop|]. intros copy _.
  eapply keeps_bind; [by apply keeps_forced_wins|]. intros ls1 Hls1.
  eapply keeps_bind; [by apply keeps_forced_losses|]. intros ls2 Hls2.
  eapply keeps_bind; [by apply keeps_play_matches|]. intros ls3 Hls3.
  eapply keeps_bind with (P := fun _ => True).
  - unfold _get_playoff_teams. eapply keeps_bind; [apply keeps_load_all|].
    intros data _. by apply keeps_ret.
  - intros teams _. apply IH.
Qed.

Lemma keeps_path_loop {G} `{!RandomSource G} base self team_id remaining current_points
    iterations todo :
  forall wins results,
    keeps (G := G) base (fun _ => True)
      (path_loop self team_id remaining current_points iterations todo wins results).
Proof.
  induction todo as [|todo IH]; intros wins results; cbn [path_loop];
    [by apply keeps_ret|].
  eapply keeps_bind with (P := fun _ => True).
  - unfold _simulate_with_fixed_wins.
    eapply keeps_bind; [apply keeps_fixed_wins_loop|]. intros c _. apply keeps_lift.
  - intros q _. destruct (Qle_bool (9 # 10) q); [by apply keeps_ret|apply IH].
Qed.

(** [calculate_path_to_playoffs] does not change the standings it was
    built on either: every dictionary that exists when it is called and the
    rating mapping are unchanged afterwards, for every team and number of
    trials, whether the call returns or raises. *)
Theorem calculate_path_leaves_standings {G} `{!RandomSource G} self team_id iterations
    (w : World G) :
  let w' := (calculate_path_to_playoffs self team_id iterations w).2 in
  (forall l t, heap w !! l = Some t -> heap w' !! l = Some t)
  /\ ratings w' = ratings w.
Proof.
  intros w'.
  assert (Hkeeps : keeps (G := G) (length (heap w)) (fun _ => True)
                     (calculate_path_to_playoffs self team_id iterations)).
  { unfold calculate_path_to_playoffs.
    eapply keeps_bind; [apply keeps_load_all|]. intros data _.
    destruct (find_standing data team_id); [apply keeps_path_loop|by apply keeps_ret]. }
  destruct (Hkeeps w) as [(Hheap & _ & Hratings) _]; [lia|].
  split; [|exact Hratings].
  intros l t Hl. fold w' in Hheap. rewrite Hheap; [exact Hl|].
  eapply lookup_lt_Some. exact Hl.
Qed.

Lemma find_standing_None data team_id :
  team_id ∉ map team data -> find_standing data team_id = None.
Proof.
  induction data as [|t data IH]; intros Hid; [reflexivity|].
  cbn [map] in Hid. apply not_elem_of_cons in Hid as [Hne Hid].
  cbn [find_standing]. destruct (String.eqb_spec (team t) team_id); [congruence|].
  apply IH, Hid.
Qed.

(** For a team that is not in the standings [calculate_path_to_playoffs]
    returns the single entry for 0 wins with 0 points and probability 0,
    without a trial: the world, the random source included, is as it
    was. *)
Theorem calculate_path_unknown_team {G} `{!RandomSource G} self data team_id iterations
    (w : World G) :
  simulator_of w self data ->
  team_id ∉ map team data ->
  calculate_path_to_playoffs self team_id iterations w
  = (Ok (mkPath {[ 0 := mkEntry 0 0 ]} None None), w).
Proof.
  intros (_ & Hpts & _) Hid. unfold calculate_path_to_playoffs.
  rewrite (bind_ok _ _ _ _ _ (load_all_spec w _ data Hpts)).
  rewrite (find_standing_None data team_id Hid). reflexivity.
Qed.

Lemma calculate_path_unknown_team_witness :
  calculate_path_to_playoffs one_match_simulator "LSG" 1000 five_team_world
  = (Ok (mkPath {[ 0 := mkEntry 0 0 ]} None None), five_team_world).
Proof.
  apply (calculate_path_unknown_team one_match_simulator five_teams "LSG" 1000
           five_team_world).
  - exact one_match_simulator_ok.
  - apply (bool_decide_unpack _). reflexivity.
Defined.

(** ** [_simulate_with_fixed_wins] for any remaining matches *)

Lemma shuffle_loop_run {G} `{!RandomSource G} {A} i :
  forall (x : list A) (w : World G),
    shuffle_loop i x w
    = (Ok (shuffle_vals i x (rng w)).1,
       mkWorld (heap w) (shuffle_vals i x (rng w)).2 (ratings w)).
Proof.
  induction i as [|i IH]; intros x w.
  - cbn. by destruct w.
  - cbn [shuffle_loop shuffle_vals]. rewrite bind_run. unfold randbelow at 1.
    destruct (rng_randbelow (S (S i)) (rng w)) as [j g1].
    rewrite IH. reflexivity.
Qed.

Lemma forced_wins_spec {G} `{!RandomSource G} team_id matches :
  forall pre cur (g : G) r,
    let forced := forced_wins_vals team_id matches cur g in
    forced_wins team_id matches (seq (length pre) (length cur))
      (mkWorld (pre ++ cur) g r)
    = (Ok (seq (length pre) (length forced.1)), mkWorld (pre ++ forced.1) forced.2 r).
Proof.
  induction matches as [|m rest IH]; intros pre cur g r; [reflexivity|].
  cbn zeta. cbn [forced_wins forced_wins_vals].
  rewrite bind_run, update_standings_spec.
  destruct (update_vals cur team_id _ g) as [cur' g1]. cbn [fst snd].
  apply IH.
Qed.

Lemma forced_losses_spec {G} `{!RandomSource G} team_id matches :
  forall pre cur (g : G) r,
    let forced := forced_losses_vals team_id matches cur g in
    forced_losses team_id matches (seq (length pre) (length cur))
      (mkWorld (pre ++ cur) g r)
    = (Ok (seq (length pre) (length forced.1)), mkWorld (pre ++ forced.1) forced.2 r).
Proof.
  induction matches as [|m rest IH]; intros pre cur g r; [reflexivity|].
  cbn zeta. cbn [forced_losses forced_losses_vals].
  rewrite bind_run, update_standings_spec.
  destruct (update_vals cur _ team_id g) as [cur' g1]. cbn [fst snd].
  apply IH.
Qed.

Lemma forced_wins_vals_teams {G} `{!RandomSource G} team_id matches :
  forall cur (g : G), map team (forced_wins_vals team_id matches cur g).1 = map team cur.
Proof.
  induction matches as [|m rest IH]; intros cur g; [reflexivity|].
  cbn [forced_wins_vals].
  pose proof (update_vals_teams team_id
                (if String.eqb team_id (homeTeam m) then awayTeam m else homeTeam m)
                cur g) as Hu.
  destruct (update_vals cur team_id _ g) as [cur' g1]. cbn [fst] in Hu.
  rewrite IH. exact Hu.
Qed.

Lemma forced_losses_vals_teams {G} `{!RandomSource G} team_id matches :
  forall cur (g : G), map team (forced_losses_vals team_id matches cur g).1 = map team cur.
Proof.
  induction matches as [|m rest IH]; intros cur g; [reflexivity|].
  cbn [forced_losses_vals].
  pose proof (update_vals_teams
                (if String.eqb team_id (homeTeam m) then awayTeam m else homeTeam m)
                team_id cur g) as Hu.
  destruct (update_vals cur _ team_id g) as [cur' g1]. cbn [fst] in Hu.
  rewrite IH. exact Hu.
Qed.

Lemma fixed_wins_trial_vals_teams {G} `{!RandomSource G} self team_id wins remaining
    ratings data (g : G) :
  map team (fixed_wins_trial_vals self team_id wins remaining ratings data g).1
  = map team data.
Proof.
  unfold fixed_wins_trial_vals.
  destruct (shuffle_vals _ remaining g) as [copy g1].
  pose proof (forced_wins_vals_teams team_id (take wins copy) data g1) as H1.
  destruct (forced_wins_vals team_id (take wins copy) data g1) as [cur1 g2].
  pose proof (forced_losses_vals_teams team_id (drop wins copy) cur1 g2) as H2.
  destruct (forced_losses_vals team_id (drop wins copy) cur1 g2) as [cur2 g3].
  cbn [fst] in *. rewrite play_vals_teams. congruence.
Qed.

(** One trial of [_simulate_with_fixed_wins], for any remaining matches:
    it returns, and the team counts as qualified when it is among the
    first four of the standings the trial ends with. *)
Lemma fixed_wins_trial_general {G} `{!RandomSource G} self data team_id wins remaining
    (w : World G) :
  simulator_of w self data ->
  rating_gaps_bounded (ratings w) true (self_schedule self) ->
  let trial := fixed_wins_trial_vals self team_id wins remaining (ratings w) data (rng w) in
  forall n c,
    fixed_wins_loop self team_id wins remaining (S n) c w
    = fixed_wins_loop self team_id wins remaining n
        (if bool_decide (team_id ∈ current_top4 trial.1) then c + 1 else c)
        (mkWorld (heap w ++ trial.1) trial.2 (ratings w)).
Proof.
  intros Hsim Hb trial n c. unfold trial, fixed_wins_trial_vals. cbn [fixed_wins_loop].
  rewrite (bind_ok _ _ _ _ _ (clone_standings_spec w self data Hsim)).
  rewrite bind_run. unfold random_shuffle at 1. rewrite shuffle_loop_run.
  cbn [heap rng ratings].
  destruct (shuffle_vals (length remaining - 1) remaining (rng w)) as [copy g1].
  cbn [fst snd].
  rewrite bind_run, forced_wins_spec.
  destruct (forced_wins_vals team_id (take wins copy) data g1) as [cur1 g2].
  cbn [fst snd].
  rewrite bind_run, forced_losses_spec.
  destruct (forced_losses_vals team_id (drop wins copy) cur1 g2) as [cur2 g3].
  cbn [fst snd].
  rewrite bind_run, play_matches_spec by (apply rating_gaps_bounded_filter; exact Hb).
  rewrite bind_run, get_playoff_teams_seq. reflexivity.
Qed.

Lemma fixed_wins_loop_general {G} `{!RandomSource G} self data team_id wins remaining n :
  forall c (w : World G),
    simulator_of w self data ->
    rating_gaps_bounded (ratings w) true (self_schedule self) ->
    exists c' w',
      fixed_wins_loop self team_id wins remaining n c w = (Ok c', w')
      /\ simulator_of w' self data
      /\ ratings w' = ratings w
      /\ c <= c' <= c + Z.of_nat n.
Proof.
  induction n as [|n IH]; intros c w Hsim Hgaps.
  - exists c, w. split; [reflexivity|]. split; [exact Hsim|]. split; [reflexivity|lia].
  - rewrite (fixed_wins_trial_general self data team_id wins remaining w Hsim Hgaps).
    set (trial := fixed_wins_trial_vals self team_id wins remaining (ratings w) data (rng w)).
    set (c1 := if bool_decide (team_id ∈ current_top4 trial.1) then c + 1 else c).
    destruct (IH c1 (mkWorld (heap w ++ trial.1) trial.2 (ratings w)))
      as (c' & w' & Hloop & Hsim' & Hr & Hbounds);
      [apply simulator_of_extend; exact Hsim|exact Hgaps|].
    exists c', w'. split; [exact Hloop|]. split; [exact Hsim'|]. split; [exact Hr|].
    assert (Hc1 : c <= c1 <= c + 1) by (unfold c1; case_bool_decide; lia). lia.
Qed.

Lemma simulate_with_fixed_wins_run {G} `{!RandomSource G} self data team_id wins
    remaining iterations (w : World G) :
  simulator_of w self data ->
  rating_gaps_bounded (ratings w) true (self_schedule self) ->
  0 < iterations ->
  exists q w',
    _simulate_with_fixed_wins self team_id wins remaining iterations w = (Ok q, w')
    /\ (0 <= q <= 1)%Q
    /\ simulator_of w' self data
    /\ ratings w' = ratings w.
Proof.
  intros Hsim Hgaps Hpos.
  destruct (fixed_wins_loop_general self data team_id wins remaining
              (Z.to_nat iterations) 0 w Hsim Hgaps) as (c & w' & Hloop & Hsim' & Hr & Hb).
  rewrite Z2Nat.id in Hb by lia.
  exists (probability_of c iterations), w'.
  split; [|split; [apply probability_of_bounds; lia|split; assumption]].
  unfold _simulate_with_fixed_wins. rewrite (bind_ok _ _ _ _ _ Hloop).
  unfold lift. rewrite true_div_nonzero by lia. reflexivity.
Qed.

(** [_simulate_with_fixed_wins] with a positive number of trials and
    ratings with which no fixture of the schedule overflows returns a
    probability between 0 and 1, for every team, win count and list of
    remaining matches; with no trial it raises [ZeroDivisionError]. *)
Theorem simulate_with_fixed_wins_returns {G} `{!RandomSource G} self data team_id wins
    remaining iterations (w : World G) :
  simulator_of w self data ->
  rating_gaps_bounded (ratings w) true (self_schedule self) ->
  (0 < iterations ->
   exists q w',
     _simulate_with_fixed_wins self team_id wins remaining iterations w = (Ok q, w')
     /\ (0 <= q <= 1)%Q
     /\ simulator_of w' self data
     /\ ratings w' = ratings w)
  /\ (iterations = 0 ->
      _simulate_with_fixed_wins self team_id wins remaining iterations w
      = (Raise ZeroDivisionError, w)).
Proof.
  intros Hsim Hgaps. split.
  - by apply simulate_with_fixed_wins_run.
  - intros ->. reflexivity.
Qed.

Lemma simulate_with_fixed_wins_returns_witness :
  exists q w',
    _simulate_with_fixed_wins three_team_simulator "MI" 1
      [mkFixture "GT" "MI"] 1000 three_team_world = (Ok q, w')
    /\ (0 <= q <= 1)%Q
    /\ simulator_of w' three_team_simulator three_teams
    /\ ratings w' = ratings three_team_world.
Proof.
  apply (simulate_with_fixed_wins_returns three_team_simulator three_teams "MI" 1
           [mkFixture "GT" "MI"] 1000 three_team_world).
  - exact three_team_simulator_ok.
  - exact (default_ratings_gaps_bounded true _).
  - lia.
Defined.

(** ** [calculate_path_to_playoffs]: the shape of the result *)

Lemma path_loop_spec {G} `{!RandomSource G} self data team_id remaining current_points
    iterations :
  0 < iterations ->
  forall todo wins results (w : World G),
    simulator_of w self data ->
    rating_gaps_bounded (ratings w) true (self_schedule self) ->
    exists results' w' k,
      path_loop self team_id remaining current_points iterations todo wins results w
      = (Ok results', w')
      /\ simulator_of w' self data
      /\ ratings w' = ratings w
      /\ (k <= todo)%nat
      /\ (forall z : Z,
            ~ (Z.of_nat wins <= z < Z.of_nat wins + Z.of_nat k) ->
            path_entries results' !! z = path_entries results !! z)
      /\ (forall j, (j < k)%nat ->
            exists e,
              path_entries results' !! Z.of_nat (wins + j) = Some e
              /\ potential_points e = current_points + Z.of_nat (wins + j) * 2
              /\ (0 <= entry_qualification_probability e <= 1)%Q)
      /\ ((k = todo
           /\ min_wins_needed results' = min_wins_needed results
           /\ min_points_needed results' = min_points_needed results
           /\ forall j e, (j < k)%nat ->
                path_entries results' !! Z.of_nat (wins + j) = Some e ->
                (entry_qualification_probability e < 9 # 10)%Q)
          \/ exists k',
               k = S k'
               /\ min_wins_needed results' = Some (Z.of_nat (wins + k'))
               /\ min_points_needed results'
                  = Some (current_points + Z.of_nat (wins + k') * 2)
               /\ (exists e,
                     path_entries results' !! Z.of_nat (wins + k') = Some e
                     /\ (9 # 10 <= entry_qualification_probability e)%Q)
               /\ forall j e, (j < k')%nat ->
                    path_entries results' !! Z.of_nat (wins + j) = Some e ->
                    (entry_qualification_probability e < 9 # 10)%Q).
Proof.
  intros Hpos. induction todo as [|todo IH]; intros wins results w Hsim Hgaps.
  - exists results, w, 0%nat. split; [reflexivity|]. split; [exact Hsim|].
    split; [reflexivity|]. split; [lia|]. split; [reflexivity|].
    split; [intros j Hj; lia|]. left. repeat split. intros j e Hj. lia.
  - cbn [path_loop].
    destruct (simulate_with_fixed_wins_run self data team_id wins remaining
                iterations w Hsim Hgaps Hpos) as (q & w1 & Hrun & Hq & Hsim1 & Hr1).
    assert (Hgaps1 : rating_gaps_bounded (ratings w1) true (self_schedule self))
      by (rewrite Hr1; exact Hgaps).
    rewrite (bind_ok _ _ _ _ _ Hrun).
    cbn [path_entries min_wins_needed min_points_needed].
    set (entry := mkEntry (current_points + Z.of_nat wins * 2) q).
    destruct (Qle_bool (9 # 10) q) eqn:Hq9.
    + (* the threshold is met: the loop is left *)
      apply Qle_bool_iff in Hq9.
      eexists _, w1, 1%nat. split; [reflexivity|]. split; [exact Hsim1|].
      split; [exact Hr1|]. split; [lia|]. cbn [path_entries].
      split; [|split].
      * intros z Hz. apply lookup_insert_ne. lia.
      * intros j Hj. replace j with 0%nat by lia. rewrite Nat.add_0_r.
        exists entry. rewrite lookup_insert_eq. repeat split; apply Hq.
      * right. exists 0%nat. rewrite Nat.add_0_r.
        cbn [min_wins_needed min_points_needed].
        split; [reflexivity|]. split; [reflexivity|]. split; [reflexivity|].
        split; [|intros j e Hj; lia].
        exists entry. rewrite lookup_insert_eq. split; [reflexivity|exact Hq9].
    + (* the threshold is not met: the next win count *)
      assert (Hlt : (q < 9 # 10)%Q).
      { apply Qnot_le_lt. intros Hle. apply Qle_bool_iff in Hle. congruence. }
      destruct (IH (S wins)
                  (mkPath (<[Z.of_nat wins := entry]> (path_entries results))
                     (min_wins_needed results) (min_points_needed results)) w1 Hsim1
                  Hgaps1)
        as (results' & w' & k & Hloop & Hsim' & Hr' & Hk & Hout & Hin & Hmeta).
      cbn [path_entries min_wins_needed min_points_needed] in *.
      assert (Hfirst : path_entries results' !! Z.of_nat wins = Some entry).
      { rewrite Hout by lia. apply lookup_insert_eq. }
      exists results', w', (S k). split; [exact Hloop|]. split; [exact Hsim'|].
      split; [congruence|]. split; [lia|]. split; [|split].
      * intros z Hz. rewrite Hout by lia. apply lookup_insert_ne. lia.
      * intros j Hj. destruct j as [|j].
        -- rewrite Nat.add_0_r. exists entry. split; [exact Hfirst|].
           repeat split; apply Hq.
        -- replace (wins + S j)%nat with (S wins + j)%nat by lia. apply Hin. lia.
      * destruct Hmeta as [(Hk' & Hmw & Hmp & Hall)|(k' & Hk' & Hmw & Hmp & Hlast & Hall)].
        -- left. split; [lia|]. split; [exact Hmw|]. split; [exact Hmp|].
           intros j e Hj He. destruct j as [|j].
           ++ rewrite Nat.add_0_r, Hfirst in He. injection He as <-. exact Hlt.
           ++ replace (wins + S j)%nat with (S wins + j)%nat in He by lia.
              apply (Hall j e); [lia|exact He].
        -- right. exists (S k'). split; [lia|].
           replace (wins + S k')%nat with (S wins + k')%nat by lia.
           split; [exact Hmw|]. split; [exact Hmp|]. split; [exact Hlast|].
           intros j e Hj He. destruct j as [|j].
           ++ rewrite Nat.add_0_r, Hfirst in He. injection He as <-. exact Hlt.
           ++ replace (wins + S j)%nat with (S wins + j)%nat in He by lia.
              apply (Hall j e); [lia|exact He].
Qed.

(** For a team of the standings, a positive number of trials and ratings
    with which no fixture of the schedule overflows,
    [calculate_path_to_playoffs] returns.  Every entry of the result is for
    a win count between 0 and the number of remaining matches of the team,
    with the potential points [currentPoints + 2 * wins] and a probability
    between 0 and 1.  When [min_wins_needed] is set, it is the first win
    count whose probability is at least 0.9, the win counts below it are
    all listed with a probability under 0.9, no higher win count is listed,
    and [min_points_needed] is its potential points.  When it is not set,
    all the win counts are listed, each with a probability under 0.9. *)
Theorem calculate_path_result {G} `{!RandomSource G} self data team_id team_standing
    iterations (w : World G) :
  simulator_of w self data ->
  rating_gaps_bounded (ratings w) true (self_schedule self) ->
  find_standing data team_id = Some team_standing ->
  0 < iterations ->
  let remaining_count :=
    Z.of_nat
      (length (filter (fun m => homeTeam m = team_id \/ awayTeam m = team_id)
                 (self_schedule self))) in
  exists results w',
    calculate_path_to_playoffs self team_id iterations w = (Ok results, w')
    /\ (forall wins e,
          path_entries results !! wins = Some e ->
          0 <= wins <= remaining_count
          /\ potential_points e = points team_standing + wins * 2
          /\ (0 <= entry_qualification_probability e <= 1)%Q)
    /\ match min_wins_needed results with
       | Some k =>
           0 <= k <= remaining_count
           /\ min_points_needed results = Some (points team_standing + k * 2)
           /\ (exists q, path_probability results k = Some q /\ (9 # 10 <= q)%Q)
           /\ (forall wins, 0 <= wins < k ->
                 exists q, path_probability results wins = Some q /\ (q < 9 # 10)%Q)
           /\ (forall wins, k < wins -> path_entries results !! wins = None)
       | None =>
           min_points_needed results = None
           /\ forall wins, 0 <= wins <= remaining_count ->
                exists q, path_probability results wins = Some q /\ (q < 9 # 10)%Q
       end.
Proof.
  intros Hsim Hgaps Hfind Hpos remaining_count. pose proof Hsim as (_ & Hpts & _).
  unfold calculate_path_to_playoffs.
  rewrite (bind_ok _ _ _ _ _ (load_all_spec w _ data Hpts)), Hfind.
  set (remaining := filter (fun m => homeTeam m = team_id \/ awayTeam m = team_id)
                      (self_schedule self)) in *.
  destruct (path_loop_spec self data team_id remaining (points team_standing) iterations
              Hpos (length remaining + 1) 0 (mkPath ∅ None None) w Hsim Hgaps)
    as (results & w' & k & Hrun & _ & _ & Hk & Hout & Hin & Hmeta).
  cbn [path_entries min_wins_needed min_points_needed Nat.add] in *.
  exists results, w'. split; [exact Hrun|].
  assert (Hrange : forall z e, path_entries results !! z = Some e ->
            exists j, (j < k)%nat /\ z = Z.of_nat j).
  { intros z e He. destruct (decide (0 <= z < Z.of_nat k)) as [Hz|Hz].
    - exists (Z.to_nat z). split; lia.
    - rewrite Hout, lookup_empty in He by lia. discriminate. }
  split.
  - intros z e He. destruct (Hrange z e He) as (j & Hj & ->).
    destruct (Hin j Hj) as (e' & He' & Hpp & Hq). rewrite He in He'.
    injection He' as <-. unfold remaining_count. split; [lia|]. split; assumption.
  - destruct Hmeta as [(Hk' & Hmw & Hmp & Hall)|(k' & Hk' & Hmw & Hmp & Hlast & Hall)].
    + rewrite Hmw, Hmp. split; [reflexivity|].
      intros z Hz. unfold remaining_count in Hz.
      destruct (Hin (Z.to_nat z)) as (e & He & _); [lia|].
      rewrite Z2Nat.id in He by lia.
      exists (entry_qualification_probability e). unfold path_probability. rewrite He.
      split; [reflexivity|]. apply (Hall (Z.to_nat z) e); [lia|].
      rewrite Z2Nat.id by lia. exact He.
    + rewrite Hmw, Hmp. unfold remaining_count.
      split; [lia|]. split; [reflexivity|]. split; [|split].
      * destruct Hlast as (e & He & Hq). exists (entry_qualification_probability e).
        unfold path_probability. rewrite He. split; [reflexivity|exact Hq].
      * intros z Hz. destruct (Hin (Z.to_nat z)) as (e & He & _); [lia|].
        rewrite Z2Nat.id in He by lia.
        exists (entry_qualification_probability e). unfold path_probability. rewrite He.
        split; [reflexivity|]. apply (Hall (Z.to_nat z) e); [lia|].
        rewrite Z2Nat.id by lia. exact He.
      * intros z Hz. rewrite Hout, lookup_empty by lia. reflexivity.
Qed.

Lemma calculate_path_result_witness :
  exists results w',
    calculate_path_to_playoffs three_team_simulator "MI" 1000 three_team_world
    = (Ok results, w')
    /\ (forall wins e,
          path_entries results !! wins = Some e ->
          0 <= wins <= 1
          /\ potential_points e = 14 + wins * 2
          /\ (0 <= entry_qualification_probability e <= 1)%Q).
Proof.
  destruct (calculate_path_result three_team_simulator three_teams "MI"
              (mkStanding "MI" 10 7 3 14 (1 # 10)) 1000 three_team_world
              three_team_simulator_ok (default_ratings_gaps_bounded true _) eq_refl)
    as (results & w' & Hrun & Hentries & _); [lia|].
  exists results, w'. split; [exact Hrun|exact Hentries].
Defined.

(** ** The forced results of [_simulate_with_fixed_wins] *)

Lemma swap_length {A} (x : list A) i j : length (swap x i j) = length x.
Proof.
  unfold swap. destruct (x !! i), (x !! j); try reflexivity.
  by rewrite !length_insert.
Qed.

Lemma swap_Forall {A} (P : A -> Prop) (x : list A) i j :
  Forall P x -> Forall P (swap x i j).
Proof.
  intros Hx. unfold swap.
  destruct (x !! i) as [a|] eqn:Ha; [|exact Hx].
  destruct (x !! j) as [b|] eqn:Hb; [|exact Hx].
  apply Forall_insert; [apply Forall_insert; [exact Hx|]|].
  - eapply Forall_lookup_1; eassumption.
  - eapply Forall_lookup_1; eassumption.
Qed.

Lemma shuffle_vals_length {G} `{!RandomSource G} {A} i :
  forall (x : list A) (g : G), length (shuffle_vals i x g).1 = length x.
Proof.
  induction i as [|i IH]; intros x g; [reflexivity|].
  cbn [shuffle_vals]. destruct (rng_randbelow (S (S i)) g) as [j g1].
  rewrite IH. apply swap_length.
Qed.

Lemma shuffle_vals_Forall {G} `{!RandomSource G} {A} (P : A -> Prop) i :
  forall (x : list A) (g : G), Forall P x -> Forall P (shuffle_vals i x g).1.
Proof.
  induction i as [|i IH]; intros x g Hx; [exact Hx|].
  cbn [shuffle_vals]. destruct (rng_randbelow (S (S i)) g) as [j g1].
  apply IH, swap_Forall, Hx.
Qed.

Lemma team_gains_refl team_id (cur : list TeamStanding) :
  Forall2 (team_gains team_id 0 0) cur cur.
Proof.
  induction cur as [|t cur IH]; constructor; [|exact IH].
  split; [reflexivity|]. intros _. repeat split; lia.
Qed.

Lemma team_gains_trans team_id a b c d (l1 l2 l3 : list TeamStanding) :
  Forall2 (team_gains team_id a b) l1 l2 ->
  Forall2 (team_gains team_id c d) l2 l3 ->
  Forall2 (team_gains team_id (a + c) (b + d)) l1 l3.
Proof.
  apply Forall2_trans. intros t1 t2 t3 [Ht1 H1] [Ht2 H2].
  split; [congruence|]. intros Hid.
  destruct (H1 Hid) as (? & ? & ? & ?).
  destruct H2 as (? & ? & ? & ?); [congruence|]. repeat split; lia.
Qed.

Lemma update_vals_winner_gains {G} `{!RandomSource G} team_id loser_id cur (g : G) :
  Forall2 (team_gains team_id 1 0) cur (update_vals cur team_id loser_id g).1.
Proof.
  eapply Forall2_impl; [apply update_vals_entries|].
  intros t t' (Hteam & Hwin & _). split; [exact Hteam|].
  intros Hid. destruct (Hwin Hid) as (? & ? & ? & ?). repeat split; lia.
Qed.

Lemma update_vals_loser_gains {G} `{!RandomSource G} team_id winner_id cur (g : G) :
  winner_id <> team_id ->
  Forall2 (team_gains team_id 0 1) cur (update_vals cur winner_id team_id g).1.
Proof.
  intros Hne. eapply Forall2_impl; [apply update_vals_entries|].
  intros t t' (Hteam & _ & Hlose & _). split; [exact Hteam|].
  intros Hid. destruct Hlose as (? & ? & ? & ?); [congruence|exact Hid|].
  repeat split; lia.
Qed.

Lemma forced_wins_vals_gains {G} `{!RandomSource G} team_id matches :
  forall cur (g : G),
    Forall2 (team_gains team_id (Z.of_nat (length matches)) 0) cur
      (forced_wins_vals team_id matches cur g).1.
Proof.
  induction matches as [|m rest IH]; intros cur g; [apply team_gains_refl|].
  cbn [forced_wins_vals length].
  pose proof (update_vals_winner_gains team_id
                (if String.eqb team_id (homeTeam m) then awayTeam m else homeTeam m)
                cur g) as Hu.
  destruct (update_vals cur team_id _ g) as [cur' g1]. cbn [fst] in Hu.
  replace (Z.of_nat (S (length rest))) with (1 + Z.of_nat (length rest)) by lia.
  change 0 with (0 + 0). eapply team_gains_trans; [exact Hu|apply IH].
Qed.

Lemma forced_losses_vals_gains {G} `{!RandomSource G} team_id matches :
  Forall (fun m => homeTeam m <> awayTeam m) matches ->
  forall cur (g : G),
    Forall2 (team_gains team_id 0 (Z.of_nat (length matches))) cur
      (forced_losses_vals team_id matches cur g).1.
Proof.
  induction 1 as [|m rest Hm _ IH]; intros cur g; [apply team_gains_refl|].
  cbn [forced_losses_vals length].
  assert (Hne : (if String.eqb team_id (homeTeam m) then awayTeam m else homeTeam m)
                <> team_id).
  { destruct (String.eqb_spec team_id (homeTeam m)); congruence. }
  pose proof (update_vals_loser_gains team_id _ cur g Hne) as Hu.
  destruct (update_vals cur _ team_id g) as [cur' g1]. cbn [fst] in Hu.
  replace (Z.of_nat (S (length rest))) with (1 + Z.of_nat (length rest)) by lia.
  change 0 with (0 + 0) at 1. eapply team_gains_trans; [exact Hu|apply IH].
Qed.

Lemma involved_none schedule team_id :
  Forall (fun m => homeTeam m <> team_id /\ awayTeam m <> team_id) schedule ->
  involved schedule team_id = 0.
Proof.
  induction 1 as [|m rest [Hh Ha] _ IH]; [reflexivity|].
  rewrite involved_cons, IH. rewrite bool_decide_eq_false_2 by tauto. reflexivity.
Qed.

Lemma play_vals_other_gains {G} `{!RandomSource G} ratings home_away_stats matches
    use_elo team_id cur (g : G) :
  Forall (fun m => homeTeam m <> team_id /\ awayTeam m <> team_id) matches ->
  Forall2 (team_gains team_id 0 0) cur
    (play_vals ratings home_away_stats matches use_elo cur g).1.
Proof.
  intros Hother. eapply Forall2_impl; [apply play_vals_accounting|].
  intros t t' (Hteam & Hplayed & Hsum & Hpts & Hw & Hl). split; [exact Hteam|].
  intros Hid. rewrite Hid, (involved_none _ _ Hother) in *. repeat split; lia.
Qed.

Lemma other_matches_without_team schedule team_id :
  Forall (fun m => homeTeam m <> team_id /\ awayTeam m <> team_id)
    (filter (fun m => m ∉ filter (fun m => homeTeam m = team_id \/ awayTeam m = team_id)
                          schedule) schedule).
Proof.
  apply Forall_forall. intros m Hm.
  apply list_elem_of_filter in Hm as [Hnot Hin].
  split; intros Heq; apply Hnot; apply list_elem_of_filter; tauto.
Qed.

(** The standings a trial of [_simulate_with_fixed_wins] ends with, for
    the remaining matches that [calculate_path_to_playoffs] passes and
    none of them of a team against itself: an entry of the team has won
    [min wins n] matches and lost the other ones of its [n] remaining
    matches, so that it has the potential points the result reports for
    that win count. *)
Lemma fixed_wins_trial_vals_gains {G} `{!RandomSource G} self team_id wins ratings data
    (g : G) :
  let remaining :=
    filter (fun m => homeTeam m = team_id \/ awayTeam m = team_id) (self_schedule self) in
  Forall (fun m => homeTeam m <> awayTeam m) remaining ->
  Forall2
    (team_gains team_id (Z.of_nat (min wins (length remaining)))
       (Z.of_nat (length remaining - wins)))
    data (fixed_wins_trial_vals self team_id wins remaining ratings data g).1.
Proof.
  intros remaining Hdistinct. unfold fixed_wins_trial_vals.
  pose proof (shuffle_vals_length (length remaining - 1) remaining g) as Hlen.
  pose proof (shuffle_vals_Forall _ (length remaining - 1) remaining g Hdistinct) as Hcopy.
  destruct (shuffle_vals (length remaining - 1) remaining g) as [copy g1].
  cbn [fst] in Hlen, Hcopy.
  pose proof (forced_wins_vals_gains team_id (take wins copy) data g1) as H1.
  destruct (forced_wins_vals team_id (take wins copy) data g1) as [cur1 g2].
  assert (Hdrop : Forall (fun m => homeTeam m <> awayTeam m) (drop wins copy))
    by (by apply Forall_drop).
  pose proof (forced_losses_vals_gains team_id (drop wins copy) Hdrop cur1 g2) as H2.
  destruct (forced_losses_vals team_id (drop wins copy) cur1 g2) as [cur2 g3].
  pose proof (play_vals_other_gains ratings (elo_home_away_stats (self_elo self)) _ true
                team_id cur2 g3 (other_matches_without_team (self_schedule self) team_id))
    as H3.
  cbn [fst] in *. rewrite length_take, length_drop, Hlen in *.
  pose proof (team_gains_trans _ _ _ _ _ _ _ _ (team_gains_trans _ _ _ _ _ _ _ _ H1 H2) H3)
    as Hall.
  replace (Z.of_nat (wins `min` length remaining) + 0 + 0)
    with (Z.of_nat (wins `min` length remaining)) in Hall by lia.
  replace (0 + Z.of_nat (length remaining - wins) + 0)
    with (Z.of_nat (length remaining - wins)) in Hall by lia.
  exact Hall.
Qed.

(** The steps of one trial of [_simulate_with_fixed_wins], for the
    remaining matches that [calculate_path_to_playoffs] passes, none of
    them of a team against itself, and ratings with which no fixture of
    the schedule overflows: the clone, the shuffle, the forced wins, the
    forced losses and the other matches all return, and in the
    standings they leave an entry of the team has [min wins n] more wins,
    the other ones of its [n] remaining matches as losses, and so the
    points [currentPoints + 2 * min wins n] that the result reports as
    potential points. *)
Theorem fixed_wins_trial_points {G} `{!RandomSource G} self data team_id wins
    (w : World G) :
  simulator_of w self data ->
  rating_gaps_bounded (ratings w) true (self_schedule self) ->
  let remaining :=
    filter (fun m => homeTeam m = team_id \/ awayTeam m = team_id) (self_schedule self) in
  Forall (fun m => homeTeam m <> awayTeam m) remaining ->
  exists refs w1 copy w2 w3 w4 w5 final,
    _clone_standings self w = (Ok refs, w1)
    /\ random_shuffle remaining w1 = (Ok copy, w2)
    /\ forced_wins team_id (take wins copy) refs w2 = (Ok refs, w3)
    /\ forced_losses team_id (drop wins copy) refs w3 = (Ok refs, w4)
    /\ play_matches self (filter (fun m => m ∉ remaining) (self_schedule self)) true
         refs w4 = (Ok refs, w5)
    /\ points_to w5 refs final
    /\ Forall2
         (team_gains team_id (Z.of_nat (min wins (length remaining)))
            (Z.of_nat (length remaining - wins)))
         data final.
Proof.
  intros Hsim Hgaps remaining Hdistinct.
  pose proof (fixed_wins_trial_vals_gains self team_id wins (ratings w) data (rng w)
                Hdistinct) as Hgain.
  unfold fixed_wins_trial_vals in Hgain. fold remaining in Hgain.
  pose proof (shuffle_loop_run (length remaining - 1) remaining
                (mkWorld (heap w ++ data) (rng w) (ratings w))) as Hsh.
  cbn [heap rng ratings] in Hsh.
  destruct (shuffle_vals (length remaining - 1) remaining (rng w)) as [copy g1].
  cbn [fst snd] in Hsh.
  pose proof (forced_wins_spec team_id (take wins copy) (heap w) data g1 (ratings w))
    as Hfw. cbn zeta in Hfw.
  pose proof (forced_wins_vals_teams team_id (take wins copy) data g1) as Ht1.
  destruct (forced_wins_vals team_id (take wins copy) data g1) as [cur1 g2].
  cbn [fst snd] in Hfw, Ht1.
  pose proof (forced_losses_spec team_id (drop wins copy) (heap w) cur1 g2 (ratings w))
    as Hfl. cbn zeta in Hfl.
  pose proof (forced_losses_vals_teams team_id (drop wins copy) cur1 g2) as Ht2.
  destruct (forced_losses_vals team_id (drop wins copy) cur1 g2) as [cur2 g3].
  cbn [fst snd] in Hfl, Ht2.
  pose proof (play_matches_spec self (filter (fun m => m ∉ remaining) (self_schedule self))
                true (heap w) cur2 g3 (ratings w)
                (rating_gaps_bounded_filter _ _ _ _ Hgaps)) as Hpl. cbn zeta in Hpl.
  pose proof (play_vals_teams (ratings w) (elo_home_away_stats (self_elo self))
                (filter (fun m => m ∉ remaining) (self_schedule self)) true cur2 g3) as Ht3.
  destruct (play_vals (ratings w) (elo_home_away_stats (self_elo self))
              (filter (fun m => m ∉ remaining) (self_schedule self)) true cur2 g3)
    as [final g4].
  cbn [fst snd] in Hpl, Ht3, Hgain.
  assert (Hl1 : length cur1 = length data) by (by apply map_team_length).
  assert (Hl2 : length cur2 = length data) by (apply map_team_length; congruence).
  assert (Hl3 : length final = length data) by (apply map_team_length; congruence).
  rewrite Hl1 in Hfw. rewrite Hl1, Hl2 in Hfl. rewrite Hl2, Hl3 in Hpl.
  exists (seq (length (heap w)) (length data)),
    (mkWorld (heap w ++ data) (rng w) (ratings w)), copy,
    (mkWorld (heap w ++ data) g1 (ratings w)),
    (mkWorld (heap w ++ cur1) g2 (ratings w)),
    (mkWorld (heap w ++ cur2) g3 (ratings w)),
    (mkWorld (heap w ++ final) g4 (ratings w)), final.
  split; [apply clone_standings_spec, Hsim|]. split; [exact Hsh|].
  split; [exact Hfw|]. split; [exact Hfl|]. split; [exact Hpl|].
  split; [|exact Hgain].
  unfold points_to. cbn [heap]. rewrite <- Hl3. apply seq_points_to.
Qed.

Lemma fixed_wins_trial_points_witness :
  exists refs w1 copy w2 w3 w4 w5 final,
    _clone_standings three_team_simulator three_team_world = (Ok refs, w1)
    /\ random_shuffle [mkFixture "GT" "MI"] w1 = (Ok copy, w2)
    /\ forced_wins "MI" (take 1 copy) refs w2 = (Ok refs, w3)
    /\ forced_losses "MI" (drop 1 copy) refs w3 = (Ok refs, w4)
    /\ play_matches three_team_simulator [mkFixture "CSK" "GT"] true refs w4
       = (Ok refs, w5)
    /\ points_to w5 refs final
    /\ Forall2 (team_gains "MI" 1 0) three_teams final.
Proof.
  apply (fixed_wins_trial_points three_team_simulator three_teams "MI" 1
           three_team_world three_team_simulator_ok
           (default_ratings_gaps_bounded true _)).
  repeat constructor; discriminate.
Defined.

(** ** Analyzer: the ranked probabilities *)

Lemma prob_lt_false x y : prob_lt x y = false <-> prob_before x y.
Proof.
  unfold prob_lt, prob_before.
  destruct (Qcompare_spec (snd x) (snd y)) as [H|H|H]; split; try discriminate;
    try reflexivity.
  - intros _. rewrite H. apply Qle_refl.
  - intros Hle. exfalso. exact (Qlt_irrefl _ (Qlt_le_trans _ _ _ H Hle)).
  - intros _. apply Qlt_le_weak. exact H.
Qed.

Lemma prob_lt_true x y : prob_lt x y = true -> prob_before y x.
Proof.
  unfold prob_lt, prob_before.
  destruct (Qcompare_spec (snd x) (snd y)) as [H|H|H]; try discriminate.
  intros _. apply Qlt_le_weak. exact H.
Qed.

Lemma insert_by_probability_perm x l : Permutation (insert_by_probability x l) (x :: l).
Proof.
  induction l as [|y l IH]; cbn [insert_by_probability]; [reflexivity|].
  destruct (prob_lt x y); [|reflexivity].
  rewrite IH. apply perm_swap.
Qed.

Lemma sort_by_probability_perm items : Permutation items (sort_by_probability items).
Proof.
  induction items as [|x rest IH]; cbn [sort_by_probability]; [reflexivity|].
  rewrite insert_by_probability_perm. apply perm_skip. exact IH.
Qed.

Lemma insert_by_probability_sorted x l :
  StronglySorted prob_before l -> StronglySorted prob_before (insert_by_probability x l).
Proof.
  induction 1 as [|y l Hl IH Hy]; cbn [insert_by_probability].
  - repeat constructor.
  - destruct (prob_lt x y) eqn:Hlt.
    + constructor; [exact IH|].
      rewrite insert_by_probability_perm. constructor; [|exact Hy].
      apply prob_lt_true. exact Hlt.
    + apply prob_lt_false in Hlt.
      constructor; [constructor; assumption|].
      constructor; [exact Hlt|].
      eapply Forall_impl; [exact Hy|].
      intros z Hz. unfold prob_before in *. exact (Qle_trans _ _ _ Hz Hlt).
Qed.

Lemma sort_by_probability_sorted items :
  StronglySorted prob_before (sort_by_probability items).
Proof.
  induction items as [|x rest IH]; cbn [sort_by_probability]; [constructor|].
  apply insert_by_probability_sorted. exact IH.
Qed.

Lemma get_qualification_probabilities_items results :
  NoDup (map fst (get_qualification_probabilities results))
  /\ forall team_id prob,
       (team_id, prob) ∈ get_qualification_probabilities results
       <-> qualification_probability results !! team_id = Some prob.
Proof.
  unfold get_qualification_probabilities.
  pose proof (sort_by_probability_perm (map_to_list (qualification_probability results)))
    as Hperm.
  split.
  - assert (Hp : Permutation (map fst (map_to_list (qualification_probability results)))
                   (map fst (sort_by_probability
                               (map_to_list (qualification_probability results)))))
      by apply Permutation_map, Hperm.
    rewrite <- Hp. apply NoDup_fst_map_to_list.
  - intros id prob. rewrite <- Hperm. apply elem_of_map_to_list.
Qed.

(** [get_qualification_probabilities] lists every team of the result once,
    with its probability, in the order of descending probability. *)
Theorem get_qualification_probabilities_ranked results :
  let ranked := get_qualification_probabilities results in
  StronglySorted prob_before ranked
  /\ NoDup (map fst ranked)
  /\ forall team_id prob,
       (team_id, prob) ∈ ranked
       <-> qualification_probability results !! team_id = Some prob.
Proof.
  intros ranked. split; [apply sort_by_probability_sorted|].
  apply get_qualification_probabilities_items.
Qed.

Lemma slice_to_prefix {A} (l : list A) n :
  exists rest, l = slice_to l n ++ rest.
Proof.
  unfold slice_to. destruct (0 <=? n); eexists; symmetry; apply take_drop.
Qed.

(** [get_top_n_likely_playoff_teams] with [n >= 0] returns the first [n]
    items of the ranked list, all of them when there are fewer: no team it
    leaves out has a higher probability than a team it lists. *)
Theorem get_top_n_likely_playoff_teams_spec results n :
  0 <= n ->
  let top := get_top_n_likely_playoff_teams results n in
  length top = Nat.min (Z.to_nat n) (length (get_qualification_probabilities results))
  /\ exists rest,
       get_qualification_probabilities results = top ++ rest
       /\ forall x y, x ∈ top -> y ∈ rest -> (snd y <= snd x)%Q.
Proof.
  intros Hn top. unfold top, get_top_n_likely_playoff_teams, slice_to.
  destruct (Z.leb_spec 0 n); [|lia].
  split; [apply length_take|].
  exists (drop (Z.to_nat n) (get_qualification_probabilities results)).
  split; [symmetry; apply take_drop|].
  pose proof (sort_by_probability_sorted
                (map_to_list (qualification_probability results))) as Hsorted.
  fold (get_qualification_probabilities results) in Hsorted.
  rewrite <- (take_drop (Z.to_nat n) (get_qualification_probabilities results)) in Hsorted.
  revert Hsorted.
  generalize (take (Z.to_nat n) (get_qualification_probabilities results)).
  generalize (drop (Z.to_nat n) (get_qualification_probabilities results)).
  intros rest top'. induction top' as [|a top' IH]; intros Hsorted x y Hx Hy.
  - inversion Hx.
  - cbn [app] in Hsorted. apply StronglySorted_inv in Hsorted as [Hs Ha].
    apply elem_of_cons in Hx as [->|Hx].
    + rewrite Forall_forall in Ha. apply (Ha y). apply elem_of_app. by right.
    + exact (IH Hs x y Hx Hy).
Qed.

Lemma get_top_n_likely_playoff_teams_spec_witness :
  length (get_top_n_likely_playoff_teams
            (mkResult (<["MI" := 1%Q]> (<["GT" := (1 # 2)%Q]> ∅)) ∅) 4)
  = Nat.min (Z.to_nat 4)
      (length (get_qualification_probabilities
                 (mkResult (<["MI" := 1%Q]> (<["GT" := (1 # 2)%Q]> ∅)) ∅))).
Proof.
  apply (get_top_n_likely_playoff_teams_spec
           (mkResult (<["MI" := 1%Q]> (<["GT" := (1 # 2)%Q]> ∅)) ∅) 4).
  lia.
Defined.

(** ** Analyzer: the status of a team *)

Lemma Qle_bool_mono c p q :
  (p <= q)%Q -> Qle_bool c p = true -> Qle_bool c q = true.
Proof.
  intros Hpq Hc. apply Qle_bool_iff. apply Qle_bool_iff in Hc.
  exact (Qle_trans _ _ _ Hc Hpq).
Qed.

Lemma status_of_monotone p q :
  (p <= q)%Q -> (status_rank (status_of p) <= status_rank (status_of q))%nat.
Proof.
  intros Hpq. unfold status_of.
  repeat match goal with
         | |- context [Qle_bool ?c p] => destruct (Qle_bool c p) eqn:?
         end;
    repeat match goal with
           | |- context [Qle_bool ?c q] => destruct (Qle_bool c q) eqn:?
           end;
    try (cbn; lia);
    exfalso;
    match goal with
    | H1 : Qle_bool ?c p = true, H2 : Qle_bool ?c q = false |- _ =>
        rewrite (Qle_bool_mono c p q Hpq H1) in H2; discriminate H2
    end.
Qed.

(** A team with a higher qualification probability never gets a lower
    status: the statuses, from "Virtually Eliminated" to "Virtually
    Certain", follow the probabilities. *)
Theorem get_team_qualification_status_monotone results team1 team2 prob1 prob2 :
  qualification_probability results !! team1 = Some prob1 ->
  qualification_probability results !! team2 = Some prob2 ->
  (prob1 <= prob2)%Q ->
  (status_rank (get_team_qualification_status results team1)
   <= status_rank (get_team_qualification_status results team2))%nat.
Proof.
  intros H1 H2 Hle. unfold get_team_qualification_status. rewrite H1, H2.
  apply status_of_monotone, Hle.
Qed.

Lemma get_team_qualification_status_monotone_witness :
  (status_rank (get_team_qualification_status
                  (mkResult (<["MI" := 1%Q]> (<["GT" := (1 # 2)%Q]> ∅)) ∅) "GT")
   <= status_rank (get_team_qualification_status
                     (mkResult (<["MI" := 1%Q]> (<["GT" := (1 # 2)%Q]> ∅)) ∅) "MI"))%nat.
Proof.
  apply (get_team_qualification_status_monotone
           (mkResult (<["MI" := 1%Q]> (<["GT" := (1 # 2)%Q]> ∅)) ∅) "GT" "MI"
           (1 # 2)%Q 1%Q).
  - reflexivity.
  - reflexivity.
  - discriminate.
Defined.

(** ** Analyzer: the expected cutoff *)

Lemma fourth_place_ok items :
  Forall (fun kv : string * list Q => (4 <= length kv.2)%nat) items ->
  exists probs, fourth_place items = Ok probs.
Proof.
  induction 1 as [|[t positions] items Hlen _ [probs IH]]; [by eexists|].
  cbn [fourth_place]. cbn [snd] in Hlen.
  destruct (lookup_lt_is_Some_2 positions 3) as [p Hp]; [lia|].
  rewrite Hp, IH. by eexists.
Qed.

Lemma fourth_place_short items :
  Exists (fun kv : string * list Q => (length kv.2 < 4)%nat) items ->
  fourth_place items = Raise IndexError.
Proof.
  induction items as [|[t positions] items IH]; intros Hex; [inversion Hex|].
  cbn [fourth_place].
  destruct (positions !! 3%nat) as [p|] eqn:Hp; [|reflexivity].
  apply Exists_cons in Hex as [Hshort|Hex].
  - cbn [snd] in Hshort. apply lookup_lt_Some in Hp. lia.
  - rewrite (IH Hex). reflexivity.
Qed.

Lemma calculate_expected_cutoff_returns results standings :
  standings <> [] ->
  (forall team_id positions,
     position_probability results !! team_id = Some positions ->
     (4 <= length positions)%nat) ->
  exists cutoff,
    calculate_expected_cutoff results standings = Ok cutoff
    /\ current_cutoff_of standings + 2 <= cutoff.
Proof.
  intros Hne Hlen.
  destruct (fourth_place_ok (map_to_list (position_probability results)))
    as [probs Hprobs].
  { apply Forall_forall. intros [t positions] Hin.
    apply elem_of_map_to_list in Hin. cbn [snd]. eapply Hlen, Hin. }
  rewrite (calculate_expected_cutoff_run results standings probs Hne Hprobs).
  destruct (Qeq_bool (sum_probs probs) 0); eexists; (split; [reflexivity|lia]).
Qed.

(** For standings that are not empty, [calculate_expected_cutoff] returns
    when every position vector of the result has its fourth entry, and what
    it returns is at least two points above the current cutoff; when a
    position vector is shorter it raises [IndexError]. *)
Theorem calculate_expected_cutoff_bounds results standings :
  standings <> [] ->
  ((forall team_id positions,
      position_probability results !! team_id = Some positions ->
      (4 <= length positions)%nat) ->
   exists cutoff,
     calculate_expected_cutoff results standings = Ok cutoff
     /\ current_cutoff_of standings + 2 <= cutoff)
  /\ ((exists team_id positions,
         position_probability results !! team_id = Some positions
         /\ (length positions < 4)%nat) ->
      calculate_expected_cutoff results standings = Raise IndexError).
Proof.
  intros Hne. split.
  - apply calculate_expected_cutoff_returns, Hne.
  - intros (t & positions & Hin & Hshort).
    unfold calculate_expected_cutoff.
    destruct standings as [|s standings]; [contradiction|]. cbn [length Nat.eqb].
    rewrite fourth_place_short; [reflexivity|].
    apply Exists_exists. exists (t, positions). split; [|exact Hshort].
    apply elem_of_map_to_list. exact Hin.
Qed.

Lemma five_team_result_positions team_id positions :
  position_probability five_team_result !! team_id = Some positions ->
  (4 <= length positions)%nat.
Proof.
  unfold five_team_result. cbn [position_probability]. intros Hv.
  apply lookup_insert_Some in Hv as [[_ <-]|[_ Hv]]; [simpl; lia|].
  apply lookup_insert_Some in Hv as [[_ <-]|[_ Hv]]; [simpl; lia|].
  rewrite lookup_empty in Hv. discriminate.
Defined.

Lemma five_team_result_teams team_id :
  is_Some (qualification_probability five_team_result !! team_id) ->
  team_id ∈ map team five_teams.
Proof.
  unfold five_team_result. cbn [qualification_probability]. intros [q Hq].
  apply lookup_insert_Some in Hq as [[<- _]|[_ Hq]]; [cbn; do 2 right; left|].
  apply lookup_insert_Some in Hq as [[<- _]|[_ Hq]]; [cbn; do 3 right; left|].
  rewrite lookup_empty in Hq. discriminate.
Defined.

Lemma calculate_expected_cutoff_bounds_witness :
  exists cutoff,
    calculate_expected_cutoff five_team_result five_teams = Ok cutoff
    /\ current_cutoff_of five_teams + 2 <= cutoff.
Proof.
  apply (calculate_expected_cutoff_bounds five_team_result five_teams).
  - discriminate.
  - exact five_team_result_positions.
Defined.

(** ** Analyzer: the scenario of a team *)

Lemma generate_qualification_scenarios_present results standings team_id
    team_standing cutoff :
  find_standing standings team_id = Some team_standing ->
  calculate_expected_cutoff results standings = Ok cutoff ->
  match qualification_probability results !! team_id with
  | Some prob =>
      exists s,
        generate_qualification_scenarios results standings team_id = Ok (Some s)
        /\ scenario_current_points s = points team_standing
        /\ scenario_expected_cutoff s = cutoff
        /\ scenario_qualification_probability s = prob
        /\ 0 <= points_needed s
        /\ cutoff <= points team_standing + points_needed s
        /\ cutoff <= points team_standing + 2 * wins_needed s
        /\ 2 * wins_needed s <= points_needed s + 1
        /\ (cutoff <= points team_standing ->
            points_needed s = 0 /\ wins_needed s = 0)
  | None =>
      generate_qualification_scenarios results standings team_id = Raise KeyError
  end.
Proof.
  intros Hfind Hcut. unfold generate_qualification_scenarios.
  rewrite Hfind, Hcut. cbn [outcome_bind].
  destruct (qualification_probability results !! team_id) as [prob|]; [|reflexivity].
  eexists. split; [reflexivity|].
  cbn [scenario_current_points scenario_expected_cutoff
         scenario_qualification_probability points_needed wins_needed].
  pose proof (Z.div_mod (Z.max 0 (cutoff - points team_standing) + 1) 2) as Hdiv.
  pose proof (Z.mod_pos_bound (Z.max 0 (cutoff - points team_standing) + 1) 2) as Hmod.
  repeat split; lia.
Qed.

(** [generate_qualification_scenarios] answers [None] for a team that is
    not in the standings.  For a team of the standings that the result
    has, it returns a scenario whose points needed are what the team lacks
    to the expected cutoff, never negative, and whose wins needed are the
    least number of wins that bring these points: that many wins reach the
    expected cutoff, and they bring at most one point more than needed.
    For a team of the standings that the result does not have it raises
    [KeyError]. *)
Theorem generate_qualification_scenarios_spec results standings team_id :
  (find_standing standings team_id = None ->
   generate_qualification_scenarios results standings team_id = Ok None)
  /\ (forall team_standing cutoff,
        find_standing standings team_id = Some team_standing ->
        calculate_expected_cutoff results standings = Ok cutoff ->
        match qualification_probability results !! team_id with
        | Some prob =>
            exists s,
              generate_qualification_scenarios results standings team_id = Ok (Some s)
              /\ scenario_current_points s = points team_standing
              /\ scenario_expected_cutoff s = cutoff
              /\ scenario_qualification_probability s = prob
              /\ 0 <= points_needed s
              /\ cutoff <= points team_standing + points_needed s
              /\ cutoff <= points team_standing + 2 * wins_needed s
              /\ 2 * wins_needed s <= points_needed s + 1
              /\ (cutoff <= points team_standing ->
                  points_needed s = 0 /\ wins_needed s = 0)
        | None =>
            generate_qualification_scenarios results standings team_id = Raise KeyError
        end).
Proof.
  split.
  - intros Hnone. unfold generate_qualification_scenarios. rewrite Hnone. reflexivity.
  - apply generate_qualification_scenarios_present.
Qed.

Lemma generate_qualification_scenarios_spec_witness :
  exists s,
    generate_qualification_scenarios five_team_result five_teams "CSK" = Ok (Some s)
    /\ scenario_current_points s = 12
    /\ scenario_expected_cutoff s = 15
    /\ 15 <= 12 + 2 * wins_needed s
    /\ 2 * wins_needed s <= points_needed s + 1.
Proof.
  destruct (generate_qualification_scenarios_spec five_team_result five_teams "CSK")
    as [_ Hsome].
  specialize (Hsome (mkStanding "CSK" 10 6 4 12 (3 # 10)) 15 eq_refl eq_refl).
  assert (Hq : qualification_probability five_team_result !! "CSK"%string
               = Some (1 # 2)%Q) by reflexivity.
  rewrite Hq in Hsome.
  destruct Hsome as (s & Hs & Hpts & Hcut & _ & _ & _ & Hwins & Hceil & _).
  exists s. split; [exact Hs|]. split; [exact Hpts|]. split; [exact Hcut|].
  split; [exact Hwins|exact Hceil].
Defined.

(** ** Analyzer: the report *)

Lemma find_standing_present data team_id :
  team_id ∈ map team data ->
  exists team_standing,
    find_standing data team_id = Some team_standing /\ team team_standing = team_id.
Proof.
  induction data as [|t data IH]; cbn [map find_standing]; intros Hid.
  - inversion Hid.
  - destruct (String.eqb_spec (team t) team_id) as [Heq|Hne]; [by exists t|].
    apply elem_of_cons in Hid as [Heq|Hid]; [congruence|]. apply IH, Hid.
Qed.

Lemma scenarios_loop_spec results standings team_ids :
  forall team_scenarios,
    Forall (fun team_id =>
              exists s, generate_qualification_scenarios results standings team_id
                        = Ok (Some s)) team_ids ->
    exists team_scenarios',
      scenarios_loop results standings team_ids team_scenarios = Ok team_scenarios'
      /\ forall team_id,
           (team_id ∈ team_ids ->
            exists s,
              team_scenarios' !! team_id = Some (Some s)
              /\ generate_qualification_scenarios results standings team_id
                 = Ok (Some s))
           /\ (team_id ∉ team_ids ->
               team_scenarios' !! team_id = team_scenarios !! team_id).
Proof.
  induction team_ids as [|id ids IH]; intros m Hall.
  - exists m. split; [reflexivity|]. intros t. split; [intros Ht; inversion Ht|done].
  - apply Forall_cons in Hall as [[s Hs] Hall]. cbn [scenarios_loop].
    rewrite Hs. cbn [outcome_bind].
    destruct (IH (<[id := Some s]> m) Hall) as (m' & Hloop & Hm').
    exists m'. split; [exact Hloop|]. intros t. split.
    + intros Ht. destruct (decide (t ∈ ids)) as [Hin|Hout]; [by apply Hm'|].
      apply elem_of_cons in Ht as [->|Ht]; [|contradiction].
      exists s. split; [|exact Hs].
      destruct (Hm' id) as [_ Hkeep]. rewrite (Hkeep Hout). apply lookup_insert_eq.
    + intros Ht. apply not_elem_of_cons in Ht as [Hne Ht].
      destruct (Hm' t) as [_ Hkeep]. rewrite (Hkeep Ht). by apply lookup_insert_ne.
Qed.

Lemma generate_playoff_report_run results standings :
  standings <> [] ->
  (forall team_id positions,
     position_probability results !! team_id = Some positions ->
     (4 <= length positions)%nat) ->
  (forall team_id,
     is_Some (qualification_probability results !! team_id) ->
     team_id ∈ map team standings) ->
  exists report cutoff,
    generate_playoff_report results standings = Ok report
    /\ calculate_expected_cutoff results standings = Ok cutoff
    /\ report_expected_cutoff report = cutoff
    /\ current_cutoff_of standings + 2 <= cutoff
    /\ find_current_playoff_cutoff standings = Ok (report_current_cutoff report)
    /\ report_qualification_probabilities report = get_qualification_probabilities results
    /\ forall team_id,
         match qualification_probability results !! team_id with
         | Some prob =>
             exists s,
               report_team_scenarios report !! team_id = Some (Some s)
               /\ generate_qualification_scenarios results standings team_id = Ok (Some s)
               /\ scenario_qualification_probability s = prob
               /\ scenario_expected_cutoff s = cutoff
               /\ cutoff <= scenario_current_points s + 2 * wins_needed s
         | None => report_team_scenarios report !! team_id = None
         end.
Proof.
  intros Hne Hlen Hkeys.
  destruct (calculate_expected_cutoff_returns results standings Hne Hlen)
    as (cutoff & Hcut & Hbound).
  assert (Hcur : exists c, find_current_playoff_cutoff standings = Ok c).
  { destruct (Nat.le_gt_cases 4 (length standings)) as [H4|H4].
    - destruct (find_current_playoff_cutoff_fourth standings H4) as (t & _ & Ht). eauto.
    - rewrite (find_current_playoff_cutoff_short standings H4). eauto. }
  destruct Hcur as [c Hc].
  assert (Hscen : forall team_id prob,
             qualification_probability results !! team_id = Some prob ->
             exists s,
               generate_qualification_scenarios results standings team_id = Ok (Some s)
               /\ scenario_qualification_probability s = prob
               /\ scenario_expected_cutoff s = cutoff
               /\ cutoff <= scenario_current_points s + 2 * wins_needed s).
  { intros id prob Hprob.
    destruct (find_standing_present standings id) as (ts & Hts & _);
      [apply Hkeys; eauto|].
    pose proof (generate_qualification_scenarios_present results standings id ts cutoff
                  Hts Hcut) as Hsome.
    rewrite Hprob in Hsome.
    destruct Hsome as (s & Hs & Hpts & Hexp & Hq & _ & _ & Hwins & _).
    exists s. rewrite Hpts. auto. }
  destruct (scenarios_loop_spec results standings
              (map fst (map_to_list (qualification_probability results))) ∅)
    as (m & Hloop & Hm).
  { apply Forall_forall. intros id Hid.
    apply list_elem_of_fmap in Hid as ([id' prob] & -> & Hin).
    apply elem_of_map_to_list in Hin.
    destruct (Hscen id' prob Hin) as (s & Hs & _). eauto. }
  exists (mkReport (get_qualification_probabilities results) c cutoff m), cutoff.
  split.
  { unfold generate_playoff_report. rewrite Hc, Hcut. cbn [outcome_bind].
    rewrite Hloop. reflexivity. }
  split; [exact Hcut|]. split; [reflexivity|]. split; [exact Hbound|].
  split; [exact Hc|]. split; [reflexivity|].
  intros id. cbn [report_team_scenarios].
  destruct (qualification_probability results !! id) as [prob|] eqn:Hprob.
  - destruct (Hm id) as [Hin _].
    destruct Hin as (s & Hms & Hs).
    { apply list_elem_of_fmap. exists (id, prob). split; [reflexivity|].
      apply elem_of_map_to_list, Hprob. }
    destruct (Hscen id prob Hprob) as (s' & Hs' & Hrest).
    assert (s' = s) as -> by congruence.
    exists s. split; [exact Hms|]. split; [exact Hs|]. exact Hrest.
  - destruct (Hm id) as [_ Hout]. rewrite Hout; [apply lookup_empty|].
    intros Hin. apply list_elem_of_fmap in Hin as ([id' prob] & -> & Hin).
    apply elem_of_map_to_list in Hin. cbn [fst] in Hprob. congruence.
Qed.

(** [generate_playoff_report] on empty standings raises
    [ZeroDivisionError].  On standings that are not empty, with a result
    whose position vectors have their fourth entry and whose teams are all
    in the standings, it returns a report that holds the ranked
    probabilities, both cutoffs, and for every team of the result a
    scenario, never [None], whose wins needed reach the expected cutoff of
    the report; it has no scenario for another key. *)
Theorem generate_playoff_report_spec results standings :
  (standings = [] ->
   generate_playoff_report results standings = Raise ZeroDivisionError)
  /\ (standings <> [] ->
      (forall team_id positions,
         position_probability results !! team_id = Some positions ->
         (4 <= length positions)%nat) ->
      (forall team_id,
         is_Some (qualification_probability results !! team_id) ->
         team_id ∈ map team standings) ->
      exists report cutoff,
        generate_playoff_report results standings = Ok report
        /\ calculate_expected_cutoff results standings = Ok cutoff
        /\ report_expected_cutoff report = cutoff
        /\ current_cutoff_of standings + 2 <= cutoff
        /\ find_current_playoff_cutoff standings = Ok (report_current_cutoff report)
        /\ report_qualification_probabilities report
           = get_qualification_probabilities results
        /\ forall team_id,
             match qualification_probability results !! team_id with
             | Some prob =>
                 exists s,
                   report_team_scenarios report !! team_id = Some (Some s)
                   /\ generate_qualification_scenarios results standings team_id
                      = Ok (Some s)
                   /\ scenario_qualification_probability s = prob
                   /\ scenario_expected_cutoff s = cutoff
                   /\ cutoff <= scenario_current_points s + 2 * wins_needed s
             | None => report_team_scenarios report !! team_id = None
             end).
Proof.
  split.
  - intros ->. reflexivity.
  - apply generate_playoff_report_run.
Qed.

Lemma generate_playoff_report_spec_witness :
  generate_playoff_report five_team_result [] = Raise ZeroDivisionError
  /\ exists report cutoff,
       generate_playoff_report five_team_result five_teams = Ok report
       /\ report_expected_cutoff report = cutoff
       /\ current_cutoff_of five_teams + 2 <= cutoff
       /\ exists s,
            report_team_scenarios report !! "CSK"%string = Some (Some s)
            /\ cutoff <= scenario_current_points s + 2 * wins_needed s.
Proof.
  destruct (generate_playoff_report_spec five_team_result []) as [Hempty _].
  split; [exact (Hempty eq_refl)|].
  destruct (generate_playoff_report_spec five_team_result five_teams) as [_ Hrun].
  destruct Hrun as (report & cutoff & Hrep & _ & Hexp & Hbound & _ & _ & Hscen).
  - discriminate.
  - exact five_team_result_positions.
  - exact five_team_result_teams.
  - exists report, cutoff. split; [exact Hrep|]. split; [exact Hexp|].
    split; [exact Hbound|].
    specialize (Hscen "CSK"%string).
    assert (Hq : qualification_probability five_team_result !! "CSK"%string
                 = Some (1 # 2)%Q) by reflexivity.
    rewrite Hq in Hscen. destruct Hscen as (s & Hs & _ & _ & _ & Hwins).
    exists s. split; [exact Hs|exact Hwins].
Defined.

(** ** main.py: from the standings to the report *)

Lemma form_bonus_spec_bounds form : (-15 <= form_bonus_spec form <= 30)%R.
Proof.
  unfold form_bonus_spec.
  pose proof (weighted_form_bounds form weights) as H.
  assert (Hsum : sum_R weights = 3%R) by (unfold sum_R, weights; cbn [foldr]; lra).
  rewrite Hsum in H.
  assert (Hpos : Forall (fun w => 0 <= w)%R weights).
  { unfold weights. repeat constructor; lra. }
  specialize (H Hpos). lra.
Qed.

Lemma win_share_bounds (won matches : Z) :
  0 <= won <= matches -> 0 < matches ->
  (0 <= IZR won / IZR matches <= 1)%R.
Proof.
  intros [H0 H1] Hpos.
  apply IZR_le in H0, H1. apply IZR_lt in Hpos.
  assert (Hx : (IZR won / IZR matches * IZR matches = IZR won)%R) by (field; lra).
  generalize dependent (IZR won / IZR matches)%R. intros x Hx. nra.
Qed.

Lemma initial_rating_band form_factor t :
  ordinary_standing t ->
  (-3565 <= initial_rating form_factor t <= 21580)%R.
Proof.
  intros (Hwins & [Hp0 Hp1] & [Hn0 Hn1]). unfold initial_rating.
  pose proof (form_bonus_spec_bounds (form_of form_factor (team t))) as Hform.
  apply IZR_le in Hp0, Hp1. apply Qreals.Qle_Rle in Hn0, Hn1.
  assert (Hlow : Q2R (-100) = (-100)%R) by (unfold Q2R; cbn [Qnum Qden]; lra).
  assert (Hhigh : Q2R 100 = 100%R) by (unfold Q2R; cbn [Qnum Qden]; lra).
  rewrite Hlow in Hn0. rewrite Hhigh in Hn1.
  destruct (Z.ltb_spec 0 (played t)) as [Hplayed|_]; [|lra].
  pose proof (win_share_bounds (wins t) (played t) Hwins Hplayed) as Hshare.
  lra.
Qed.

Lemma ordinary_ratings_band data form_factor ratings :
  NoDup (map team data) ->
  Forall ordinary_standing data ->
  _initialize_elo_ratings data form_factor = Some ratings ->
  forall team_id, (-3565 <= get_team_rating ratings team_id <= 21580)%R.
Proof.
  intros Hnd Hall Hinit id. unfold _initialize_elo_ratings in Hinit.
  destruct (adjust_ratings_spec form_factor data
              (gset_to_gmap 1500%R (list_to_set (map team data) : gset string)) Hnd)
    as (ratings' & Hrun & Hin & Hout).
  { intros t Ht. exists 1500%R. apply lookup_gset_to_gmap_Some. split; [|reflexivity].
    apply elem_of_list_to_set. by apply list_elem_of_fmap_2. }
  rewrite Hinit in Hrun. injection Hrun as <-.
  unfold get_team_rating.
  destruct (decide (id ∈ map team data)) as [Hid|Hid].
  - apply list_elem_of_fmap in Hid as (t & -> & Ht).
    destruct (Hin t 1500%R Ht) as (r & Hr & ->).
    { apply lookup_gset_to_gmap_Some. split; [|reflexivity].
      apply elem_of_list_to_set. by apply list_elem_of_fmap_2. }
    rewrite Hr. rewrite Forall_forall in Hall.
    pose proof (initial_rating_band form_factor t (Hall t Ht)) as Hband.
    change (default 1500%R (Some (1500 + (initial_rating form_factor t - 1500))%R))
      with (1500 + (initial_rating form_factor t - 1500))%R.
    lra.
  - rewrite (Hout id Hid).
    assert (Hnone : (gset_to_gmap 1500%R (list_to_set (map team data) : gset string)
                     : gmap string R) !! id = None).
    { apply lookup_gset_to_gmap_None. intros Hin'. apply Hid.
      by apply elem_of_list_to_set in Hin'. }
    rewrite Hnone. change (default 1500%R (None : option R)) with 1500%R. lra.
Qed.

Lemma band_gaps_bounded (ratings : gmap string R) use_elo matches :
  (forall team_id, (-3565 <= get_team_rating ratings team_id <= 21580)%R) ->
  rating_gaps_bounded ratings use_elo matches.
Proof.
  intros Hband _. apply Forall_forall. intros m _.
  pose proof (Hband (homeTeam m)). pose proof (Hband (awayTeam m)). lra.
Qed.

(** On standings with one to ten distinct teams, each a record of the
    ordinary range, and a positive number of trials, the pipeline of
    [run_playoffs_prediction] returns for every schedule, form and venue
    data and random source.  The standings are
    afterwards what they were; the report ranks exactly the teams of the
    standings; its expected cutoff is at least two points above the
    current one; and every team of the standings has a scenario in it,
    never [None], so that the loop that prints the scenarios finds the
    keys it reads. *)
Theorem run_playoffs_prediction_returns {G} `{!RandomSource G} standings data schedule
    form_factor home_away_stats iterations (w : World G) :
  NoDup standings ->
  Forall2 (fun l t => heap w !! l = Some t) standings data ->
  NoDup (map team data) ->
  data <> [] ->
  Forall ordinary_standing data ->
  (length data <= 10)%nat ->
  0 < iterations ->
  exists result report w',
    run_playoffs_prediction standings schedule form_factor home_away_stats iterations w
    = (Ok (result, report), w')
    /\ Forall2 (fun l t => heap w' !! l = Some t) standings data
    /\ Permutation (map fst (report_qualification_probabilities report)) (map team data)
    /\ current_cutoff_of data + 2 <= report_expected_cutoff report
    /\ forall t,
         t ∈ data ->
         exists s,
           report_team_scenarios report !! team t = Some (Some s)
           /\ qualification_probability result !! team t
              = Some (scenario_qualification_probability s)
           /\ report_expected_cutoff report
              <= scenario_current_points s + 2 * wins_needed s.
Proof.
  intros Hnd Hpts Hteams Hne Hordinary Hlen Hpos.
  destruct (EloCalculator_init_spec w standings data form_factor home_away_stats
              Hpts Hteams) as (r & Hr & Helo).
  set (w1 := mkWorld (heap w) (rng w) r) in Helo.
  destruct (MonteCarloSimulator_init_spec w1 standings data schedule
              (mkElo form_factor home_away_stats) Hnd Hpts) as [Hinit Hsim].
  assert (Hgaps : rating_gaps_bounded (ratings w1) true schedule).
  { apply band_gaps_bounded.
    exact (ordinary_ratings_band data form_factor r Hteams Hordinary Hr). }
  destruct (run_simulation_shape _ data true iterations w1 Hsim Hgaps Hlen Hpos)
    as (result & w2 & Hrun & Hsim2 & _ & Hres).
  pose proof Hsim2 as (_ & Hpts2 & _). cbn [self_standings] in Hpts2.
  destruct (generate_playoff_report_run result data Hne)
    as (report & cutoff & Hrep & _ & Hexp & Hbound & _ & Hranked & Hscen).
  { intros id v Hv. destruct (decide (id ∈ map team data)) as [Hid|Hid].
    - destruct (Hres id) as [Hin _]. destruct (Hin Hid) as (_ & v' & _ & Hv' & Hl).
      assert (v' = v) as -> by congruence. lia.
    - destruct (Hres id) as [_ Hout]. destruct (Hout Hid) as [_ Hnone]. congruence. }
  { intros id [q Hq]. destruct (decide (id ∈ map team data)) as [Hid|Hid]; [exact Hid|].
    destruct (Hres id) as [_ Hout]. destruct (Hout Hid) as [Hnone _]. congruence. }
  exists result, report, w2. split; [|split; [exact Hpts2|split; [|split]]].
  - unfold run_playoffs_prediction.
    rewrite (bind_ok _ _ _ _ _ Helo), (bind_ok _ _ _ _ _ Hinit), (bind_ok _ _ _ _ _ Hrun).
    rewrite bind_run, (load_all_spec w2 standings data Hpts2).
    rewrite bind_run. unfold lift. rewrite Hrep. reflexivity.
  - rewrite Hranked.
    destruct (get_qualification_probabilities_items result) as [Hnd' Hitems].
    apply NoDup_Permutation; [exact Hnd'|exact Hteams|].
    intros id. split.
    + intros Hin. apply list_elem_of_fmap in Hin as ([id' q] & -> & Hin).
      apply Hitems in Hin. cbn [fst].
      destruct (decide (id' ∈ map team data)) as [Hid|Hid]; [exact Hid|].
      destruct (Hres id') as [_ Hout]. destruct (Hout Hid) as [Hnone _]. congruence.
    + intros Hid. destruct (Hres id) as [Hin _]. destruct (Hin Hid) as (q & _ & Hq & _).
      apply list_elem_of_fmap. exists (id, q). split; [reflexivity|].
      apply Hitems, Hq.
  - rewrite Hexp. exact Hbound.
  - intros t Ht. destruct (Hres (team t)) as [Hin _].
    destruct Hin as (q & _ & Hq & _); [by apply list_elem_of_fmap_2|].
    specialize (Hscen (team t)). rewrite Hq in Hscen.
    destruct Hscen as (s & Hs & _ & Hsq & _ & Hwins).
    exists s. split; [exact Hs|]. split; [rewrite Hq, Hsq; reflexivity|].
    rewrite Hexp. exact Hwins.
Qed.

Lemma run_playoffs_prediction_returns_witness :
  exists result report w',
    run_playoffs_prediction [0; 1; 2; 3; 4]%nat [mkFixture "KKR" "MI"] [] [] 1000
      five_team_world
    = (Ok (result, report), w')
    /\ Forall2 (fun l t => heap w' !! l = Some t) [0; 1; 2; 3; 4]%nat five_teams
    /\ Permutation (map fst (report_qualification_probabilities report))
         (map team five_teams)
    /\ current_cutoff_of five_teams + 2 <= report_expected_cutoff report
    /\ forall t,
         t ∈ five_teams ->
         exists s,
           report_team_scenarios report !! team t = Some (Some s)
           /\ qualification_probability result !! team t
              = Some (scenario_qualification_probability s)
           /\ report_expected_cutoff report
              <= scenario_current_points s + 2 * wins_needed s.
Proof.
  apply (run_playoffs_prediction_returns [0; 1; 2; 3; 4]%nat five_teams
           [mkFixture "KKR" "MI"] [] [] 1000 five_team_world).
  - apply (NoDup_seq 0 5).
  - repeat constructor.
  - apply five_teams_distinct.
  - discriminate.
  - repeat constructor; try (cbn; lia); unfold Qle; cbn; lia.
  - simpl. lia.
  - lia.
Defined.
